(** * whatsdown: the connection hub (package server) and its data (package models)

    A shallow embedding of the hub's routing table and of the operations
    that mutate or query it, followed by the properties of the hub that the
    specification states.

    Conventions of the embedding.
    - Go maps are [gmap]s.  A [range] over a map visits the keys in an
      unspecified order; every loop therefore takes the order as an extra
      argument (see [rangeOrder]) and the theorems hold for all orders.
    - [*Client] pointers are addresses ([ptr]) into [heap], the store of
      [Client] objects; a channel is the state of its buffer.
    - [*Message] pointers are held by the conversation slices only, and the
      slices are append-only, so a message is addressed by its conversation
      key and its index.
    - [time.Now()] and [uuid.New().String()] are arguments of the operation
      that calls them.
    - A run-time panic (close of a closed channel, send on a closed channel,
      nil dereference) is the result [Panic].
    - Each operation runs from start to end without interleaving: this is
      the behaviour of one call under the hub's lock discipline. *)

From stdpp Require Import base decidable option list sorting gmap strings fin_maps.
From Stdlib Require Import ZArith Ascii Lia.
From Stdlib Require DecimalString DecimalZ.

Open Scope Z_scope.
Open Scope string_scope.
Open Scope list_scope.

(** ** Data model (package models) *)

(** [time.Time], as an instant on a line. *)
Abbreviation Time := Z.

(** Address of a [Client] object. *)
Abbreviation ptr := nat.

Module User.
Record t := mk {
  Username : string;
  Online : bool;
  CurrentConn : option ptr;
  LastSeen : Time }.
End User.

Module Message.
Record t := mk {
  ID : string;
  From : string;
  To : string;
  Content : string;
  Timestamp : Time;
  Status : string }.
End Message.

Module Conversation.
Record t := mk {
  PeerUsername : string;
  LastMessagePreview : string;
  LastMessageTime : Time;
  PeerOnline : bool;
  UnreadCount : Z }.
End Conversation.

Module InboundMessage.
Record t := mk {
  To : string;
  Content : string;
  TempID : string }.
End InboundMessage.

(** The [Timestamp] of an outbound message is the RFC 3339 rendering of the
    message's instant; the model keeps the instant that is rendered. *)
Module OutboundMessage.
Record t := mk {
  ID : string;
  From : string;
  To : string;
  Content : string;
  Timestamp : Time;
  Status : string }.
End OutboundMessage.

Module TypingEvent.
Record t := mk {
  From : string;
  To : string;
  IsTyping : bool }.
End TypingEvent.

Module StatusEvent.
Record t := mk {
  Username : string;
  Online : bool }.
End StatusEvent.

Module AckEvent.
Record t := mk {
  MessageID : string;
  Status : string }.
End AckEvent.

(** The [interface{}] payload of an envelope, as the union of the four
    payloads the hub sends. *)
Inductive Payload :=
  | PMessage (m : OutboundMessage.t)
  | PTyping (e : TypingEvent.t)
  | PStatus (e : StatusEvent.t)
  | PAck (e : AckEvent.t).

(** [WSMessage]; the field [Type] is spelled [Kind] here.  [json.Marshal] of
    an envelope cannot fail for these payloads and is injective, so a queued
    frame is the envelope itself. *)
Module WSMessage.
Record t := mk {
  Kind : string;
  Payload : Payload }.
End WSMessage.

#[global] Instance User_eq_dec : EqDecision User.t.
Proof. solve_decision. Defined.
#[global] Instance Message_eq_dec : EqDecision Message.t.
Proof. solve_decision. Defined.
#[global] Instance Conversation_eq_dec : EqDecision Conversation.t.
Proof. solve_decision. Defined.
#[global] Instance OutboundMessage_eq_dec : EqDecision OutboundMessage.t.
Proof. solve_decision. Defined.
#[global] Instance TypingEvent_eq_dec : EqDecision TypingEvent.t.
Proof. solve_decision. Defined.
#[global] Instance StatusEvent_eq_dec : EqDecision StatusEvent.t.
Proof. solve_decision. Defined.
#[global] Instance AckEvent_eq_dec : EqDecision AckEvent.t.
Proof. solve_decision. Defined.
#[global] Instance Payload_eq_dec : EqDecision Payload.
Proof. solve_decision. Defined.
#[global] Instance WSMessage_eq_dec : EqDecision WSMessage.t.
Proof. solve_decision. Defined.

(** ** ConvKey *)

(** [sort.Strings]: ascending byte-wise lexicographic order.  The slice
    sorted by [ConvKey] has two elements, for which the library's sort is an
    insertion sort. *)
Fixpoint sort_insert (x : string) (l : list string) : list string :=
  match l with
  | [] => [x]
  | y :: l' => if String.ltb x y then x :: y :: l' else y :: sort_insert x l'
  end.

Definition sort_Strings (l : list string) : list string :=
  foldl (λ acc x, sort_insert x acc) [] l.

Fixpoint strings_Join (elems : list string) (sep : string) : string :=
  match elems with
  | [] => ""
  | [x] => x
  | x :: rest => x ++ sep ++ strings_Join rest sep
  end.

Definition ConvKey (a b : string) : string :=
  let users := sort_Strings [a; b] in
  strings_Join users "|".

(** ** Channels and clients (package server) *)

(** A buffered channel of frames: the queued frames, oldest first, whether
    the channel has been closed, and its capacity. *)
Module Chan.
Record t := mk {
  buf : list WSMessage.t;
  closed : bool;
  cap : nat }.

(** [make(chan []byte, n)] *)
Definition make (n : nat) : t := mk [] false n.
End Chan.

(** [Client]; [Conn] (the socket) and [Hub] (the back pointer) play no part
    in the hub's state. *)
Module Client.
Record t := mk {
  Username : string;
  Send : Chan.t }.
End Client.

#[global] Instance Chan_eq_dec : EqDecision Chan.t.
Proof. solve_decision. Defined.
#[global] Instance Client_eq_dec : EqDecision Client.t.
Proof. solve_decision. Defined.

(** [Hub], with the store of client objects its pointers refer to.  The
    channels [Register], [Unregister], [InboundMessages] and [TypingEvents]
    only carry the calls modelled below. *)
Record Hub := mkHub {
  Clients : gmap string ptr;
  Users : gmap string User.t;
  Conversations : gmap string (list Message.t);
  heap : gmap ptr Client.t }.

Definition NewHub : Hub := mkHub ∅ ∅ ∅ ∅.

Definition set_Clients (f : gmap string ptr → gmap string ptr) (h : Hub) : Hub :=
  mkHub (f (Clients h)) (Users h) (Conversations h) (heap h).
Definition set_Users (f : gmap string User.t → gmap string User.t) (h : Hub) : Hub :=
  mkHub (Clients h) (f (Users h)) (Conversations h) (heap h).
Definition set_Conversations
    (f : gmap string (list Message.t) → gmap string (list Message.t)) (h : Hub) : Hub :=
  mkHub (Clients h) (Users h) (f (Conversations h)) (heap h).
Definition set_heap (f : gmap ptr Client.t → gmap ptr Client.t) (h : Hub) : Hub :=
  mkHub (Clients h) (Users h) (Conversations h) (f (heap h)).

(** The size of the queue [HandleWebSocket] gives a client. *)
Definition sendQueueSize : nat := 256.

(** ** Results and the hub monad *)

Inductive Res (A : Type) :=
  | Ok (a : A) (h : Hub)
  | Panic.
Arguments Ok {A} a h.
Arguments Panic {A}.

Definition M (A : Type) : Type := Hub → Res A.

Definition ret {A} (a : A) : M A := λ h, Ok a h.

Definition bind {A B} (m : M A) (k : A → M B) : M B :=
  λ h, match m h with
       | Ok a h' => k a h'
       | Panic => Panic
       end.

Definition get : M Hub := λ h, Ok h h.
Definition modify (f : Hub → Hub) : M unit := λ h, Ok () (f h).
Definition panic {A} : M A := λ _, Panic.

Notation "'do' x <- m ; k" := (bind m (λ x, k))
  (at level 20, x name, m at level 100, k at level 200,
   format "'[v' 'do'  x  <-  m ; '/' k ']'").
Notation "m ;; k" := (bind m (λ _, k))
  (at level 100, k at level 200, right associativity).

Fixpoint forEach {A} (l : list A) (body : A → M unit) : M unit :=
  match l with
  | [] => ret ()
  | x :: l' => body x ;; forEach l' body
  end.

(** ** Map iteration *)

(** The order in which a [range] visits the keys of [m].  Go leaves it
    unspecified; [hint] chooses it: the keys of [m] listed in [hint] come
    first, in the order of [hint] (of their last occurrence there), then
    the remaining keys.  Every enumeration of the keys is the image of some
    hint (itself). *)
Definition rangeOrder {V} (hint : list string) (m : gmap string V) : list string :=
  let first := remove_dups (filter (λ k, is_Some (m !! k)) hint) in
  first ++ filter (λ k, k ∉ first) (map_to_list m).*1.

(** [for k, v := range proj(h) { body k v }].  An entry deleted by an
    earlier iteration is not visited: the body runs on the entries still
    present when their turn comes. *)
Definition rangeMap {V} (proj : Hub → gmap string V) (hint : list string)
    (body : string → V → M unit) : M unit :=
  do h <- get;
  forEach (rangeOrder hint (proj h)) (λ k,
    do h' <- get;
    match proj h' !! k with
    | Some v => body k v
    | None => ret ()
    end).

(** ** Channel operations *)

(** [close(ch)]: panics on a closed channel. *)
Definition chan_close (ch : Chan.t) : option Chan.t :=
  if Chan.closed ch then None
  else Some (Chan.mk (Chan.buf ch) true (Chan.cap ch)).

(** What a non-blocking send [select { case ch <- data: ... default: ... }]
    does: it panics on a closed channel, queues the frame when the buffer
    has room, and falls to [default] when the buffer is full. *)
Inductive SendOutcome :=
  | SendPanics
  | SendQueued (ch' : Chan.t)
  | SendWouldBlock.

Definition chan_trySend (ch : Chan.t) (data : WSMessage.t) : SendOutcome :=
  if Chan.closed ch then SendPanics
  else if decide (length (Chan.buf ch) < Chan.cap ch)%nat
       then SendQueued (Chan.mk (Chan.buf ch ++ [data]) (Chan.closed ch) (Chan.cap ch))
       else SendWouldBlock.

(** What a non-blocking receive [select { case <-ch: ... default: ... }]
    does: a queued frame is taken, from an open or a closed channel; an
    empty closed channel yields the zero value at once; an empty open
    channel falls to [default]. *)
Inductive RecvOutcome :=
  | RecvTaken (ch' : Chan.t)
  | RecvWouldBlock.

Definition chan_tryRecv (ch : Chan.t) : RecvOutcome :=
  match Chan.buf ch with
  | _ :: rest => RecvTaken (Chan.mk rest (Chan.closed ch) (Chan.cap ch))
  | [] => if Chan.closed ch then RecvTaken ch else RecvWouldBlock
  end.

(** Dereference of a client pointer. *)
Definition deref (client : ptr) : M Client.t :=
  λ h, match heap h !! client with
       | Some c => Ok c h
       | None => Panic
       end.

Definition setSend (client : ptr) (ch : Chan.t) : M unit :=
  modify (set_heap (alter (λ c, Client.mk (Client.Username c) ch) client)).

(** [close(client.Send)] *)
Definition closeSend (client : ptr) : M unit :=
  do c <- deref client;
  match chan_close (Client.Send c) with
  | Some ch' => setSend client ch'
  | None => panic
  end.

(** ** The hub's operations *)

Definition sendToClient (client : ptr) (msgType : string) (payload : Payload) : M unit :=
  let data := WSMessage.mk msgType payload in
  do c <- deref client;
  match chan_trySend (Client.Send c) data with
  | SendPanics => panic
  | SendQueued ch' => setSend client ch'
  | SendWouldBlock =>
      closeSend client ;;
      modify (set_Clients (delete (Client.Username c)))
  end.

Definition broadcastStatus (username : string) (online : bool) (order : list string) : M unit :=
  let statusEvent := StatusEvent.mk username online in
  rangeMap Clients order (λ uname client,
    if decide (uname ≠ username)
    then sendToClient client "status" (PStatus statusEvent)
    else ret ()).

(** [registerClient]; [orderC] and [orderU] are the orders of its two
    loops, over the clients and over the users. *)
Definition registerClient (client : ptr) (now : Time) (orderC orderU : list string) : M bool :=
  do c <- deref client;
  let username := Client.Username c in
  do h <- get;
  match Users h !! username with
  | Some user =>
      if decide (User.CurrentConn user ≠ None) then
        match Clients h !! username with
        | Some oldClient =>
            closeSend oldClient ;;
            modify (set_Clients (delete username))
        | None => ret ()
        end
      else ret ()
  | None => ret ()
  end ;;
  modify (set_Clients (<[username := client]>)) ;;
  do h <- get;
  match Users h !! username with
  | Some user =>
      modify (set_Users (<[username :=
        User.mk (User.Username user) true (Some client) now]>))
  | None =>
      modify (set_Users (<[username := User.mk username true (Some client) now]>))
  end ;;
  broadcastStatus username true orderC ;;
  rangeMap Users orderU (λ uname user,
    if decide (uname ≠ username ∧ User.Online user = true)
    then sendToClient client "status" (PStatus (StatusEvent.mk uname true))
    else ret ()) ;;
  ret true.

Definition unregisterClient (client : ptr) (now : Time) (order : list string) : M unit :=
  do c <- deref client;
  let username := Client.Username c in
  do h <- get;
  if decide (Clients h !! username = Some client) then
    modify (set_Clients (delete username)) ;;
    match Users h !! username with
    | Some user =>
        modify (set_Users (<[username := User.mk (User.Username user) false None now]>))
    | None => ret ()
    end ;;
    match chan_tryRecv (Client.Send c) with
    | RecvTaken ch' => setSend client ch'
    | RecvWouldBlock => closeSend client
    end ;;
    broadcastStatus username false order
  else ret ().

(** [message.Status = "delivered"], for the message at index [i] of the log
    under [convKey]. *)
Definition markDelivered (convKey : string) (i : nat) : M unit :=
  modify (set_Conversations (alter (alter (λ m,
    Message.mk (Message.ID m) (Message.From m) (Message.To m) (Message.Content m)
               (Message.Timestamp m) "delivered") i) convKey)).

(** [handleInboundMessageWithSender]; [id] is the fresh UUID and [now] the
    clock reading. *)
Definition handleInboundMessageWithSender (from : string) (msg : InboundMessage.t)
    (id : string) (now : Time) : M unit :=
  let to := InboundMessage.To msg in
  let message := Message.mk id from to (InboundMessage.Content msg) now "sent" in
  let convKey := ConvKey from to in
  do h <- get;
  let log := default [] (Conversations h !! convKey) in
  modify (set_Conversations (<[convKey := log ++ [message]]>)) ;;
  let senderOutboundMsg :=
    OutboundMessage.mk (Message.ID message) (Message.From message) (Message.To message)
      (Message.Content message) (Message.Timestamp message) (Message.Status message) in
  let senderClient := Clients h !! from in
  let recipientClient := Clients h !! to in
  match senderClient with
  | Some sc => sendToClient sc "message" (PMessage senderOutboundMsg)
  | None => ret ()
  end ;;
  match recipientClient with
  | Some rc =>
      let recipientOutboundMsg :=
        OutboundMessage.mk (Message.ID message) (Message.From message) (Message.To message)
          (Message.Content message) (Message.Timestamp message) "delivered" in
      sendToClient rc "message" (PMessage recipientOutboundMsg) ;;
      markDelivered convKey (length log) ;;
      match senderClient with
      | Some sc => sendToClient sc "ack" (PAck (AckEvent.mk (Message.ID message) "delivered"))
      | None => ret ()
      end
  | None => ret ()
  end.

(** [TypingEventWrapper] *)
Module TypingEventWrapper.
Record t := mk {
  From : string;
  To : string;
  IsTyping : bool }.
End TypingEventWrapper.

Definition handleTypingEvent (event : TypingEventWrapper.t) : M unit :=
  do h <- get;
  match Clients h !! TypingEventWrapper.To event with
  | Some recipientClient =>
      let typingEvent :=
        TypingEvent.mk (TypingEventWrapper.From event) "" (TypingEventWrapper.IsTyping event) in
      sendToClient recipientClient "typing" (PTyping typingEvent)
  | None => ret ()
  end.

(** ** Queries *)

(** A comparison [less] that [sort.Slice] can be used with: a strict weak
    order. *)
Record StrictWeak {A} (less : A → A → bool) : Prop := {
  less_asym : ∀ a b, less a b = true → less b a = false;
  less_negtrans : ∀ a b c, less b a = false → less c b = false → less c a = false }.

(** [sort.Slice], with the comparison given on elements rather than on
    indices.  The library promises no more than its contract: the result is
    a rearrangement of the slice in which no element is [less] than an
    element before it; the sort is not stable.  The hub is parameterised by
    any sort with this contract. *)
Class SliceSorter := {
  sort_Slice : ∀ {A : Type}, (A → A → bool) → list A → list A;
  sort_Slice_perm : ∀ {A} (less : A → A → bool) (l : list A), sort_Slice less l ≡ₚ l;
  sort_Slice_sorted : ∀ {A} (less : A → A → bool) (l : list A),
    StrictWeak less → StronglySorted (λ a b, less b a = false) (sort_Slice less l) }.

(** [t.After(u)] *)
Definition After (t u : Time) : bool := Z.ltb u t.

(** The state of the loop of [GetConversations]: the slice built so far and
    the peers seen so far. *)
Definition convLoopState : Type := list Conversation.t * gmap string bool.

(** One iteration of the loop of [GetConversations], on the log [messages]. *)
Definition convLoopBody (h : Hub) (username : string) (st : convLoopState)
    (messages : list Message.t) : convLoopState :=
  let '(conversations, seenPeers) := st in
  match last messages with
  | None => st
  | Some lastMsg =>
      let visit (peer : string) : convLoopState :=
        if default false (seenPeers !! peer) then st
        else
          let peerOnline :=
            match Users h !! peer with
            | Some user => User.Online user
            | None => false
            end in
          (conversations ++
             [Conversation.mk peer (Message.Content lastMsg) (Message.Timestamp lastMsg)
                peerOnline 0],
           <[peer := true]> seenPeers) in
      if decide (Message.From lastMsg = username) then visit (Message.To lastMsg)
      else if decide (Message.To lastMsg = username) then visit (Message.From lastMsg)
      else st
  end.

Definition GetConversations `{SliceSorter} (h : Hub) (username : string)
    (order : list string) : list Conversation.t :=
  let st := foldl (λ st k, convLoopBody h username st (default [] (Conversations h !! k)))
                  ([], ∅) (rangeOrder order (Conversations h)) in
  sort_Slice (λ a b, After (Conversation.LastMessageTime a) (Conversation.LastMessageTime b))
             st.1.

(** A missing key yields the nil slice, which is the empty sequence. *)
Definition GetConversationMessages (h : Hub) (username1 username2 : string) : list Message.t :=
  let convKey := ConvKey username1 username2 in
  default [] (Conversations h !! convKey).

(** The bytes of a string all satisfy [P]. *)
Fixpoint string_forall (P : ascii → bool) (s : string) : bool :=
  match s with
  | EmptyString => true
  | String c s' => P c && string_forall P s'
  end.

(** The string has bytes of ASCII only: every byte is below
    [utf8.RuneSelf]. *)
Definition isASCII (s : string) : bool :=
  string_forall (λ c, bool_decide (Ascii.nat_of_ascii c < 128)%nat) s.

(** A letter A to Z is lowered and every other byte is kept. *)
Definition toLowerByte (c : ascii) : ascii :=
  let n := Ascii.nat_of_ascii c in
  if decide (65 ≤ n ∧ n ≤ 90)%nat then Ascii.ascii_of_nat (n + 32) else c.

(** The loop of [strings.ToLower] over a string of ASCII. *)
Fixpoint toLowerASCII (s : string) : string :=
  match s with
  | EmptyString => EmptyString
  | String c s' => String (toLowerByte c) (toLowerASCII s')
  end.

(** A string that has a byte outside ASCII is mapped by the library rune by
    rune with [unicode.ToLower], after decoding it as UTF-8: that part is a
    parameter. *)
Class UnicodeLower := {
  toLowerUnicode : string → string }.

(** [strings.ToLower] *)
Definition strings_ToLower `{UnicodeLower} (s : string) : string :=
  if isASCII s then toLowerASCII s else toLowerUnicode s.

Fixpoint strings_HasPrefix (s prefix : string) : bool :=
  match prefix, s with
  | EmptyString, _ => true
  | String _ _, EmptyString => false
  | String p prefix', String c s' =>
      if decide (c = p) then strings_HasPrefix s' prefix' else false
  end.

(** [strings.Contains]: [substr] occurs at some position of [s]. *)
Fixpoint strings_Contains (s substr : string) : bool :=
  strings_HasPrefix s substr ||
  match s with
  | EmptyString => false
  | String _ s' => strings_Contains s' substr
  end.

Definition contains `{UnicodeLower} (s substr : string) : bool :=
  if decide (String.length substr = 0)%nat then true
  else if decide (String.length s < String.length substr)%nat then false
  else
    let sLower := strings_ToLower s in
    let substrLower := strings_ToLower substr in
    strings_Contains sLower substrLower.

(** The zero [time.Time]. *)
Definition zeroTime : Time := 0.

Definition SearchUsers `{UnicodeLower} (h : Hub) (query excludeUsername : string)
    (order : list string) : list User.t :=
  let queryLower := query in
  foldl (λ results k,
    match Users h !! k with
    | None => results
    | Some user =>
        if decide (User.Username user = excludeUsername) then results
        else if bool_decide (String.length queryLower = 0)%nat || contains (User.Username user) queryLower
        then results ++ [User.mk (User.Username user) (User.Online user) None zeroTime]
        else results
    end) [] (rangeOrder order (Users h)).

(** ** The callers of the hub *)

(** [HandleWebSocket], after admission: a new client object for [username]
    with a queue of [sendQueueSize] frames, at the unused address [client],
    handed to [registerClient] by the event loop.  (An allocation never
    yields an address in use: there the model gives no result.) *)
Definition connect (client : ptr) (username : string) (now : Time)
    (orderC orderU : list string) : M bool :=
  do h <- get;
  match heap h !! client with
  | Some _ => panic
  | None =>
      modify (set_heap (<[client := Client.mk username (Chan.make sendQueueSize)]>)) ;;
      registerClient client now orderC orderU
  end.

(** [writePump] takes the oldest frame off the queue of [client]. *)
Definition writerReceive (client : ptr) : M unit :=
  do c <- deref client;
  match Chan.buf (Client.Send c) with
  | _ :: rest =>
      setSend client (Chan.mk rest (Chan.closed (Client.Send c)) (Chan.cap (Client.Send c)))
  | [] => ret ()
  end.

(** One step of the hub: a call of one of its operations that returns, or a
    writer pump taking a frame. *)
Inductive step (h h' : Hub) : Prop :=
  | step_connect client username now orderC orderU b :
      heap h !! client = None →
      connect client username now orderC orderU h = Ok b h' →
      step h h'
  | step_unregister client now order :
      unregisterClient client now order h = Ok () h' →
      step h h'
  | step_message from msg id now :
      handleInboundMessageWithSender from msg id now h = Ok () h' →
      step h h'
  | step_typing event :
      handleTypingEvent event h = Ok () h' →
      step h h'
  | step_writer client :
      writerReceive client h = Ok () h' →
      step h h'.

(** The states the hub can be in. *)
Definition reachable (h : Hub) : Prop := rtc step NewHub h.

(** * Vocabulary of the properties *)

(** ** The conversation key *)

(** The check [HandleLogin] makes before it admits an identity: between 1
    and 50 bytes, each a letter, a digit or an underscore. *)
Definition isUsernameByte (c : ascii) : bool :=
  let n := Ascii.nat_of_ascii c in
  bool_decide ((97 ≤ n ∧ n ≤ 122) ∨ (65 ≤ n ∧ n ≤ 90) ∨ (48 ≤ n ∧ n ≤ 57) ∨ n = 95)%nat.

Definition validUsername (username : string) : bool :=
  bool_decide (String.length username ≠ 0 ∧ String.length username ≤ 50)%nat &&
  string_forall isUsernameByte username.

Definition noBar (s : string) : bool :=
  string_forall (λ c, bool_decide (c ≠ "|"%char)) s.

(** Every stored message lies in the log of its own pair. *)
Definition logs_keyed (h : Hub) : Prop :=
  map_Forall (λ k log,
    Forall (λ m, ConvKey (Message.From m) (Message.To m) = k) log) (Conversations h).

(** Some stored message is between [a] and [b], in one direction or the
    other. *)
Definition messagesBetween (h : Hub) (a b : string) : Prop :=
  ∃ k log m, Conversations h !! k = Some log ∧ m ∈ log ∧
    ((Message.From m = a ∧ Message.To m = b) ∨ (Message.From m = b ∧ Message.To m = a)).

(** ** SearchUsers *)




(** What [contains] tests for a fragment that is not empty, whatever its
    bytes: [q] has no more bytes than [name] and occurs in it once both are
    lowered. *)
Definition loweredSubstring `{UnicodeLower} (q name : string) : Prop :=
  (String.length q ≤ String.length name)%nat ∧
  ∃ pre post, strings_ToLower name = pre +:+ strings_ToLower q +:+ post.

(** The identities of the user table are its keys. *)
Definition users_keyed (h : Hub) : Prop :=
  map_Forall (λ u user, User.Username user = u) (Users h).

(** What the loop of [SearchUsers] appends for the key [k]. *)
Definition searchHit `{UnicodeLower} (h : Hub) (query excludeUsername k : string)
    : list User.t :=
  match Users h !! k with
  | None => []
  | Some user =>
      if decide (User.Username user = excludeUsername) then []
      else if bool_decide (String.length query = 0)%nat || contains (User.Username user) query
      then [User.mk (User.Username user) (User.Online user) None zeroTime]
      else []
  end.

(** ** A sort with the contract of sort.Slice *)

Fixpoint insertBy {A} (less : A → A → bool) (x : A) (l : list A) : list A :=
  match l with
  | [] => [x]
  | y :: l' => if less x y then x :: y :: l' else y :: insertBy less x l'
  end.

Definition insertionSort {A} (less : A → A → bool) (l : list A) : list A :=
  foldr (insertBy less) [] l.

(** The insertion sort has the contract of [sort.Slice]. *)
Definition insertionSorter : SliceSorter.
Proof.
  refine {| sort_Slice := @insertionSort |}.
  - intros A less l.
    assert (Hins : ∀ x l', insertBy less x l' ≡ₚ x :: l').
    { intros x l'. induction l' as [|y l' IH]; simpl; [done|].
      destruct (less x y); [done|]. rewrite IH. apply Permutation_swap. }
    induction l as [|x l IH]; simpl; [done|]. by rewrite Hins, IH.
  - intros A less l [Hasym Hneg].
    assert (Hins : ∀ x l', insertBy less x l' ≡ₚ x :: l').
    { intros x l'. induction l' as [|y l' IH]; simpl; [done|].
      destruct (less x y); [done|]. rewrite IH. apply Permutation_swap. }
    induction l as [|x l IH]; simpl; [constructor|].
    induction IH as [|y l' Hl IH Hy]; simpl.
    + repeat constructor.
    + destruct (less x y) eqn:Hxy.
      * constructor; [by constructor|]. constructor; [by apply Hasym|].
        eapply Forall_impl; [exact Hy|]. intros z Hz. simpl in Hz.
        eapply Hneg; [|exact Hz]. by apply Hasym.
      * constructor; [done|]. rewrite (Hins x l'). by constructor.
Defined.

(** ** GetConversations *)

(** The peer of [username] in a message, when the message is from or to
    [username]. *)
Definition peerOf (username : string) (m : Message.t) : option string :=
  if decide (Message.From m = username) then Some (Message.To m)
  else if decide (Message.To m = username) then Some (Message.From m)
  else None.

(** The listing entry for [peer], made from the message [m]. *)
Definition entryOf (h : Hub) (peer : string) (m : Message.t) : Conversation.t :=
  Conversation.mk peer (Message.Content m) (Message.Timestamp m)
    (match Users h !! peer with Some user => User.Online user | None => false end) 0.

(** The last message of the log under [k] makes [peer] a peer of
    [username]. *)
Definition lastTouches (h : Hub) (username k peer : string) (m : Message.t) : Prop :=
  ∃ log, Conversations h !! k = Some log ∧ last log = Some m ∧ peerOf username m = Some peer.

(** The invariant of the loop of [GetConversations] after the keys [ks]. *)
Record convLoopInv (h : Hub) (username : string) (ks : list string)
    (st : convLoopState) : Prop := {
  inv_seen : ∀ p, default false (st.2 !! p) = true ↔ p ∈ Conversation.PeerUsername <$> st.1;
  inv_nodup : NoDup (Conversation.PeerUsername <$> st.1);
  inv_sound : ∀ e, e ∈ st.1 → ∃ k m, k ∈ ks ∧
    lastTouches h username k (Conversation.PeerUsername e) m ∧
    e = entryOf h (Conversation.PeerUsername e) m;
  inv_complete : ∀ k p m, k ∈ ks → lastTouches h username k p m →
    p ∈ Conversation.PeerUsername <$> st.1 }.

(** ** Sending to a client *)

(** The client object after one more frame is queued. *)
Definition enqueue (data : WSMessage.t) (c : Client.t) : Client.t :=
  Client.mk (Client.Username c)
    (Chan.mk (Chan.buf (Client.Send c) ++ [data]) (Chan.closed (Client.Send c))
             (Chan.cap (Client.Send c))).

(** The client object after its queue is closed. *)
Definition closeQueue (c : Client.t) : Client.t :=
  Client.mk (Client.Username c)
    (Chan.mk (Chan.buf (Client.Send c)) true (Chan.cap (Client.Send c))).

Definition isOpen (c : Client.t) : Prop := Chan.closed (Client.Send c) = false.

Definition isFull (c : Client.t) : Prop :=
  (Chan.cap (Client.Send c) ≤ length (Chan.buf (Client.Send c)))%nat.

(** The queue of [c] is open and takes [n] more frames. *)
Definition hasRoomFor (n : nat) (c : Client.t) : Prop :=
  isOpen c ∧ (length (Chan.buf (Client.Send c)) + n ≤ Chan.cap (Client.Send c))%nat.

(** The frames queued for the client at [client]. *)
Definition queueOf (h : Hub) (client : ptr) : list WSMessage.t :=
  match heap h !! client with
  | Some c => Chan.buf (Client.Send c)
  | None => []
  end.

(** The queue of the client at [client] is closed. *)
Definition queueClosed (h : Hub) (client : ptr) : Prop :=
  ∃ c, heap h !! client = Some c ∧ Chan.closed (Client.Send c) = true.

(** ** Well-formed hubs *)

(** The client registered for [u] is a client object of [u] with an open
    queue. *)
Definition registered_ok (h : Hub) (u : string) (client : ptr) : Prop :=
  match heap h !! client with
  | Some c => Client.Username c = u ∧ isOpen c
  | None => False
  end.

(** The presence record of [u] is online and points to the connection
    registered for [u]. *)
Definition presence_ok (h : Hub) (u : string) (client : ptr) : Prop :=
  match Users h !! u with
  | Some user => User.Online user = true ∧ User.CurrentConn user = Some client
  | None => False
  end.

(** The invariant of the hub's state. *)
Record hub_wf (h : Hub) : Prop := {
  wf_clients : map_Forall (registered_ok h) (Clients h);
  wf_presence : map_Forall (presence_ok h) (Clients h);
  wf_users : users_keyed h;
  wf_logs : logs_keyed h }.

#[global] Instance registered_ok_dec h u client : Decision (registered_ok h u client).
Proof. unfold registered_ok, isOpen. destruct (heap h !! client); apply _. Defined.
#[global] Instance presence_ok_dec h u client : Decision (presence_ok h u client).
Proof. unfold presence_ok. destruct (Users h !! u); apply _. Defined.
#[global] Instance users_keyed_dec h : Decision (users_keyed h).
Proof. unfold users_keyed. apply _. Defined.
#[global] Instance logs_keyed_dec h : Decision (logs_keyed h).
Proof. unfold logs_keyed. apply _. Defined.
#[global] Instance hub_wf_dec h : Decision (hub_wf h).
Proof.
  refine (cast_if (decide (map_Forall (registered_ok h) (Clients h) ∧
                           map_Forall (presence_ok h) (Clients h) ∧
                           users_keyed h ∧ logs_keyed h)));
    [abstract (by destruct a as (?&?&?&?)) | abstract (by intros [? ? ? ?]; apply n)].
Defined.

(** ** handleTypingEvent *)

(** The typing envelope sent for [event]. *)
Definition typingFrame (event : TypingEventWrapper.t) : WSMessage.t :=
  WSMessage.mk "typing"
    (PTyping (TypingEvent.mk (TypingEventWrapper.From event) ""
                (TypingEventWrapper.IsTyping event))).

(** ** Traces of calls *)

(** A call of the hub, or a writer pump taking a frame. *)
Inductive Call :=
  | CallConnect (client : ptr) (username : string) (now : Time) (orderC orderU : list string)
  | CallUnregister (client : ptr) (now : Time) (order : list string)
  | CallMessage (from : string) (msg : InboundMessage.t) (id : string) (now : Time)
  | CallTyping (event : TypingEventWrapper.t)
  | CallWriter (client : ptr).

Definition outcome {A} (r : Res A) : option Hub :=
  match r with
  | Ok _ h' => Some h'
  | Panic => None
  end.

Definition perform (call : Call) (h : Hub) : option Hub :=
  match call with
  | CallConnect client username now orderC orderU =>
      outcome (connect client username now orderC orderU h)
  | CallUnregister client now order => outcome (unregisterClient client now order h)
  | CallMessage from msg id now => outcome (handleInboundMessageWithSender from msg id now h)
  | CallTyping event => outcome (handleTypingEvent event h)
  | CallWriter client => outcome (writerReceive client h)
  end.

Fixpoint performAll (calls : list Call) (h : Hub) : option Hub :=
  match calls with
  | [] => Some h
  | call :: calls' =>
      match perform call h with
      | Some h' => performAll calls' h'
      | None => None
      end
  end.

(** ** handleInboundMessageWithSender *)

(** The message a routing call stores, with the given delivery state. *)
Definition storedMessage (from : string) (msg : InboundMessage.t) (id : string)
    (now : Time) (status : string) : Message.t :=
  Message.mk id from (InboundMessage.To msg) (InboundMessage.Content msg) now status.

(** The message envelope for [m] with the given status. *)
Definition messageFrame (m : Message.t) (status : string) : WSMessage.t :=
  WSMessage.mk "message"
    (PMessage (OutboundMessage.mk (Message.ID m) (Message.From m) (Message.To m)
                 (Message.Content m) (Message.Timestamp m) status)).

(** The acknowledgment envelope for the message [id]. *)
Definition ackFrame (id : string) : WSMessage.t :=
  WSMessage.mk "ack" (PAck (AckEvent.mk id "delivered")).

(** The frames a routing call sends to the client at [p], in order: the
    confirmation when [p] is the sender's connection, the message when [p]
    is the recipient's, the acknowledgment when [p] is the sender's and the
    recipient is registered. *)
Definition routeFrames (h : Hub) (from : string) (msg : InboundMessage.t) (id : string)
    (now : Time) (p : ptr) : list WSMessage.t :=
  let m := storedMessage from msg id now "sent" in
  (if decide (Clients h !! from = Some p) then [messageFrame m "sent"] else []) ++
  (if decide (Clients h !! InboundMessage.To msg = Some p)
   then [messageFrame m "delivered"] else []) ++
  (if decide (Clients h !! from = Some p ∧ is_Some (Clients h !! InboundMessage.To msg))
   then [ackFrame id] else []).

(** The number of frames a routing call from [from] to [to] sends to the
    client at [p]. *)
Definition routeDemand (h : Hub) (from to : string) (p : ptr) : nat :=
  ((if decide (Clients h !! from = Some p) then 1 else 0) +
   (if decide (Clients h !! to = Some p) then 1 else 0) +
   (if decide (Clients h !! from = Some p ∧ is_Some (Clients h !! to)) then 1 else 0))%nat.

(** No queue overflows in a routing call from [from] to [to]: the
    connections registered for the two have room for the frames the call
    sends them. *)
Definition routeFits (h : Hub) (from to : string) : Prop :=
  ∀ p, Clients h !! from = Some p ∨ Clients h !! to = Some p →
       ∃ c, heap h !! p = Some c ∧ hasRoomFor (routeDemand h from to p) c.

(** The client object after [frames] are queued. *)
Definition addFrames (frames : list WSMessage.t) (c : Client.t) : Client.t :=
  Client.mk (Client.Username c)
    (Chan.mk (Chan.buf (Client.Send c) ++ frames) (Chan.closed (Client.Send c))
             (Chan.cap (Client.Send c))).

(** The sends of a routing call, after the message is stored. *)
Definition routeSends (from : string) (msg : InboundMessage.t) (id : string) (now : Time)
    (senderClient recipientClient : option ptr) (index : nat) : M unit :=
  let m := storedMessage from msg id now "sent" in
  match senderClient with
  | Some sc => sendToClient sc "message" (WSMessage.Payload (messageFrame m "sent"))
  | None => ret ()
  end ;;
  match recipientClient with
  | Some rc =>
      sendToClient rc "message" (WSMessage.Payload (messageFrame m "delivered")) ;;
      markDelivered (ConvKey from (InboundMessage.To msg)) index ;;
      match senderClient with
      | Some sc => sendToClient sc "ack" (WSMessage.Payload (ackFrame id))
      | None => ret ()
      end
  | None => ret ()
  end.

(** ** The effect of a broadcast *)

(** The queue of [c] has a free slot. *)
Definition hasSpace (c : Client.t) : Prop :=
  (length (Chan.buf (Client.Send c)) < Chan.cap (Client.Send c))%nat.

(** What a delivery attempt makes of an open client object: the frame is
    queued when there is space, the queue is closed when there is none. *)
Definition deliver (data : WSMessage.t) (c : Client.t) : Client.t :=
  if decide (hasSpace c) then enqueue data c else closeQueue c.

(** The status envelope for [username]. *)
Definition statusFrame (username : string) (online : bool) : WSMessage.t :=
  WSMessage.mk "status" (PStatus (StatusEvent.mk username online)).

(** The invariant of the loop of [broadcastStatus] started in [h0], after
    the keys [seen]. *)
Record bcastInv (h0 : Hub) (username : string) (data : WSMessage.t)
    (seen : list string) (h1 : Hub) : Prop := {
  bc_wf : hub_wf h1;
  bc_users : Users h1 = Users h0;
  bc_logs : Conversations h1 = Conversations h0;
  bc_pending : ∀ u p, Clients h0 !! u = Some p → u ∉ seen ∨ u = username →
    Clients h1 !! u = Some p ∧ heap h1 !! p = heap h0 !! p;
  bc_done : ∀ u p c, Clients h0 !! u = Some p → heap h0 !! p = Some c →
    u ∈ seen → u ≠ username →
    heap h1 !! p = Some (deliver data c) ∧
    Clients h1 !! u = if decide (hasSpace c) then Some p else None;
  bc_absent : ∀ u, Clients h0 !! u = None → Clients h1 !! u = None;
  bc_others : ∀ p, (∀ u, Clients h0 !! u ≠ Some p) → heap h1 !! p = heap h0 !! p }.

(** ** unregisterClient *)

(** The client object after the [select] of [unregisterClient]: a pending
    frame is taken off an open or closed queue, an empty closed queue is
    left alone, an empty open queue is closed. *)
Definition afterSelect (c : Client.t) : Client.t :=
  match chan_tryRecv (Client.Send c) with
  | RecvTaken ch' => Client.mk (Client.Username c) ch'
  | RecvWouldBlock => closeQueue c
  end.

(** The state of [unregisterClient] before it broadcasts. *)
Definition unregisterPrefix (h : Hub) (client : ptr) (c : Client.t) (now : Time) : Hub :=
  let username := Client.Username c in
  let h1 := set_Clients (delete username) h in
  let h2 :=
    match Users h !! username with
    | Some user =>
        set_Users (<[username := User.mk (User.Username user) false None now]>) h1
    | None => h1
    end in
  set_heap (<[client := afterSelect c]>) h2.

(** ** registerClient *)

(** The loop of [registerClient] that tells the new client who is online. *)
Definition presenceSnapshot (client : ptr) (username : string) (orderU : list string) : M unit :=
  rangeMap Users orderU (λ uname user,
    if decide (uname ≠ username ∧ User.Online user = true)
    then sendToClient client "status" (PStatus (StatusEvent.mk uname true))
    else ret ()).

(** The loop of the presence snapshot over the keys [l]. *)
Definition snapshotLoop (client : ptr) (username : string) (l : list string) : M unit :=
  forEach l (λ k,
    do h' <- get;
    match Users h' !! k with
    | Some user =>
        if decide (k ≠ username ∧ User.Online user = true)
        then sendToClient client "status" (PStatus (StatusEvent.mk k true))
        else ret ()
    | None => ret ()
    end).

(** The state of [registerClient] before it broadcasts, in a well-formed
    hub: the connection registered for the name, if any, is closed and
    removed; the new one is installed; the presence record is online. *)
Definition registerPrefix (h : Hub) (client : ptr) (c : Client.t) (now : Time) : Hub :=
  let username := Client.Username c in
  let h1 :=
    match Clients h !! username with
    | Some oldClient =>
        match heap h !! oldClient with
        | Some co =>
            set_Clients (delete username) (set_heap (<[oldClient := closeQueue co]>) h)
        | None => h
        end
    | None => h
    end in
  let h2 := set_Clients (<[username := client]>) h1 in
  set_Users (<[username :=
    User.mk (match Users h !! username with
             | Some user => User.Username user
             | None => username
             end) true (Some client) now]>) h2.

(** [k] is an identity other than [username] whose presence is online. *)
Definition isOnlineOther (h : Hub) (username k : string) : Prop :=
  k ≠ username ∧ User.Online <$> Users h !! k = Some true.

#[global] Instance isOnlineOther_dec h username k : Decision (isOnlineOther h username k).
Proof. unfold isOnlineOther. apply _. Defined.

(** The number of identities other than [username] that are online. *)
Definition onlineOthers (h : Hub) (username : string) : nat :=
  length (filter (isOnlineOther h username) (map_to_list (Users h)).*1).

(** The frames of the presence snapshot for the keys [ks]. *)
Definition snapshotFrames (h : Hub) (username : string) (ks : list string) : list WSMessage.t :=
  (λ k, statusFrame k true) <$> filter (isOnlineOther h username) ks.

(** ** Concrete hubs *)

Definition typingAliceBob : TypingEventWrapper.t := TypingEventWrapper.mk "alice" "bob" true.

(** alice connects, then bob. *)
Definition aliceBobCalls : list Call :=
  [CallConnect 1 "alice" 10 [] []; CallConnect 2 "bob" 20 [] []].

Definition hubAliceBob : Hub := default NewHub (performAll aliceBobCalls NewHub).

(** alice and bob connect and alice types until the queue of bob, which no
    writer empties, is full. *)
Definition bobFullCalls : list Call :=
  aliceBobCalls ++ replicate 255 (CallTyping typingAliceBob).

Definition hubBobFull : Hub := default NewHub (performAll bobFullCalls NewHub).


Definition typingBobAlice : TypingEventWrapper.t := TypingEventWrapper.mk "bob" "alice" true.

Definition hiBob : InboundMessage.t := InboundMessage.mk "bob" "hi" "".

(** alice and bob connect and their writers send what is queued. *)
Definition hubDrained : Hub :=
  default NewHub (performAll (aliceBobCalls ++ [CallWriter 1; CallWriter 2]) NewHub).

(** alice and bob connect and bob types until the queue of alice, which no
    writer empties, overflows: the connection of alice is removed from the
    client table while her reader is still running. *)
Definition aliceEvictedCalls : list Call :=
  aliceBobCalls ++ replicate 256 (CallTyping typingBobAlice).

Definition hubAliceEvicted : Hub := default NewHub (performAll aliceEvictedCalls NewHub).

(** alice and bob are connected and a second connection, at address 3, has
    been made for alice. *)
Definition hubSecondAlice : Hub :=
  set_heap (<[3%nat := Client.mk "alice" (Chan.make sendQueueSize)]>) hubAliceBob.

Definition bobFullClient : Client.t :=
  default (Client.mk "" (Chan.make 0)) (heap hubBobFull !! 2%nat).

Definition newAliceClient : Client.t := Client.mk "alice" (Chan.make sendQueueSize).

Definition bobClient : Client.t :=
  Client.mk "bob" (Chan.mk [statusFrame "alice" true] false sendQueueSize).

(** alice and bob connect and alice disconnects. *)
Definition hubAliceLeft : Hub :=
  default NewHub (performAll (aliceBobCalls ++ [CallUnregister 1 30 []]) NewHub).

(** alice and bob connect; alice writes to bob and then to carol, who has
    never connected. *)
Definition hubTwoChats : Hub :=
  default NewHub (performAll
    (aliceBobCalls ++
     [CallMessage "alice" hiBob "m1" 30;
      CallMessage "alice" (InboundMessage.mk "carol" "yo" "") "m2" 40]) NewHub).


(** What the library makes of a string whose bytes outside ASCII are those
    of Kelvin signs: every Kelvin sign becomes the letter k and the letters
    A to Z are lowered.  The concrete cases have no other strings. *)
Fixpoint lowerKelvin (s : string) : string :=
  match s with
  | EmptyString => EmptyString
  | String a t =>
      match t with
      | String b (String c s') =>
          if decide (a = Ascii.ascii_of_nat 226 ∧ b = Ascii.ascii_of_nat 132 ∧
                     c = Ascii.ascii_of_nat 170)
          then String "k"%char (lowerKelvin s')
          else String (toLowerByte a) (lowerKelvin t)
      | _ => String (toLowerByte a) (lowerKelvin t)
      end
  end.

Definition kelvinLower : UnicodeLower := {| toLowerUnicode := lowerKelvin |}.


(** ** Bounded queues *)

(** The queue of a client object has the capacity [HandleWebSocket] gives
    it and holds no more frames than that. *)
Definition queue_bounded (c : Client.t) : Prop :=
  Chan.cap (Client.Send c) = sendQueueSize ∧
  (length (Chan.buf (Client.Send c)) ≤ sendQueueSize)%nat.

(** Every client object satisfies [P]. *)
Definition heap_Forall (P : Client.t → Prop) (h : Hub) : Prop :=
  map_Forall (λ _ c, P c) (heap h).

(** The client object after its oldest frame is taken. *)
Definition dequeue (c : Client.t) : Client.t :=
  Client.mk (Client.Username c)
    (Chan.mk (tail (Chan.buf (Client.Send c))) (Chan.closed (Client.Send c))
             (Chan.cap (Client.Send c))).

(** ** More concrete hubs *)

(** alice and bob connect and alice writes to bob. *)
Definition hubOneChat : Hub :=
  default NewHub (performAll (aliceBobCalls ++ [CallMessage "alice" hiBob "m1" 30]) NewHub).

Definition yoCarol : InboundMessage.t := InboundMessage.mk "carol" "yo" "".

(** ** Stored messages *)

(** The deliveryState of a stored message is one of the two the hub
    writes. *)
Definition statusKnown (m : Message.t) : Prop :=
  Message.Status m = "sent" ∨ Message.Status m = "delivered".

(** No stored log is empty and every stored message has a known
    deliveryState. *)
Definition logs_sound (h : Hub) : Prop :=
  map_Forall (λ _ log, log ≠ [] ∧ Forall statusKnown log) (Conversations h).

(** ** Presence records *)

(** A presence record is online exactly when it holds a connection, and the
    connection it holds is a client object of its identity. *)
Definition presence_sound (h : Hub) : Prop :=
  map_Forall (λ u user,
    (User.Online user = true ↔ User.CurrentConn user ≠ None) ∧
    ∀ p, User.CurrentConn user = Some p →
      ∃ c, heap h !! p = Some c ∧ Client.Username c = u) (Users h).

(** * The HTTP layer (http.go) *)

(** ** Sessions *)

Module Session.
Record t := mk {
  Username : string;
  ExpiresAt : Time }.
End Session.

(** [time.Hour].  A [time.Duration] counts nanoseconds, and so do the
    instants where a duration is added to one. *)
Definition Hour : Z := 3600000000000.

(** [fmt.Sprintf("%d", n)]: the decimal digits of [n], after a minus sign
    when [n] is negative. *)
Definition Sprintf_d (n : Z) : string :=
  DecimalString.NilZero.string_of_int (Z.to_int n).

(** [generateSessionID]; [unixNano] and [unix] are the readings
    [time.Now().UnixNano()] and [time.Now().Unix()] of its two looks at the
    clock. *)
Definition generateSessionID (unixNano unix : Z) : string :=
  Sprintf_d unixNano +:+ "-" +:+ Sprintf_d unix.

(** [SessionStore.CreateSession]: the new id and the store. *)
Definition CreateSession (username : string) (unixNano unix : Z) (now : Time)
    (s : gmap string Session.t) : string * gmap string Session.t :=
  let sessionID := generateSessionID unixNano unix in
  (sessionID, <[sessionID := Session.mk username (now + 24 * Hour)]> s).

(** [SessionStore.GetSession]: the session found, if any, and the store,
    from which a session found expired is deleted. *)
Definition GetSession (sessionID : string) (now : Time) (s : gmap string Session.t)
    : option Session.t * gmap string Session.t :=
  match s !! sessionID with
  | None => (None, s)
  | Some session =>
      if After now (Session.ExpiresAt session) then (None, delete sessionID s)
      else (Some session, s)
  end.

Definition DeleteSession (sessionID : string) (s : gmap string Session.t)
    : gmap string Session.t :=
  delete sessionID s.

(** [SessionStore.DeleteSessionByUsername]; [order] is the order of its
    loop.  An entry deleted by an earlier iteration is not visited. *)
Definition DeleteSessionByUsername (username : string) (order : list string)
    (s : gmap string Session.t) : gmap string Session.t :=
  foldl (λ s' id,
    match s' !! id with
    | Some session =>
        if decide (Session.Username session = username) then delete id s' else s'
    | None => s'
    end) s (rangeOrder order s).

(** ** Requests and responses *)

(** What the handlers read of a request: the method, the value of the
    cookie session_id when the request has one, the path, the parameter
    search of the query, and the body as [encoding/json] decodes it into a
    [LoginRequest]: its Username, or nothing when the decoding fails. *)
Module Request.
Record t := mk {
  Method : string;
  SessionCookie : option string;
  Path : string;
  Search : string;
  Login : option string }.
End Request.

Inductive SameSite :=
  | SameSiteUnset
  | SameSiteStrictMode.

Module Cookie.
Record t := mk {
  Name : string;
  Value : string;
  Path : string;
  HttpOnly : bool;
  Secure : bool;
  SameSite : SameSite;
  MaxAge : Z }.
End Cookie.

(** The body of a response: the text of [http.Error], or the value handed
    to the JSON encoder. *)
Inductive ResponseBody :=
  | BodyEmpty
  | BodyText (message : string)
  | BodyLogin (username : string) (online : bool)
  | BodyUsers (users : list (string * bool))
  | BodyConversations (conversations : list Conversation.t)
  | BodyMessages (messages : list Message.t).

Module Response.
Record t := mk {
  Status : nat;
  SetCookie : option Cookie.t;
  Body : ResponseBody }.
End Response.

(** [http.Error(w, message, code)] *)
Definition http_Error (message : string) (code : nat) : Response.t :=
  Response.mk code None (BodyText message).

(** A JSON body written without [WriteHeader]: status 200. *)
Definition jsonResponse (body : ResponseBody) : Response.t :=
  Response.mk 200 None body.

(** The hub and the session store of the server. *)
Record Server := mkServer {
  theHub : Hub;
  sessions : gmap string Session.t }.

Definition getSessionIDFromRequest (r : Request.t) : string :=
  default "" (Request.SessionCookie r).

(** ** strings.TrimSpace and strings.TrimPrefix *)

(** The white space of ASCII: tab, line feed, vertical tab, form feed,
    carriage return, space. *)
Definition isAsciiSpace (c : ascii) : bool :=
  let n := Ascii.nat_of_ascii c in
  bool_decide ((9 ≤ n ∧ n ≤ 13) ∨ n = 32)%nat.

Fixpoint trimLeftSpace (s : string) : string :=
  match s with
  | EmptyString => EmptyString
  | String c s' => if isAsciiSpace c then trimLeftSpace s' else s
  end.

Fixpoint trimRightSpace (s : string) : string :=
  match s with
  | EmptyString => EmptyString
  | String c s' =>
      match trimRightSpace s' with
      | EmptyString => if isAsciiSpace c then EmptyString else String c EmptyString
      | t => String c t
      end
  end.

(** The library trims a string that has bytes outside ASCII of the white
    space Unicode defines, decoding it as UTF-8: that part is a parameter. *)
Class UnicodeTrim := {
  trimSpaceUnicode : string → string }.

(** [strings.TrimSpace] *)
Definition strings_TrimSpace `{UnicodeTrim} (s : string) : string :=
  if isASCII s then trimRightSpace (trimLeftSpace s) else trimSpaceUnicode s.

Fixpoint dropBytes (n : nat) (s : string) : string :=
  match n, s with
  | S n', String _ s' => dropBytes n' s'
  | _, _ => s
  end.

(** [strings.TrimPrefix] *)
Definition strings_TrimPrefix (s prefix : string) : string :=
  if strings_HasPrefix s prefix then dropBytes (String.length prefix) s else s.

(** ** The handlers *)

(** The identity has a presence record with a connection: the check of
    [HandleLogin] and of [HandleWebSocket]. *)
Definition hasActiveConn (h : Hub) (username : string) : bool :=
  match Users h !! username with
  | Some user => bool_decide (User.CurrentConn user ≠ None)
  | None => false
  end.

(** [HandleLogin]; [unixNano], [unix] and [now] are the looks at the clock
    of [CreateSession].  The loop over the runes of the name is a loop over
    its bytes: a rune outside ASCII fails the test, and so does each of its
    bytes. *)
Definition HandleLogin `{UnicodeTrim} (r : Request.t) (unixNano unix : Z) (now : Time)
    (sv : Server) : Response.t * Server :=
  if decide (Request.Method r ≠ "POST") then
    (http_Error "Method not allowed" 405, sv)
  else
    match Request.Login r with
    | None => (http_Error "Invalid request body" 400, sv)
    | Some name =>
        let username := strings_TrimSpace name in
        if decide (String.length username = 0 ∨ 50 < String.length username)%nat then
          (http_Error "Username must be between 1 and 50 characters" 400, sv)
        else if negb (string_forall isUsernameByte username) then
          (http_Error "Username can only contain letters, numbers, and underscores" 400, sv)
        else if hasActiveConn (theHub sv) username then
          (http_Error "User already logged in from another device" 409, sv)
        else
          let '(sessionID, sessions') :=
            CreateSession username unixNano unix now (sessions sv) in
          let cookie :=
            Cookie.mk "session_id" sessionID "/" true false SameSiteStrictMode 86400 in
          (Response.mk 200 (Some cookie) (BodyLogin username false),
           mkServer (theHub sv) sessions')
    end.

(** The start of every handler but [HandleLogin]: the session of the
    request, or the response that refuses it; with the session store after
    the lookup. *)
Definition authenticate (r : Request.t) (now : Time) (sv : Server)
    : (Response.t + Session.t) * Server :=
  let sessionID := getSessionIDFromRequest r in
  if decide (sessionID = "") then (inl (http_Error "Not authenticated" 401), sv)
  else
    match GetSession sessionID now (sessions sv) with
    | (None, sessions') =>
        (inl (http_Error "Invalid session" 401), mkServer (theHub sv) sessions')
    | (Some session, sessions') => (inr session, mkServer (theHub sv) sessions')
    end.

(** [HandleLogout].  The handler hands the connection to the event loop,
    which runs [unregisterClient] on it: [nowU] and [order] are the clock
    and the loop order of that call.  A panic of the call is no result. *)
Definition HandleLogout (r : Request.t) (now nowU : Time) (order : list string)
    (sv : Server) : option (Response.t * Server) :=
  if decide (Request.Method r ≠ "POST") then
    Some (http_Error "Method not allowed" 405, sv)
  else
    match authenticate r now sv with
    | (inl refusal, sv') => Some (refusal, sv')
    | (inr session, sv') =>
        let unregistered :=
          match Clients (theHub sv') !! Session.Username session with
          | Some client => outcome (unregisterClient client nowU order (theHub sv'))
          | None => Some (theHub sv')
          end in
        match unregistered with
        | None => None
        | Some h' =>
            let cookie := Cookie.mk "session_id" "" "/" true false SameSiteUnset (-1) in
            Some (Response.mk 200 (Some cookie) BodyEmpty,
                  mkServer h' (DeleteSession (getSessionIDFromRequest r) (sessions sv')))
        end
    end.

Definition HandleMe (r : Request.t) (now : Time) (sv : Server) : Response.t * Server :=
  if decide (Request.Method r ≠ "GET") then
    (http_Error "Method not allowed" 405, sv)
  else
    match authenticate r now sv with
    | (inl refusal, sv') => (refusal, sv')
    | (inr session, sv') =>
        let online :=
          match Users (theHub sv') !! Session.Username session with
          | Some user => User.Online user
          | None => false
          end in
        (jsonResponse (BodyLogin (Session.Username session) online), sv')
    end.

(** [HandleSearchUsers]; [order] is the order of the loop of
    [SearchUsers]. *)
Definition HandleSearchUsers `{UnicodeLower} (r : Request.t) (now : Time)
    (order : list string) (sv : Server) : Response.t * Server :=
  if decide (Request.Method r ≠ "GET") then
    (http_Error "Method not allowed" 405, sv)
  else
    match authenticate r now sv with
    | (inl refusal, sv') => (refusal, sv')
    | (inr session, sv') =>
        let query := Request.Search r in
        let users := SearchUsers (theHub sv') query (Session.Username session) order in
        let userResponses := (λ user, (User.Username user, User.Online user)) <$> users in
        (jsonResponse (BodyUsers userResponses), sv')
    end.

Definition HandleGetConversations `{SliceSorter} (r : Request.t) (now : Time)
    (order : list string) (sv : Server) : Response.t * Server :=
  if decide (Request.Method r ≠ "GET") then
    (http_Error "Method not allowed" 405, sv)
  else
    match authenticate r now sv with
    | (inl refusal, sv') => (refusal, sv')
    | (inr session, sv') =>
        let conversations := GetConversations (theHub sv') (Session.Username session) order in
        (jsonResponse (BodyConversations conversations), sv')
    end.

Definition HandleGetConversation `{UnicodeTrim} (r : Request.t) (now : Time) (sv : Server)
    : Response.t * Server :=
  if decide (Request.Method r ≠ "GET") then
    (http_Error "Method not allowed" 405, sv)
  else
    match authenticate r now sv with
    | (inl refusal, sv') => (refusal, sv')
    | (inr session, sv') =>
        let path := strings_TrimPrefix (Request.Path r) "/api/conversations/" in
        let peerUsername := strings_TrimSpace path in
        if decide (peerUsername = "") then (http_Error "Peer username required" 400, sv')
        else
          let messages :=
            GetConversationMessages (theHub sv') (Session.Username session) peerUsername in
          (jsonResponse (BodyMessages messages), sv')
    end.

(** What [upgrader.Upgrade] does: it switches protocols, or it answers the
    request with an error status itself. *)
Inductive Upgrade :=
  | Upgraded
  | UpgradeRefused (code : nat).

(** [HandleWebSocket].  [hubReady] tells whether the event loop takes the
    new client from the unbuffered channel Register at once; if so the loop
    runs [registerClient] on it, here at the unused address [client], with
    the clock [nowR] and the loop orders [orderC] and [orderU]; if not the
    connection is closed.  A panic of the registration is no result. *)
Definition HandleWebSocket (r : Request.t) (now : Time) (upgrade : Upgrade)
    (hubReady : bool) (client : ptr) (nowR : Time) (orderC orderU : list string)
    (sv : Server) : option (Response.t * Server) :=
  match authenticate r now sv with
  | (inl refusal, sv') => Some (refusal, sv')
  | (inr session, sv') =>
      let username := Session.Username session in
      if hasActiveConn (theHub sv') username then
        Some (http_Error "User already has an active connection" 409, sv')
      else
        match upgrade with
        | UpgradeRefused code => Some (Response.mk code None BodyEmpty, sv')
        | Upgraded =>
            let switching := Response.mk 101 None BodyEmpty in
            if hubReady then
              match connect client username nowR orderC orderU (theHub sv') with
              | Ok _ h' => Some (switching, mkServer h' (sessions sv'))
              | Panic => None
              end
            else Some (switching, sv')
        end
  end.

(** ** Session ids *)

Definition noDash (s : string) : bool :=
  string_forall (λ c, bool_decide (c ≠ "-"%char)) s.

(** ** Vocabulary of the handlers *)

(** The request carries the id of [session], which is in the store and has
    not expired at [now]. *)
Definition validSession (r : Request.t) (now : Time) (sv : Server) (session : Session.t)
    : Prop :=
  ∃ id, Request.SessionCookie r = Some id ∧ id ≠ "" ∧
        sessions sv !! id = Some session ∧ (now ≤ Session.ExpiresAt session)%Z.

(** The response refuses the request: an error status among [codes], a
    text body, no cookie. *)
Definition refusedWith (codes : list nat) (resp : Response.t) : Prop :=
  Response.Status resp ∈ codes ∧ Response.SetCookie resp = None ∧
  ∃ message, Response.Body resp = BodyText message.

(** ** The server as a whole *)

(** One step of the server: a request answered by a handler; a call of the
    hub made by the reader of a connection, which acts under the name of
    the connection, or by the event loop; a writer pump taking a frame.
    A connection is made by [HandleWebSocket] alone.  The handlers that
    read the tables ([HandleMe], [HandleSearchUsers],
    [HandleGetConversations], [HandleGetConversation]) change the state by
    their session lookup alone.  A handler runs as one step: no other call
    comes between its look at the presence record and the registration, or
    between its look at the client table and the unregister call, that it
    asks the event loop for. *)
Inductive serverStep `{UnicodeTrim} (sv sv' : Server) : Prop :=
  | server_login r unixNano unix now resp :
      HandleLogin r unixNano unix now sv = (resp, sv') →
      serverStep sv sv'
  | server_logout r now nowU order resp :
      HandleLogout r now nowU order sv = Some (resp, sv') →
      serverStep sv sv'
  | server_websocket r now upgrade hubReady client nowR orderC orderU resp :
      heap (theHub sv) !! client = None →
      HandleWebSocket r now upgrade hubReady client nowR orderC orderU sv = Some (resp, sv') →
      serverStep sv sv'
  | server_lookup r now found :
      authenticate r now sv = (found, sv') →
      serverStep sv sv'
  | server_message client c msg id now h' :
      heap (theHub sv) !! client = Some c →
      handleInboundMessageWithSender (Client.Username c) msg id now (theHub sv) = Ok () h' →
      sv' = mkServer h' (sessions sv) →
      serverStep sv sv'
  | server_typing client c to isTyping h' :
      heap (theHub sv) !! client = Some c →
      handleTypingEvent (TypingEventWrapper.mk (Client.Username c) to isTyping) (theHub sv)
      = Ok () h' →
      sv' = mkServer h' (sessions sv) →
      serverStep sv sv'
  | server_unregister client now order h' :
      unregisterClient client now order (theHub sv) = Ok () h' →
      sv' = mkServer h' (sessions sv) →
      serverStep sv sv'
  | server_writer client h' :
      writerReceive client (theHub sv) = Ok () h' →
      sv' = mkServer h' (sessions sv) →
      serverStep sv sv'.

(** The server at its start. *)
Definition NewServer : Server := mkServer NewHub ∅.

(** The states the server can be in. *)
Definition serverReachable `{UnicodeTrim} (sv : Server) : Prop :=
  rtc serverStep NewServer sv.

(** Every name in the state is one the login admits: the names of the
    sessions, of the client objects and of the presence records, and the
    senders of the stored messages. *)
Record names_valid (sv : Server) : Prop := {
  valid_sessions :
    map_Forall (λ _ session, validUsername (Session.Username session) = true) (sessions sv);
  valid_clients :
    heap_Forall (λ c, validUsername (Client.Username c) = true) (theHub sv);
  valid_users :
    map_Forall (λ u _, validUsername u = true) (Users (theHub sv));
  valid_senders :
    map_Forall (λ _ log, Forall (λ m, validUsername (Message.From m) = true) log)
      (Conversations (theHub sv)) }.

(** The identity has no registered connection, and yet its presence record
    holds one: what an overflow of its queue leaves. *)
Definition lockedOut (h : Hub) (u : string) : Prop :=
  Clients h !! u = None ∧ hasActiveConn h u = true.

(** What a step of the server does to the hub: nothing, or one call of the
    hub.  A connection is made for the name of a session in the store,
    when the name has no connection in its presence record. *)
Inductive hubEffect (sv : Server) (h' : Hub) : Prop :=
  | effect_none :
      h' = theHub sv → hubEffect sv h'
  | effect_connect client username now orderC orderU b :
      heap (theHub sv) !! client = None →
      (∃ id session, sessions sv !! id = Some session ∧
                     Session.Username session = username) →
      hasActiveConn (theHub sv) username = false →
      connect client username now orderC orderU (theHub sv) = Ok b h' →
      hubEffect sv h'
  | effect_unregister client now order :
      unregisterClient client now order (theHub sv) = Ok () h' →
      hubEffect sv h'
  | effect_message client c msg id now :
      heap (theHub sv) !! client = Some c →
      handleInboundMessageWithSender (Client.Username c) msg id now (theHub sv) = Ok () h' →
      hubEffect sv h'
  | effect_typing event :
      handleTypingEvent event (theHub sv) = Ok () h' →
      hubEffect sv h'
  | effect_writer client :
      writerReceive client (theHub sv) = Ok () h' →
      hubEffect sv h'.

(** * The pumps of a connection (client.go) *)

(** ** The writer pump *)

(** What the pump writes to the socket: a text frame with a queued
    envelope ([None]: with the zero value that a receive from a closed and
    empty queue yields), the close frame, a ping. *)
Inductive SocketFrame :=
  | TextMessage (data : option WSMessage.t)
  | CloseMessage
  | PingMessage.

(** The socket, as the pump sees it: the frames written, oldest first; how
    many writes succeed before the first that fails ([None]: no write
    fails); whether the pump has closed it. *)
Module Conn.
Record t := mk {
  written : list SocketFrame;
  budget : option nat;
  closed : bool }.
End Conn.

(** [c.Conn.WriteMessage]: the socket with the frame written, or an error
    ([None]). *)
Definition Conn_WriteMessage (frame : SocketFrame) (conn : Conn.t) : option Conn.t :=
  match Conn.budget conn with
  | Some 0%nat => None
  | Some (S n) => Some (Conn.mk (Conn.written conn ++ [frame]) (Some n) (Conn.closed conn))
  | None => Some (Conn.mk (Conn.written conn ++ [frame]) None (Conn.closed conn))
  end.

(** [c.Conn.Close()] *)
Definition Conn_Close (conn : Conn.t) : Conn.t :=
  Conn.mk (Conn.written conn) (Conn.budget conn) true.

(** What a receive [v, ok := <-ch] finds: a queued frame, in an open or a
    closed channel; the zero value of a closed and empty channel, with ok
    false; or nothing yet, and the receive waits. *)
Inductive Received :=
  | RecvValue (data : WSMessage.t) (ch' : Chan.t)
  | RecvClosed
  | RecvNothing.

Definition chan_recv (ch : Chan.t) : Received :=
  match Chan.buf ch with
  | data :: rest => RecvValue data (Chan.mk rest (Chan.closed ch) (Chan.cap ch))
  | [] => if Chan.closed ch then RecvClosed else RecvNothing
  end.

(** Where a turn of the pump ends: at the head of its loop again; waiting
    in its inner loop for a frame, with so many receives to go; or at its
    return, after which the deferred call has closed the socket. *)
Inductive PumpStatus :=
  | PumpRuns
  | PumpWaits (remaining : nat)
  | PumpReturned.

(** The inner loop of [writePump]: [n] queued frames are received and
    written. *)
Fixpoint writeQueued (client : ptr) (n : nat) (conn : Conn.t) : M (PumpStatus * Conn.t) :=
  match n with
  | 0%nat => ret (PumpRuns, conn)
  | S n' =>
      do c <- deref client;
      match chan_recv (Client.Send c) with
      | RecvValue queuedMsg ch' =>
          setSend client ch' ;;
          match Conn_WriteMessage (TextMessage (Some queuedMsg)) conn with
          | Some conn' => writeQueued client n' conn'
          | None => ret (PumpReturned, Conn_Close conn)
          end
      | RecvClosed =>
          match Conn_WriteMessage (TextMessage None) conn with
          | Some conn' => writeQueued client n' conn'
          | None => ret (PumpReturned, Conn_Close conn)
          end
      | RecvNothing => ret (PumpWaits (S n'), conn)
      end
  end.

(** One turn of the loop of [writePump] in which the case of the queue is
    taken.  With nothing to receive the select waits and the turn does
    nothing. *)
Definition writePumpSend (client : ptr) (conn : Conn.t) : M (PumpStatus * Conn.t) :=
  do c <- deref client;
  match chan_recv (Client.Send c) with
  | RecvNothing => ret (PumpRuns, conn)
  | RecvClosed =>
      let conn' := default conn (Conn_WriteMessage CloseMessage conn) in
      ret (PumpReturned, Conn_Close conn')
  | RecvValue message ch' =>
      setSend client ch' ;;
      match Conn_WriteMessage (TextMessage (Some message)) conn with
      | None => ret (PumpReturned, Conn_Close conn)
      | Some conn1 =>
          do c1 <- deref client;
          let n := length (Chan.buf (Client.Send c1)) in
          writeQueued client n conn1
      end
  end.

(** One turn in which the case of the ticker is taken. *)
Definition writePumpTick (conn : Conn.t) : PumpStatus * Conn.t :=
  match Conn_WriteMessage PingMessage conn with
  | Some conn' => (PumpRuns, conn')
  | None => (PumpReturned, Conn_Close conn)
  end.

(** [writePump], for as many turns as [fuel], when the ticker does not
    fire and no other call comes between the turns. *)
Fixpoint writePump (fuel : nat) (client : ptr) (conn : Conn.t) : M (PumpStatus * Conn.t) :=
  match fuel with
  | 0%nat => ret (PumpRuns, conn)
  | S fuel' =>
      do turn <- writePumpSend client conn;
      match turn.1 with
      | PumpRuns => writePump fuel' client turn.2
      | _ => ret turn
      end
  end.

(** The socket after [frames] are written, when no write fails. *)
Definition afterWrites (frames : list SocketFrame) (conn : Conn.t) : Conn.t :=
  Conn.mk (Conn.written conn ++ frames)
    (match Conn.budget conn with
     | Some k => Some (k - length frames)%nat
     | None => None
     end)
    (Conn.closed conn).

(** The next [n] writes to the socket succeed. *)
Definition canWrite (n : nat) (conn : Conn.t) : Prop :=
  match Conn.budget conn with
  | Some k => (n ≤ k)%nat
  | None => True
  end.

(** The client object with the queue [q]. *)
Definition withQueue (q : list WSMessage.t) (c : Client.t) : Client.t :=
  Client.mk (Client.Username c)
    (Chan.mk q (Chan.closed (Client.Send c)) (Chan.cap (Client.Send c))).

(** The text frames of the envelopes [q]. *)
Definition textFrames (q : list WSMessage.t) : list SocketFrame :=
  (λ d, TextMessage (Some d)) <$> q.

(** ** The reader pump *)

(** What [readPump] makes of a frame read from the socket, once
    [encoding/json] has decoded it: no envelope at all; an envelope of type
    message or typing, with its payload decoded into an [InboundMessage] or
    a [TypingEvent] ([None]: the payload does not decode); an envelope of
    another type. *)
Inductive Inbound :=
  | InvalidEnvelope
  | MessageEnvelope (payload : option InboundMessage.t)
  | TypingEnvelope (payload : option TypingEvent.t)
  | OtherEnvelope (type : string).

(** A frame read, with the UUID and the clock of the routing call it may
    lead to. *)
Module Read.
Record t := mk {
  frame : Inbound;
  uuid : string;
  clock : Time }.
End Read.

(** One turn of the loop of [readPump], for the connection of
    [username]. *)
Definition readPumpTurn (username : string) (rd : Read.t) : M unit :=
  match Read.frame rd with
  | MessageEnvelope (Some inboundMsg) =>
      handleInboundMessageWithSender username inboundMsg (Read.uuid rd) (Read.clock rd)
  | TypingEnvelope (Some typingEvent) =>
      handleTypingEvent
        (TypingEventWrapper.mk username (TypingEvent.To typingEvent)
           (TypingEvent.IsTyping typingEvent))
  | _ => ret ()
  end.

(** [readPump], for the frames [reads] read before the read that fails,
    when the event loop handles what the pump hands to it at once and no
    other call comes in between; [nowU] and [order] are the clock and the
    loop order of the unregister call that the pump asks for when it
    returns. *)
Definition readPump (client : ptr) (reads : list Read.t) (nowU : Time)
    (order : list string) : M unit :=
  do c <- deref client;
  forEach reads (readPumpTurn (Client.Username c)) ;;
  unregisterClient client nowU order.

(** Every client object of [h] is in [h'], at its address and under its
    name. *)
Definition keepsClients (h h' : Hub) : Prop :=
  ∀ p c, heap h !! p = Some c →
    ∃ c', heap h' !! p = Some c' ∧ Client.Username c' = Client.Username c.

(** The logs of [h'] are the logs of [h] with messages that satisfy [P]
    stored at their ends (a key without log counts as the empty log). *)
Definition logsGrowBy (P : Message.t → Prop) (h h' : Hub) : Prop :=
  ∀ k, ∃ later,
    default [] (Conversations h' !! k) = default [] (Conversations h !! k) ++ later ∧
    Forall P later.

(** ** Concrete servers *)

(** Every string of the concrete servers is ASCII, and the part of
    [strings.TrimSpace] for the other strings is not called. *)
Definition asciiOnly : UnicodeTrim := {| trimSpaceUnicode := λ s, s |}.

Definition loginRequest (name : string) : Request.t :=
  Request.mk "POST" None "/api/login" "" (Some name).

Definition requestWith (method path sessionID : string) : Request.t :=
  Request.mk method (Some sessionID) path "" None.

(** alice logs in; the session gets the id 1000-1. *)
Definition svAliceLoggedIn : Server :=
  (@HandleLogin asciiOnly (loginRequest " alice ") 1000 1 5 NewServer).2.

(** alice opens her WebSocket, which is registered at address 1. *)
Definition svAliceConnected : Server :=
  default NewServer
    (snd <$> HandleWebSocket (requestWith "GET" "/ws" "1000-1") 6 Upgraded true 1 10 [] []
               svAliceLoggedIn).

(** bob logs in; the session gets the id 2000-2. *)
Definition svBobLoggedIn : Server :=
  (@HandleLogin asciiOnly (loginRequest "bob") 2000 2 15 svAliceConnected).2.

(** bob opens his WebSocket, which is registered at address 2. *)
Definition svBothConnected : Server :=
  default NewServer
    (snd <$> HandleWebSocket (requestWith "GET" "/ws" "2000-2") 16 Upgraded true 2 20 [] []
               svBobLoggedIn).

(** alice writes to bob. *)
Definition svChat : Server := mkServer hubOneChat (sessions svBothConnected).

Definition aliceClient : Client.t :=
  Client.mk "alice" (Chan.mk [statusFrame "bob" true] false sendQueueSize).

Definition aliceEvictedClient : Client.t :=
  default (Client.mk "" (Chan.make 0)) (heap hubAliceEvicted !! 1%nat).

(** A socket on which no write fails. *)
Definition healthyConn : Conn.t := Conn.mk [] None false.

(** alice reads one message for bob from her socket, and then the read
    fails. *)
Definition aliceReads : list Read.t := [Read.mk (MessageEnvelope (Some hiBob)) "m1" 30].

Definition hubAfterReads : Hub :=
  default NewHub (outcome (readPump 1 aliceReads 40 [] (theHub svBothConnected))).

(** ** A crowd *)

(** The names of the crowd: two small letters each, different for
    different numbers below 416. *)
Definition crowdLetter (d : nat) : ascii := Ascii.ascii_of_nat (97 + d).

Definition crowdName (i : nat) : string :=
  String (crowdLetter (i / 16)) (String (crowdLetter (i mod 16)) EmptyString).

(** The first [n] identities of the crowd connect one after the other, the
    [i]-th at the address [i]. *)
Definition crowdCalls (n : nat) : list Call :=
  (λ i, CallConnect i (crowdName i) 0 [] []) <$> seq 1 n.

(** 257 identities are connected. *)
Definition hubCrowd : Hub := default NewHub (performAll (crowdCalls 257) NewHub).

(** The state after the first [n] identities of the crowd have connected:
    they are the known identities, all online, and the addresses above [n]
    are unused. *)
Record crowdInv (n : nat) (h : Hub) : Prop := {
  crowd_reachable : reachable h;
  crowd_size : size (Users h) = n;
  crowd_users : ∀ k user, Users h !! k = Some user →
    User.Online user = true ∧ ∃ i, (1 ≤ i ≤ n)%nat ∧ k = crowdName i;
  crowd_heap : ∀ p, (n < p)%nat → heap h !! p = None }.

(** * Properties *)

(** ** Map iteration order *)

Section range_order.
Context {V : Type}.
Implicit Types (m : gmap string V) (hint : list string).

Lemma rangeOrder_NoDup hint m : NoDup (rangeOrder hint m).
Proof.
  unfold rangeOrder. apply NoDup_app. split_and!.
  - apply NoDup_remove_dups.
  - intros k Hk Hk'. apply list_elem_of_filter in Hk' as [Hk' _]. done.
  - apply NoDup_filter, NoDup_fst_map_to_list.
Qed.

Lemma rangeOrder_elem_of hint m k : k ∈ rangeOrder hint m ↔ is_Some (m !! k).
Proof.
  unfold rangeOrder. rewrite elem_of_app, elem_of_remove_dups.
  rewrite !list_elem_of_filter, elem_of_remove_dups, list_elem_of_filter.
  rewrite list_elem_of_fmap. split.
  - intros [[? _]|[_ [[k' v] [-> Hkv]]]]; [done|].
    apply elem_of_map_to_list in Hkv. by eexists.
  - intros [v Hv].
    destruct (decide (k ∈ hint)) as [Hin|Hnin].
    + left. split; [by eexists | done].
    + right. split; [by intros [_ ?] |].
      exists (k, v). split; [done|]. by apply elem_of_map_to_list.
Qed.

Lemma rangeOrder_perm hint m : rangeOrder hint m ≡ₚ (map_to_list m).*1.
Proof.
  apply NoDup_Permutation.
  - apply rangeOrder_NoDup.
  - apply NoDup_fst_map_to_list.
  - intros k. rewrite rangeOrder_elem_of, list_elem_of_fmap. split.
    + intros [v Hv]. exists (k, v). split; [done|]. by apply elem_of_map_to_list.
    + intros [[k' v] [-> Hkv]]. apply elem_of_map_to_list in Hkv. by eexists.
Qed.

(** Every enumeration of the keys is a possible order. *)
Lemma rangeOrder_complete m ks : ks ≡ₚ (map_to_list m).*1 → rangeOrder ks m = ks.
Proof.
  intros Hks. unfold rangeOrder.
  assert (Hnd : NoDup ks) by (rewrite Hks; apply NoDup_fst_map_to_list).
  assert (Hall : ∀ k, k ∈ ks → is_Some (m !! k)).
  { intros k Hk. rewrite Hks in Hk. apply list_elem_of_fmap in Hk as [[k' v] [-> Hkv]].
    apply elem_of_map_to_list in Hkv. by eexists. }
  assert (Hf : filter (λ k, is_Some (m !! k)) ks = ks).
  { clear Hks Hnd. induction ks as [|k ks IH]; [done|].
    rewrite filter_cons_True by (apply Hall; left).
    f_equal. apply IH. intros k' Hk'. apply Hall. by right. }
  assert (Hrd : remove_dups ks = ks).
  { clear Hks Hf Hall. induction Hnd as [|k ks Hk Hnd IH]; [done|].
    simpl. destruct (decide_rel elem_of k ks); [done|]. by rewrite IH. }
  rewrite Hf, Hrd.
  rewrite <- (app_nil_r ks) at 2. f_equal.
  assert (Hsub : ∀ k, k ∈ (map_to_list m).*1 → k ∈ ks) by (intros k; by rewrite Hks).
  clear Hks Hf Hall Hnd.
  induction ((map_to_list m).*1) as [|k l IH]; [done|].
  rewrite filter_cons_False.
  - apply IH. intros k' Hk'. apply Hsub. by right.
  - intros Hk. apply Hk, Hsub. left.
Qed.
End range_order.

(** ** The conversation key *)

Lemma ConvKey_unfold a b :
  ConvKey a b = if String.ltb b a then b +:+ "|" +:+ a else a +:+ "|" +:+ b.
Proof. unfold ConvKey, sort_Strings. simpl. by destruct (String.ltb b a). Qed.

Lemma ltb_asym a b : String.ltb a b = true → String.ltb b a = false.
Proof.
  unfold String.ltb. rewrite (String.compare_antisym b a).
  by destruct (String.compare a b).
Qed.

Lemma ltb_total a b : String.ltb a b = false → String.ltb b a = false → a = b.
Proof.
  unfold String.ltb. rewrite (String.compare_antisym b a).
  destruct (String.compare a b) eqn:E; try done.
  intros _ _. by apply String.compare_eq_iff.
Qed.

Lemma ConvKey_comm a b : ConvKey a b = ConvKey b a.
Proof.
  rewrite !ConvKey_unfold.
  destruct (String.ltb b a) eqn:Hba, (String.ltb a b) eqn:Hab; try done.
  - apply ltb_asym in Hba. congruence.
  - by rewrite (ltb_total _ _ Hab Hba).
Qed.

Lemma string_forall_impl (P Q : ascii → bool) s :
  (∀ c, P c = true → Q c = true) → string_forall P s = true → string_forall Q s = true.
Proof.
  intros HPQ. induction s as [|c s IH]; [done|]. simpl.
  rewrite !andb_true_iff. intros [? ?]. auto.
Qed.

Lemma validUsername_noBar s : validUsername s = true → noBar s = true.
Proof.
  unfold validUsername, noBar. rewrite andb_true_iff. intros [_ H].
  revert H. apply string_forall_impl. intros c Hc.
  apply bool_decide_eq_true. intros ->. by vm_compute in Hc.
Qed.

Lemma append_nil_l s : "" +:+ s = s.
Proof. reflexivity. Qed.

Lemma append_cons c s t : String c s +:+ t = String c (s +:+ t).
Proof. reflexivity. Qed.

Lemma noBar_app_bar p q : noBar (p +:+ String "|" q) = false.
Proof.
  induction p as [|c p IH]; [done|].
  rewrite append_cons. unfold noBar in *. simpl. rewrite IH. apply andb_false_r.
Qed.

(** A key splits in one way only around its separator when the two names
    have no separator in them. *)
Lemma bar_split_unique p q r s :
  noBar r = true → noBar s = true →
  p +:+ "|" +:+ q = r +:+ "|" +:+ s → p = r ∧ q = s.
Proof.
  intros Hr Hs. revert r Hr.
  induction p as [|c p IH]; intros [|c' r] Hr;
    repeat (rewrite append_nil_l || rewrite append_cons).
  - by intros [= ->].
  - intros [= <- _]. unfold noBar in Hr. by simpl in Hr.
  - intros [= -> <-]. by rewrite noBar_app_bar in Hs.
  - intros [= -> Heq]. unfold noBar in Hr. simpl in Hr.
    apply andb_true_iff in Hr as [_ Hr].
    destruct (IH r Hr Heq) as [-> ->]. done.
Qed.

(** The key is canonical: over names without separator it determines the
    unordered pair. *)
Lemma ConvKey_inj x y a b :
  noBar a = true → noBar b = true →
  ConvKey x y = ConvKey a b → (x = a ∧ y = b) ∨ (x = b ∧ y = a).
Proof.
  intros Ha Hb. rewrite !ConvKey_unfold.
  destruct (String.ltb y x), (String.ltb b a); intros Heq;
    apply bar_split_unique in Heq as [-> ->]; auto.
Qed.

(** ** GetConversationMessages *)

(** C5.  For all identities A and B and every hub state,
    GetConversation(A,B) and GetConversation(B,A) are the same sequence (the
    key does not depend on the order of the pair); and the call returns the
    empty sequence, not an error, when there is no prior message between A
    and B: when no log is stored under the key, and also when, in a hub
    whose logs are keyed by their pairs, no stored message is between the
    admitted identities A and B. *)
Theorem GetConversationMessages_symmetric (h : Hub) (a b : string) :
  GetConversationMessages h a b = GetConversationMessages h b a ∧
  (Conversations h !! ConvKey a b = None → GetConversationMessages h a b = []) ∧
  (logs_keyed h → validUsername a = true → validUsername b = true →
   ¬ messagesBetween h a b → GetConversationMessages h a b = []).
Proof.
  unfold GetConversationMessages. split_and!.
  - by rewrite (ConvKey_comm a b).
  - by intros ->.
  - intros Hkeyed Ha%validUsername_noBar Hb%validUsername_noBar Hnone.
    destruct (Conversations h !! ConvKey a b) as [log|] eqn:Hlog; [|done].
    destruct log as [|m log]; [done|]. exfalso. apply Hnone.
    exists (ConvKey a b), (m :: log), m. split_and!; [done|by left|].
    apply Hkeyed in Hlog. apply Forall_cons in Hlog as [Hm _].
    by apply ConvKey_inj in Hm.
Qed.

(** ** SearchUsers *)








Lemma strings_HasPrefix_spec s p :
  strings_HasPrefix s p = true ↔ ∃ post, s = p +:+ post.
Proof.
  revert s. induction p as [|c p IH]; intros s.
  - split; [intros _; by exists s | by destruct s].
  - destruct s as [|d s]; simpl.
    + split; [done | by intros [post [=]]].
    + case_decide as Hcd.
      * subst d. rewrite IH. split.
        -- intros [post ->]. by exists post.
        -- intros [post Heq]. rewrite append_cons in Heq. injection Heq as ->. by exists post.
      * split; [done|]. intros [post Heq]. rewrite append_cons in Heq. congruence.
Qed.

Lemma strings_Contains_spec s substr :
  strings_Contains s substr = true ↔ ∃ pre post, s = pre +:+ substr +:+ post.
Proof.
  induction s as [|c s IH].
  - cbn [strings_Contains]. rewrite orb_false_r, strings_HasPrefix_spec. split.
    + intros [post ->]. by exists "", post.
    + intros [[|d pre] [post Heq]]; [by exists post | by rewrite append_cons in Heq].
  - cbn [strings_Contains]. rewrite orb_true_iff, IH, strings_HasPrefix_spec. split.
    + intros [[post ->] | (pre & post & ->)].
      * by exists "", post.
      * by exists (String c pre), post.
    + intros [[|d pre] [post Heq]].
      * left. by exists post.
      * right. rewrite append_cons in Heq. injection Heq as -> ->. by exists pre, post.
Qed.

(** What [contains] computes, whatever the bytes of the strings. *)
Lemma contains_lowered `{UnicodeLower} s substr :
  contains s substr = true ↔ substr = "" ∨ loweredSubstring substr s.
Proof.
  unfold contains, loweredSubstring. case_decide as Hlen.
  - destruct substr; [|done]. split; [by left | done].
  - case_decide as Hlt.
    + split; [done|]. intros [-> | [Hle _]]; [done | lia].
    + rewrite strings_Contains_spec. split.
      * intros Hc. right. split; [lia | done].
      * by intros [-> | [_ Hc]].
Qed.


Lemma SearchUsers_unfold `{UnicodeLower} h query excludeUsername order :
  SearchUsers h query excludeUsername order =
  rangeOrder order (Users h) ≫= searchHit h query excludeUsername.
Proof.
  unfold SearchUsers.
  generalize (rangeOrder order (Users h)). intros ks.
  rewrite <- (app_nil_l (ks ≫= _)).
  set (acc0 := @nil User.t) at 2 3. clearbody acc0. revert acc0.
  induction ks as [|k ks IH]; intros acc; simpl.
  - by rewrite app_nil_r.
  - rewrite IH. unfold searchHit at 2.
    destruct (Users h !! k) as [user|]; [|reflexivity].
    destruct (decide (User.Username user = excludeUsername)); [reflexivity|].
    destruct (_ || _); [|reflexivity]. rewrite <- app_assoc. reflexivity.
Qed.

Lemma searchHit_elem `{UnicodeLower} h query ex k r :
  r ∈ searchHit h query ex k ↔
  ∃ user, Users h !! k = Some user ∧ User.Username user ≠ ex ∧
          (query = "" ∨ loweredSubstring query (User.Username user)) ∧
          r = User.mk (User.Username user) (User.Online user) None zeroTime.
Proof.
  unfold searchHit. destruct (Users h !! k) as [user|].
  2: { rewrite elem_of_nil. split; [done|]. by intros (user' & Hu & _). }
  destruct (decide (User.Username user = ex)) as [Hex|Hex].
  { rewrite elem_of_nil. split; [done|]. intros (user' & Hu & Hne & _). by injection Hu as <-. }
  destruct (bool_decide _ || _) eqn:Hq.
  - rewrite list_elem_of_singleton. split.
    + intros ->. exists user. split_and!; try done.
      apply orb_true_iff in Hq as [Hq%bool_decide_eq_true | Hq].
      * destruct query; [by left | done].
      * by apply contains_lowered.
    + intros (user' & Hu & _ & _ & ->). by injection Hu as <-.
  - rewrite elem_of_nil. split; [done|].
    intros (user' & Hu & _ & Hci & _). injection Hu as <-.
    apply orb_false_iff in Hq as [_ Hq]. apply contains_lowered in Hci. congruence.
Qed.


Lemma SearchUsers_names `{UnicodeLower} h q X order name :
  users_keyed h →
  name ∈ User.Username <$> SearchUsers h q X order ↔
  is_Some (Users h !! name) ∧ name ≠ X ∧ (q = "" ∨ loweredSubstring q name).
Proof.
  intros Hkeyed. rewrite SearchUsers_unfold, list_elem_of_fmap. split.
  - intros (r & -> & Hr). apply list_elem_of_bind in Hr as (k & Hr & _).
    apply searchHit_elem in Hr as (user & Hk & Hne & Hci & ->). simpl.
    pose proof (Hkeyed _ _ Hk) as Hku. simpl in Hku. rewrite Hku in *.
    split_and!; [by eexists | done | done].
  - intros ([user Hk] & Hne & Hci).
    pose proof (Hkeyed _ _ Hk) as Hku. simpl in Hku.
    exists (User.mk (User.Username user) (User.Online user) None zeroTime).
    split; [done|]. apply list_elem_of_bind. exists name. split.
    + apply searchHit_elem. exists user. by rewrite Hku.
    + apply rangeOrder_elem_of. by eexists.
Qed.


(** ** GetConversations *)

Lemma convLoopBody_unfold h username convs seen messages :
  convLoopBody h username (convs, seen) messages =
  match last messages ≫= (λ m, (λ p, (p, m)) <$> peerOf username m) with
  | Some (peer, m) =>
      if default false (seen !! peer) then (convs, seen)
      else (convs ++ [entryOf h peer m], <[peer := true]> seen)
  | None => (convs, seen)
  end.
Proof.
  unfold convLoopBody, peerOf, entryOf.
  destruct (last messages) as [m|]; simpl; [|done].
  repeat case_decide; done.
Qed.

Lemma foldl_invariant {A B} (P : list B → A → Prop) (f : A → B → A) (init : A) (l : list B) :
  P [] init →
  (∀ seen x acc, P seen acc → x ∈ l → P (seen ++ [x]) (f acc x)) →
  P l (foldl f init l).
Proof.
  intros Hinit Hstep.
  assert (H : ∀ rest seen acc, seen ++ rest = l → P seen acc → P l (foldl f acc rest)).
  { induction rest as [|x rest IH]; intros seen acc Hl Hacc; simpl.
    - by rewrite app_nil_r in Hl; subst.
    - apply (IH (seen ++ [x])); [by rewrite <- app_assoc|].
      apply Hstep; [done|]. rewrite <- Hl. set_solver. }
  by apply (H l []).
Qed.

Lemma lastTouches_bind h username k peer m :
  lastTouches h username k peer m ↔
  last (default [] (Conversations h !! k)) ≫= (λ m, (λ p, (p, m)) <$> peerOf username m)
  = Some (peer, m).
Proof.
  unfold lastTouches. split.
  - intros (log & -> & Hlast & Hpeer). simpl. rewrite Hlast. simpl. by rewrite Hpeer.
  - intros Hb. destruct (Conversations h !! k) as [log|]; simpl in Hb; [|done].
    exists log. destruct (last log) as [m'|]; simpl in Hb; [|done].
    destruct (peerOf username m') as [p|] eqn:Hp; simpl in Hb; [|done].
    injection Hb as -> ->. done.
Qed.

Lemma convLoop_invariant h username ks :
  convLoopInv h username ks
    (foldl (λ st k, convLoopBody h username st (default [] (Conversations h !! k)))
           ([], ∅) ks).
Proof.
  apply (foldl_invariant (convLoopInv h username)).
  - split; simpl.
    + intros p. rewrite lookup_empty, elem_of_nil. simpl. done.
    + constructor.
    + intros e He. by apply elem_of_nil in He.
    + intros k p m Hk. by apply elem_of_nil in Hk.
  - intros seen x [convs seenPeers] [Hseen Hnd Hsound Hcompl] _.
    rewrite convLoopBody_unfold. simpl in Hseen, Hnd, Hsound, Hcompl.
    destruct (last _ ≫= _) as [[peer m]|] eqn:Hb.
    + apply lastTouches_bind in Hb as Htouch.
      destruct (default false (seenPeers !! peer)) eqn:Hpeer.
      * split; simpl; try done.
        -- intros e He. destruct (Hsound e He) as (k & m' & Hk & ?).
           exists k, m'. split; [|done]. apply elem_of_app. by left.
        -- intros k p m' [Hk|Hk%list_elem_of_singleton]%elem_of_app Ht; [by eapply Hcompl|].
           subst k. apply lastTouches_bind in Ht. rewrite Hb in Ht.
           injection Ht as -> ->. by apply Hseen.
      * assert (Hfresh : peer ∉ Conversation.PeerUsername <$> convs).
        { rewrite <- Hseen. by rewrite Hpeer. }
        split; simpl.
        -- intros p. rewrite fmap_app, elem_of_app. simpl. rewrite list_elem_of_singleton.
           destruct (decide (p = peer)) as [->|Hne].
           ++ rewrite lookup_insert_eq. simpl. split; [by right | done].
           ++ rewrite lookup_insert_ne by done. rewrite Hseen. split; [by left|].
              by intros [?|?].
        -- rewrite fmap_app. apply NoDup_app. split_and!; [done| |apply NoDup_singleton].
           intros p Hp Hp'%list_elem_of_singleton. by subst.
        -- intros e [He|He%list_elem_of_singleton]%elem_of_app.
           ++ destruct (Hsound e He) as (k & m' & Hk & ?).
              exists k, m'. split; [|done]. apply elem_of_app. by left.
           ++ subst e. exists x, m. simpl. split_and!; [|done|done].
              apply elem_of_app. right. by apply list_elem_of_singleton.
        -- intros k p m' [Hk|Hk%list_elem_of_singleton]%elem_of_app Ht;
             rewrite fmap_app, elem_of_app.
           ++ left. by eapply Hcompl.
           ++ subst k. apply lastTouches_bind in Ht. rewrite Hb in Ht.
              injection Ht as -> ->. right. simpl. by apply list_elem_of_singleton.
    + split; simpl; try done.
      * intros e He. destruct (Hsound e He) as (k & m' & Hk & ?).
        exists k, m'. split; [|done]. apply elem_of_app. by left.
      * intros k p m' [Hk|Hk%list_elem_of_singleton]%elem_of_app Ht; [by eapply Hcompl|].
        subst k. apply lastTouches_bind in Ht. by rewrite Hb in Ht.
Qed.

Lemma After_StrictWeak {A} (time : A → Time) :
  StrictWeak (λ a b, After (time a) (time b)).
Proof.
  unfold After. split.
  - intros a b. rewrite Z.ltb_lt, Z.ltb_ge. lia.
  - intros a b c. rewrite !Z.ltb_ge. lia.
Qed.

Lemma StronglySorted_impl {A} (R R' : A → A → Prop) l :
  (∀ a b, R a b → R' a b) → StronglySorted R l → StronglySorted R' l.
Proof.
  intros HR. induction 1 as [|x l Hl IH Hx]; constructor; [done|].
  eapply Forall_impl; [exact Hx | auto].
Qed.

(** C6.  For every identity X, every hub state, every iteration order and
    every sort with the contract of sort.Slice, the listing of X has no two
    entries with the same peer; it is sorted by the time of the last message,
    most recent first; its peers are exactly the peers that the last message
    of some non-empty log gives to X; and every entry carries the content
    and the time of such a last message and the presence of the peer. *)
Theorem GetConversations_listing `{SliceSorter} (h : Hub) (X : string) (order : list string) :
  let listing := GetConversations h X order in
  NoDup (Conversation.PeerUsername <$> listing) ∧
  StronglySorted
    (λ a b, (Conversation.LastMessageTime b ≤ Conversation.LastMessageTime a)%Z) listing ∧
  (∀ p, p ∈ Conversation.PeerUsername <$> listing ↔ ∃ k m, lastTouches h X k p m) ∧
  (∀ e, e ∈ listing → ∃ k m, lastTouches h X k (Conversation.PeerUsername e) m ∧
       e = entryOf h (Conversation.PeerUsername e) m).
Proof.
  intros listing. unfold GetConversations in listing.
  pose proof (convLoop_invariant h X (rangeOrder order (Conversations h))) as Hinv.
  set (st := foldl _ _ _) in *.
  destruct Hinv as [_ Hnd Hsound Hcompl].
  pose proof (sort_Slice_perm
    (λ a b, After (Conversation.LastMessageTime a) (Conversation.LastMessageTime b)) st.1)
    as Hperm.
  fold listing in Hperm.
  split_and!.
  - by rewrite Hperm.
  - eapply StronglySorted_impl;
      [|apply sort_Slice_sorted, (After_StrictWeak Conversation.LastMessageTime)].
    intros a b. unfold After. rewrite Z.ltb_ge. done.
  - intros p. rewrite Hperm. split.
    + intros (e & -> & He)%list_elem_of_fmap.
      destruct (Hsound e He) as (k & m & _ & Ht & _). by exists k, m.
    + intros (k & m & Ht). apply (Hcompl k p m); [|done].
      apply rangeOrder_elem_of. destruct Ht as (log & Hlog & _). by eexists.
  - intros e He. rewrite Hperm in He.
    destruct (Hsound e He) as (k & m & _ & Ht & Heq). by exists k, m.
Qed.

(** ** Sending to a client *)

Lemma alter_is_insert {K V} `{Countable K} (f : V → V) (m : gmap K V) k v :
  m !! k = Some v → alter f k m = <[k := f v]> m.
Proof.
  intros Hk. apply map_eq. intros k'. rewrite lookup_alter, lookup_insert.
  case_decide; subst; by rewrite ?Hk.
Qed.

Lemma setSend_eq h client c ch :
  heap h !! client = Some c →
  setSend client ch h = Ok () (set_heap (<[client := Client.mk (Client.Username c) ch]>) h).
Proof.
  intros Hc. unfold setSend, modify, set_heap. by rewrite (alter_is_insert _ _ _ _ Hc).
Qed.

Lemma sendToClient_queued h client c msgType payload :
  heap h !! client = Some c → hasRoomFor 1 c →
  sendToClient client msgType payload h =
  Ok () (set_heap (<[client := enqueue (WSMessage.mk msgType payload) c]>) h).
Proof.
  intros Hc [Hopen Hroom]. unfold sendToClient, bind, deref. rewrite Hc.
  unfold chan_trySend. rewrite Hopen.
  rewrite decide_True by lia. rewrite (setSend_eq _ _ _ _ Hc).
  unfold enqueue. by rewrite Hopen.
Qed.

Lemma sendToClient_full h client c msgType payload :
  heap h !! client = Some c → isOpen c → isFull c →
  sendToClient client msgType payload h =
  Ok () (set_Clients (delete (Client.Username c))
           (set_heap (<[client := closeQueue c]>) h)).
Proof.
  intros Hc Hopen Hfull. unfold sendToClient, bind, deref. rewrite Hc.
  unfold chan_trySend. rewrite Hopen.
  unfold isFull in Hfull. rewrite decide_False by lia.
  unfold closeSend, bind, deref. rewrite Hc.
  unfold chan_close. rewrite Hopen. by rewrite (setSend_eq _ _ _ _ Hc).
Qed.

Lemma sendToClient_closed h client c msgType payload :
  heap h !! client = Some c → Chan.closed (Client.Send c) = true →
  sendToClient client msgType payload h = Panic.
Proof.
  intros Hc Hclosed. unfold sendToClient, bind, deref. rewrite Hc.
  unfold chan_trySend. by rewrite Hclosed.
Qed.

Lemma room_or_full c : isOpen c → hasRoomFor 1 c ∨ isFull c.
Proof. unfold hasRoomFor, isFull. intros Hopen. destruct (decide (isFull c)); [by right|left]. unfold isFull in *. split; [done|lia]. Qed.

(** ** Well-formed hubs *)

Lemma registered_lookup h u client :
  hub_wf h → Clients h !! u = Some client →
  ∃ c, heap h !! client = Some c ∧ Client.Username c = u ∧ isOpen c.
Proof.
  intros Hwf Hu. pose proof (wf_clients h Hwf u client Hu) as Hok.
  unfold registered_ok in Hok. destruct (heap h !! client) as [c|]; [|done].
  by exists c.
Qed.

(** A connection is registered for one identity at most. *)
Lemma registered_inj h u1 u2 client :
  hub_wf h → Clients h !! u1 = Some client → Clients h !! u2 = Some client → u1 = u2.
Proof.
  intros Hwf H1 H2.
  destruct (registered_lookup h u1 client Hwf H1) as (c1 & Hc1 & <- & _).
  destruct (registered_lookup h u2 client Hwf H2) as (c2 & Hc2 & <- & _).
  congruence.
Qed.


(** ** handleTypingEvent *)

(** C7, as amended.  A typing call whose recipient has no registered
    connection returns without error and leaves the whole hub state, queues
    included, as it was.  When a connection is registered for the recipient
    and its queue has room, the call queues exactly one typing envelope, with
    the sender and the flag, at the end of the queue of that connection, and
    changes nothing else. *)
Theorem handleTypingEvent_routing (h : Hub) (event : TypingEventWrapper.t) :
  (Clients h !! TypingEventWrapper.To event = None →
   handleTypingEvent event h = Ok () h) ∧
  (∀ rc c, Clients h !! TypingEventWrapper.To event = Some rc →
     heap h !! rc = Some c → hasRoomFor 1 c →
     ∃ h', handleTypingEvent event h = Ok () h' ∧
       queueOf h' rc = queueOf h rc ++ [typingFrame event] ∧
       (∀ p, p ≠ rc → heap h' !! p = heap h !! p) ∧
       Clients h' = Clients h ∧ Users h' = Users h ∧
       Conversations h' = Conversations h).
Proof.
  unfold handleTypingEvent, bind, get. split.
  - by intros ->.
  - intros rc c -> Hc Hroom. eexists. split; [by apply sendToClient_queued|].
    simpl. split_and!; try done.
    + unfold queueOf. simpl. by rewrite lookup_insert_eq, Hc.
    + intros p Hne. by rewrite lookup_insert_ne.
Qed.

(** ** handleInboundMessageWithSender *)

Lemma addFrames_nil c : addFrames [] c = c.
Proof. destruct c as [u [b cl cp]]. unfold addFrames. simpl. by rewrite app_nil_r. Qed.

Lemma enqueue_addFrames d frames c : enqueue d (addFrames frames c) = addFrames (frames ++ [d]) c.
Proof. unfold enqueue, addFrames. simpl. by rewrite app_assoc. Qed.

Lemma enqueue_is_addFrames d c : enqueue d c = addFrames [d] c.
Proof. done. Qed.

Lemma hasRoomFor_addFrames n frames c :
  hasRoomFor (length frames + n) c → hasRoomFor n (addFrames frames c).
Proof.
  unfold hasRoomFor, isOpen, addFrames. simpl. rewrite length_app. intros [? ?].
  split; [done|lia].
Qed.

Lemma hasRoomFor_le n n' c : (n ≤ n')%nat → hasRoomFor n' c → hasRoomFor n c.
Proof. unfold hasRoomFor. intros ? [? ?]. split; [done|lia]. Qed.

Lemma markDelivered_last h convKey log m :
  Conversations h !! convKey = Some (log ++ [m]) →
  markDelivered convKey (length log) h =
  Ok () (set_Conversations (<[convKey := log ++
    [Message.mk (Message.ID m) (Message.From m) (Message.To m) (Message.Content m)
       (Message.Timestamp m) "delivered"]]>) h).
Proof.
  intros Hk. unfold markDelivered, modify. f_equal. unfold set_Conversations. f_equal.
  rewrite (alter_is_insert _ _ _ _ Hk). f_equal.
  by rewrite (alter_app_r_alt _ log [m]), Nat.sub_diag.
Qed.

Lemma routeDemand_length h from msg id now p :
  length (routeFrames h from msg id now p) = routeDemand h from (InboundMessage.To msg) p.
Proof.
  unfold routeFrames, routeDemand. rewrite !length_app.
  repeat case_decide; simpl; lia.
Qed.

Ltac decide_side :=
  first [ congruence
        | by eexists
        | split; decide_side
        | (intros [? [? ?]]; congruence)
        | (intros [? ?]; congruence)
        | (intros ?; congruence) ].

Ltac decide_all :=
  repeat first [ rewrite decide_True by decide_side
               | rewrite decide_False by decide_side ].

Ltac demand_at Hroom Hs Hr :=
  unfold routeDemand in Hroom; rewrite ?Hs, ?Hr in Hroom;
  repeat first [ rewrite decide_True in Hroom by decide_side
               | rewrite decide_False in Hroom by decide_side ];
  simpl in Hroom.

Ltac frames_at Hs Hr :=
  unfold routeFrames; rewrite ?Hs, ?Hr; decide_all; simpl.

Lemma hasRoomFor_enqueue n d c : hasRoomFor (S n) c → hasRoomFor n (enqueue d c).
Proof.
  unfold hasRoomFor, isOpen, enqueue. simpl. rewrite length_app. simpl. intros [? ?].
  split; [done|lia].
Qed.

Ltac room :=
  first [ eassumption
        | eapply hasRoomFor_le; [|eassumption]; simpl; lia
        | apply hasRoomFor_enqueue; room ].

Ltac heap_lookup :=
  simpl; repeat first [ rewrite lookup_insert_eq | rewrite lookup_insert_ne by congruence ];
  first [ reflexivity | eassumption ].

Ltac send_queued p c :=
  erewrite (sendToClient_queued _ p c); [|heap_lookup|room].

Ltac frames_eq :=
  unfold enqueue, addFrames; simpl; rewrite <- ?app_assoc, ?app_nil_r; simpl;
  try done.

Lemma fmap_addFrames_nil (o : option Client.t) : o = addFrames [] <$> o.
Proof. destruct o as [c|]; simpl; by rewrite ?addFrames_nil. Qed.

Lemma route_no_overflow h from msg id now :
  routeFits h from (InboundMessage.To msg) →
  ∃ h', handleInboundMessageWithSender from msg id now h = Ok () h' ∧
    Clients h' = Clients h ∧ Users h' = Users h ∧
    Conversations h' =
      <[ConvKey from (InboundMessage.To msg) :=
          default [] (Conversations h !! ConvKey from (InboundMessage.To msg)) ++
          [storedMessage from msg id now
             (if Clients h !! InboundMessage.To msg is Some _ then "delivered" else "sent")]]>
        (Conversations h) ∧
    ∀ p, heap h' !! p = addFrames (routeFrames h from msg id now p) <$> heap h !! p.
Proof.
  intros Hfit. unfold handleInboundMessageWithSender, bind, get, modify.
  set (key := ConvKey from (InboundMessage.To msg)).
  set (log := default [] (Conversations h !! key)).
  destruct (Clients h !! from) as [sc|] eqn:Hs; destruct (Clients h !! InboundMessage.To msg) as [rc|] eqn:Hr;
    cbn [Message.ID Message.From Message.To Message.Content Message.Timestamp Message.Status].
  - destruct (Hfit sc) as (cs & Hcs & Hrs); [by left|].
    destruct (Hfit rc) as (cr & Hcr & Hrr); [by right|].
    destruct (decide (sc = rc)) as [->|Hne].
    + assert (cr = cs) as -> by congruence. clear Hrr.
      demand_at Hrs Hs Hr.
      send_queued rc cs.
      send_queued rc (enqueue (messageFrame (storedMessage from msg id now "sent") "sent") cs).
      erewrite markDelivered_last; [|simpl; apply lookup_insert_eq].
      send_queued rc (enqueue (messageFrame (storedMessage from msg id now "sent") "delivered")
        (enqueue (messageFrame (storedMessage from msg id now "sent") "sent") cs)).
      eexists. split; [reflexivity|]. simpl. split_and!; try done.
      * by rewrite insert_insert_eq.
      * intros p. destruct (decide (p = rc)) as [->|Hp].
        -- rewrite lookup_insert_eq, Hcs. frames_at Hs Hr. f_equal. frames_eq.
        -- rewrite !lookup_insert_ne by done. frames_at Hs Hr. apply fmap_addFrames_nil.
    + demand_at Hrs Hs Hr. demand_at Hrr Hs Hr.
      send_queued sc cs.
      send_queued rc cr.
      erewrite markDelivered_last; [|simpl; apply lookup_insert_eq].
      send_queued sc (enqueue (messageFrame (storedMessage from msg id now "sent") "sent") cs).
      eexists. split; [reflexivity|]. simpl. split_and!; try done.
      * by rewrite insert_insert_eq.
      * intros p. destruct (decide (p = sc)) as [->|Hp]; [|destruct (decide (p = rc)) as [->|Hp']].
        -- rewrite lookup_insert_eq, Hcs. frames_at Hs Hr. f_equal. frames_eq.
        -- rewrite lookup_insert_ne, lookup_insert_eq, Hcr by done. frames_at Hs Hr.
           f_equal.
        -- rewrite !lookup_insert_ne by done. frames_at Hs Hr. apply fmap_addFrames_nil.
  - destruct (Hfit sc) as (cs & Hcs & Hrs); [by left|].
    demand_at Hrs Hs Hr.
    send_queued sc cs.
    eexists. split; [reflexivity|]. simpl. split_and!; try done.
    intros p. destruct (decide (p = sc)) as [->|Hp].
    + rewrite lookup_insert_eq, Hcs. frames_at Hs Hr. f_equal.
    + rewrite !lookup_insert_ne by done. frames_at Hs Hr. apply fmap_addFrames_nil.
  - destruct (Hfit rc) as (cr & Hcr & Hrr); [by right|].
    demand_at Hrr Hs Hr. unfold ret at 1.
    send_queued rc cr.
    erewrite markDelivered_last; [|simpl; apply lookup_insert_eq].
    eexists. split; [reflexivity|]. simpl. split_and!; try done.
    + by rewrite insert_insert_eq.
    + intros p. destruct (decide (p = rc)) as [->|Hp].
      * rewrite lookup_insert_eq, Hcr. frames_at Hs Hr. f_equal.
      * rewrite !lookup_insert_ne by done. frames_at Hs Hr. apply fmap_addFrames_nil.
  - eexists. split; [reflexivity|]. simpl. split_and!; try done.
    intros p. frames_at Hs Hr. apply fmap_addFrames_nil.
Qed.

Lemma routeFrames_unregistered h from msg id now p :
  Clients h !! from ≠ Some p → Clients h !! InboundMessage.To msg ≠ Some p →
  routeFrames h from msg id now p = [].
Proof.
  intros Hs Hr. unfold routeFrames.
  rewrite decide_False by done. rewrite decide_False by done.
  rewrite decide_False by (by intros [? _]). done.
Qed.

Lemma route_queues h h' from msg id now :
  routeFits h from (InboundMessage.To msg) →
  (∀ p, heap h' !! p = addFrames (routeFrames h from msg id now p) <$> heap h !! p) →
  ∀ p, queueOf h' p = queueOf h p ++ routeFrames h from msg id now p.
Proof.
  intros Hfit Hheap p. unfold queueOf. rewrite Hheap.
  destruct (heap h !! p) as [c|] eqn:Hc; simpl; [done|].
  symmetry. apply routeFrames_unregistered; intros Hp.
  - destruct (Hfit p) as (c & Hc' & _); [by left | congruence].
  - destruct (Hfit p) as (c & Hc' & _); [by right | congruence].
Qed.

(** No connection is registered for either party: no queue can overflow. *)
Lemma routeFits_unregistered h from to :
  Clients h !! from = None → Clients h !! to = None → routeFits h from to.
Proof. intros Hs Hr p [Hp|Hp]; congruence. Qed.


(** The routing call when the recipient has no registered connection, in a
    well-formed hub. *)
Lemma route_recipient_offline h from msg id now :
  hub_wf h → Clients h !! InboundMessage.To msg = None →
  ∃ h', handleInboundMessageWithSender from msg id now h = Ok () h' ∧
    Conversations h' =
      <[ConvKey from (InboundMessage.To msg) :=
          default [] (Conversations h !! ConvKey from (InboundMessage.To msg)) ++
          [storedMessage from msg id now "sent"]]> (Conversations h) ∧
    ∀ p, queueOf h' p = queueOf h p ∨
         (Clients h !! from = Some p ∧
          queueOf h' p = queueOf h p ++
            [messageFrame (storedMessage from msg id now "sent") "sent"]).
Proof.
  intros Hwf Hr. unfold handleInboundMessageWithSender, bind, get, modify.
  rewrite Hr.
  cbn [Message.ID Message.From Message.To Message.Content Message.Timestamp Message.Status].
  destruct (Clients h !! from) as [sc|] eqn:Hs.
  - destruct (registered_lookup h from sc Hwf Hs) as (cs & Hcs & _ & Hopen).
    destruct (room_or_full cs Hopen) as [Hroom|Hfull].
    + send_queued sc cs. eexists. split; [reflexivity|]. simpl. split; [done|].
      intros p. unfold queueOf. simpl. destruct (decide (p = sc)) as [->|Hp].
      * right. by rewrite lookup_insert_eq, Hcs.
      * left. by rewrite lookup_insert_ne.
    + erewrite (sendToClient_full _ sc cs); [|heap_lookup|done|done].
      eexists. split; [reflexivity|]. simpl. split; [done|].
      intros p. left. unfold queueOf. simpl. destruct (decide (p = sc)) as [->|Hp].
      * by rewrite lookup_insert_eq, Hcs.
      * by rewrite lookup_insert_ne.
  - eexists. split; [reflexivity|]. simpl. split; [done|]. intros p. by left.
Qed.

(** C2, as amended.  When connections are registered for the sender and for
    the recipient and no queue overflows, the routing call stores the
    message with deliveryState delivered and queues, in this order: for the
    sender the confirmation with status sent and then exactly one
    acknowledgment with status delivered; for the recipient one message
    envelope with status delivered (on one and the same connection when the
    sender is the recipient); and nothing for any other connection.  When
    no connection is registered for the recipient, in a well-formed hub, the
    stored deliveryState stays sent and no queue gains a frame, but the
    sender's, which gains the confirmation alone, or nothing. *)
Theorem route_delivery (h : Hub) (from : string) (msg : InboundMessage.t)
    (id : string) (now : Time) :
  let to := InboundMessage.To msg in
  let convKey := ConvKey from to in
  let log := default [] (Conversations h !! convKey) in
  let m := storedMessage from msg id now "sent" in
  (∀ sc rc, Clients h !! from = Some sc → Clients h !! to = Some rc →
     routeFits h from to →
     ∃ h', handleInboundMessageWithSender from msg id now h = Ok () h' ∧
       Conversations h' !! convKey =
         Some (log ++ [storedMessage from msg id now "delivered"]) ∧
       (sc ≠ rc →
        queueOf h' sc = queueOf h sc ++ [messageFrame m "sent"; ackFrame id] ∧
        queueOf h' rc = queueOf h rc ++ [messageFrame m "delivered"]) ∧
       (sc = rc →
        queueOf h' sc = queueOf h sc ++
          [messageFrame m "sent"; messageFrame m "delivered"; ackFrame id]) ∧
       (∀ p, p ≠ sc → p ≠ rc → heap h' !! p = heap h !! p)) ∧
  (hub_wf h → Clients h !! to = None →
     ∃ h', handleInboundMessageWithSender from msg id now h = Ok () h' ∧
       Conversations h' !! convKey = Some (log ++ [m]) ∧
       ∀ p, queueOf h' p = queueOf h p ∨
            (Clients h !! from = Some p ∧
             queueOf h' p = queueOf h p ++ [messageFrame m "sent"])).
Proof.
  intros to convKey log m. subst to convKey log m. split.
  - intros sc rc Hs Hr Hfit.
    destruct (route_no_overflow h from msg id now Hfit) as (h' & Hrun & _ & _ & Hcv & Hheap).
    pose proof (route_queues h h' from msg id now Hfit Hheap) as Hq.
    exists h'. split; [exact Hrun|]. split_and!.
    + rewrite Hcv, Hr. apply lookup_insert_eq.
    + intros Hne. rewrite !Hq. split; f_equal; frames_at Hs Hr; done.
    + intros <-. rewrite Hq. f_equal. frames_at Hs Hr. done.
    + intros p Hps Hpr. rewrite Hheap. rewrite routeFrames_unregistered by congruence.
      symmetry. apply fmap_addFrames_nil.
  - intros Hwf Hr.
    destruct (route_recipient_offline h from msg id now Hwf Hr) as (h' & Hrun & Hcv & Hq).
    exists h'. split; [exact Hrun|]. split; [|exact Hq].
    rewrite Hcv. apply lookup_insert_eq.
Qed.

(** ** Preservation of the invariant *)

Lemma sendToClient_cases h client msgType payload h' :
  sendToClient client msgType payload h = Ok () h' →
  ∃ c, heap h !! client = Some c ∧ isOpen c ∧
    ((hasRoomFor 1 c ∧
      h' = set_heap (<[client := enqueue (WSMessage.mk msgType payload) c]>) h) ∨
     (isFull c ∧
      h' = set_Clients (delete (Client.Username c))
             (set_heap (<[client := closeQueue c]>) h))).
Proof.
  intros Hrun. destruct (heap h !! client) as [c|] eqn:Hc.
  2: { unfold sendToClient, bind, deref in Hrun. by rewrite Hc in Hrun. }
  exists c. split; [done|].
  destruct (Chan.closed (Client.Send c)) eqn:Hcl.
  { by rewrite (sendToClient_closed h client c) in Hrun. }
  split; [done|]. destruct (room_or_full c Hcl) as [Hroom|Hfull].
  - left. split; [done|]. rewrite (sendToClient_queued h client c) in Hrun by done.
    by injection Hrun as <-.
  - right. split; [done|]. rewrite (sendToClient_full h client c) in Hrun by done.
    by injection Hrun as <-.
Qed.

(** A state whose tables come from those of a well-formed one, with no new
    registration, is well-formed when its registered connections are. *)
Lemma hub_wf_update h h' :
  hub_wf h → Users h' = Users h → Conversations h' = Conversations h →
  (∀ u p, Clients h' !! u = Some p → Clients h !! u = Some p ∧ registered_ok h' u p) →
  hub_wf h'.
Proof.
  intros [Hc Hp Hu Hl] HU HC Hreg. split.
  - intros u p Hup. by apply Hreg.
  - intros u p Hup. apply Hreg in Hup as [Hup _]. apply Hp in Hup.
    unfold presence_ok in *. by rewrite HU.
  - unfold users_keyed. by rewrite HU.
  - unfold logs_keyed. by rewrite HC.
Qed.

Lemma registered_ok_insert_ne h u p q c :
  p ≠ q → registered_ok h u p → registered_ok (set_heap (<[q := c]>) h) u p.
Proof. intros Hne. unfold registered_ok. simpl. by rewrite lookup_insert_ne. Qed.

(** A client object may change freely while it keeps its name and, when it
    is open, stays open. *)
Lemma hub_wf_set_client h p c c' :
  hub_wf h → heap h !! p = Some c →
  Client.Username c' = Client.Username c → (isOpen c → isOpen c') →
  hub_wf (set_heap (<[p := c']>) h).
Proof.
  intros Hwf Hc Hname Hopen. apply (hub_wf_update h); [done..|].
  simpl. intros u q Hu. split; [done|].
  pose proof (wf_clients h Hwf u q Hu) as Hok.
  destruct (decide (q = p)) as [->|Hne]; [|by apply registered_ok_insert_ne].
  unfold registered_ok in *. simpl. rewrite lookup_insert_eq. rewrite Hc in Hok.
  destruct Hok as [? ?]. split; [congruence | auto].
Qed.

(** A client object may change in any way when its name is unregistered. *)
Lemma hub_wf_drop_client h p c c' :
  hub_wf h → heap h !! p = Some c →
  hub_wf (set_Clients (delete (Client.Username c)) (set_heap (<[p := c']>) h)).
Proof.
  intros Hwf Hc. apply (hub_wf_update h); [done..|].
  simpl. intros u q Hu.
  apply lookup_delete_Some in Hu as [Hne Hu]. split; [done|].
  pose proof (wf_clients h Hwf u q Hu) as Hok.
  apply registered_ok_insert_ne; [|done].
  intros ->. unfold registered_ok in Hok. rewrite Hc in Hok. by destruct Hok.
Qed.

(** A client object that is not registered may change in any way. *)
Lemma hub_wf_set_unregistered h p c' :
  hub_wf h → (∀ u, Clients h !! u ≠ Some p) →
  hub_wf (set_heap (<[p := c']>) h).
Proof.
  intros Hwf Hp. apply (hub_wf_update h); [done..|].
  simpl. intros u q Hu. split; [done|].
  apply registered_ok_insert_ne; [by intros ->; eapply Hp | by apply (wf_clients h Hwf)].
Qed.

Lemma sendToClient_wf h client msgType payload h' :
  hub_wf h → sendToClient client msgType payload h = Ok () h' → hub_wf h'.
Proof.
  intros Hwf Hrun.
  apply sendToClient_cases in Hrun as (c & Hc & Hopen & [[Hroom ->]|[Hfull ->]]).
  - by apply (hub_wf_set_client h client c).
  - by apply hub_wf_drop_client.
Qed.

Lemma sendToClient_Users h client msgType payload h' :
  sendToClient client msgType payload h = Ok () h' →
  Users h' = Users h ∧ Conversations h' = Conversations h.
Proof.
  intros Hrun. by apply sendToClient_cases in Hrun as (c & _ & _ & [[_ ->]|[_ ->]]).
Qed.

(** What every iteration keeps, the loop keeps. *)
Lemma forEach_preserves {A} (P : Hub → Prop) (l : list A) (body : A → M unit) h h' :
  (∀ x h1 h2, P h1 → body x h1 = Ok () h2 → P h2) →
  P h → forEach l body h = Ok () h' → P h'.
Proof.
  intros Hbody. revert h. induction l as [|x l IH]; intros h HP; simpl.
  - unfold ret. by intros [= <-].
  - unfold bind. destruct (body x h) as [[] h1|] eqn:Hx; [|done].
    apply IH. by eapply Hbody.
Qed.

Lemma rangeMap_preserves {V} (P : Hub → Prop) (proj : Hub → gmap string V)
    hint (body : string → V → M unit) h h' :
  (∀ k v h1 h2, P h1 → body k v h1 = Ok () h2 → P h2) →
  P h → rangeMap proj hint body h = Ok () h' → P h'.
Proof.
  intros Hbody HP. unfold rangeMap, bind at 1, get at 1.
  apply forEach_preserves; [|done].
  intros k h1 h2 HP1. unfold bind, get.
  destruct (proj h1 !! k) as [v|]; [by apply Hbody|].
  unfold ret. by intros [= <-].
Qed.

Lemma broadcastStatus_preserves (P : Hub → Prop) username online order h h' :
  (∀ client msgType payload h1 h2,
      P h1 → sendToClient client msgType payload h1 = Ok () h2 → P h2) →
  P h → broadcastStatus username online order h = Ok () h' → P h'.
Proof.
  intros Hsend. unfold broadcastStatus. apply rangeMap_preserves.
  intros k v h1 h2 HP1. case_decide; [by apply Hsend|].
  unfold ret. by intros [= <-].
Qed.

(** The general form of [hub_wf_update]: the user table may change too. *)
Lemma hub_wf_intro h h' :
  hub_wf h → users_keyed h' → logs_keyed h' →
  (∀ u p, Clients h' !! u = Some p → registered_ok h' u p ∧ presence_ok h' u p) →
  hub_wf h'.
Proof.
  intros _ Hu Hl Hreg. split; [| |done|done].
  - intros u p Hup. by apply Hreg.
  - intros u p Hup. by apply Hreg.
Qed.

Ltac bind_inv H :=
  unfold bind at 1 in H;
  match type of H with
  | match ?m ?h with Ok _ _ => _ | Panic => _ end = _ =>
      let a := fresh "a" in let h1 := fresh "h" in let E := fresh "Hrun" in
      destruct (m h) as [a h1|] eqn:E; [|discriminate H];
      lazymatch type of a with unit => destruct a | _ => idtac end
  end.

Lemma markDelivered_wf convKey i h h' :
  hub_wf h → markDelivered convKey i h = Ok () h' → hub_wf h'.
Proof.
  intros Hwf. unfold markDelivered, modify. intros [= <-].
  destruct Hwf as [Hc Hp Hu Hl]. split; try done.
  unfold logs_keyed. simpl. intros k log. rewrite lookup_alter.
  case_decide as Hk; [|by apply Hl]. subst k.
  destruct (Conversations h !! convKey) as [log0|] eqn:Hlog; simpl; [|done].
  intros [= <-]. apply Hl in Hlog. simpl in Hlog.
  apply Forall_forall. intros m Hm.
  apply list_elem_of_lookup in Hm as [j Hj].
  rewrite list_lookup_alter in Hj. rewrite Forall_forall in Hlog.
  case_decide; [|by eapply Hlog, list_elem_of_lookup_2].
  subst j. destruct (log0 !! i) as [m0|] eqn:Hm0; simpl in Hj; [|done].
  injection Hj as <-. simpl. by eapply Hlog, list_elem_of_lookup_2.
Qed.

Lemma handleInboundMessageWithSender_unfold from msg id now h :
  let convKey := ConvKey from (InboundMessage.To msg) in
  let log := default [] (Conversations h !! convKey) in
  handleInboundMessageWithSender from msg id now h =
  routeSends from msg id now (Clients h !! from) (Clients h !! InboundMessage.To msg)
    (length log)
    (set_Conversations (<[convKey := log ++ [storedMessage from msg id now "sent"]]>) h).
Proof. reflexivity. Qed.

Lemma handleInboundMessageWithSender_wf from msg id now h h' :
  hub_wf h → handleInboundMessageWithSender from msg id now h = Ok () h' → hub_wf h'.
Proof.
  intros Hwf. rewrite handleInboundMessageWithSender_unfold.
  match goal with |- _ ?h0 = _ → _ => assert (Hwf0 : hub_wf h0) end.
  { destruct Hwf as [Hc Hp Hu Hl]. split; try done.
    unfold logs_keyed. simpl. apply map_Forall_insert_2; [|done].
    apply Forall_app. split; [|by repeat constructor].
    destruct (Conversations h !! _) as [log|] eqn:Hlog; simpl; [|done].
    by apply Hl in Hlog. }
  unfold routeSends.
  destruct (Clients h !! from) as [sc|], (Clients h !! InboundMessage.To msg) as [rc|];
    intros Hrun; bind_inv Hrun.
  - apply sendToClient_wf in Hrun0; [|done].
    bind_inv Hrun. apply sendToClient_wf in Hrun1; [|done].
    bind_inv Hrun. apply markDelivered_wf in Hrun2; [|done].
    by eapply sendToClient_wf.
  - apply sendToClient_wf in Hrun0; [|done].
    unfold ret in Hrun. by injection Hrun as <-.
  - unfold ret in Hrun0. injection Hrun0 as <-.
    bind_inv Hrun. apply sendToClient_wf in Hrun0; [|done].
    bind_inv Hrun. apply markDelivered_wf in Hrun1; [|done].
    unfold ret in Hrun. by injection Hrun as <-.
  - unfold ret in Hrun0, Hrun. injection Hrun0 as <-. by injection Hrun as <-.
Qed.

Lemma handleTypingEvent_wf event h h' :
  hub_wf h → handleTypingEvent event h = Ok () h' → hub_wf h'.
Proof.
  intros Hwf. unfold handleTypingEvent, bind, get.
  destruct (Clients h !! _); [by apply sendToClient_wf|].
  unfold ret. by intros [= <-].
Qed.

Lemma writerReceive_wf client h h' :
  hub_wf h → writerReceive client h = Ok () h' → hub_wf h'.
Proof.
  intros Hwf. unfold writerReceive, bind, deref.
  destruct (heap h !! client) as [c|] eqn:Hc; [|done].
  destruct (Chan.buf (Client.Send c)) as [|d rest].
  - unfold ret. by intros [= <-].
  - rewrite (setSend_eq _ _ c) by done. intros [= <-].
    by apply (hub_wf_set_client h client c).
Qed.

Lemma broadcastStatus_wf username online order h h' :
  hub_wf h → broadcastStatus username online order h = Ok () h' → hub_wf h'.
Proof.
  apply broadcastStatus_preserves. intros. by eapply sendToClient_wf.
Qed.

Lemma unregisterClient_stale h client c now order :
  heap h !! client = Some c → Clients h !! Client.Username c ≠ Some client →
  unregisterClient client now order h = Ok () h.
Proof.
  intros Hc Hne. unfold unregisterClient, bind at 1, deref. rewrite Hc.
  unfold bind, get. by rewrite decide_False.
Qed.

Lemma unregisterClient_current h client c now order :
  heap h !! client = Some c → Clients h !! Client.Username c = Some client →
  unregisterClient client now order h =
  broadcastStatus (Client.Username c) false order (unregisterPrefix h client c now).
Proof.
  intros Hc Hreg. unfold unregisterClient, bind at 1, deref. rewrite Hc.
  unfold bind at 1, get. rewrite decide_True by done.
  unfold unregisterPrefix, afterSelect, bind, modify.
  destruct (Users h !! Client.Username c) as [user|]; unfold ret;
    unfold chan_tryRecv;
    destruct (Chan.buf (Client.Send c)) as [|d rest] eqn:Hbuf.
  - destruct (Chan.closed (Client.Send c)) eqn:Hcl.
    + by rewrite (setSend_eq _ _ c) by done.
    + unfold closeSend, bind, deref. simpl. rewrite Hc. unfold chan_close. rewrite Hcl.
      rewrite (setSend_eq _ _ c) by done. unfold closeQueue. by rewrite Hbuf.
  - by rewrite (setSend_eq _ _ c) by done.
  - destruct (Chan.closed (Client.Send c)) eqn:Hcl.
    + by rewrite (setSend_eq _ _ c) by done.
    + unfold closeSend, bind, deref. simpl. rewrite Hc. unfold chan_close. rewrite Hcl.
      rewrite (setSend_eq _ _ c) by done. unfold closeQueue. by rewrite Hbuf.
  - by rewrite (setSend_eq _ _ c) by done.
Qed.

Lemma unregisterPrefix_wf h client c now :
  hub_wf h → heap h !! client = Some c → Clients h !! Client.Username c = Some client →
  hub_wf (unregisterPrefix h client c now).
Proof.
  intros Hwf Hc Hreg. apply (hub_wf_intro h); [done|..].
  - unfold unregisterPrefix, users_keyed.
    destruct (Users h !! Client.Username c) as [user|] eqn:Hu; simpl; [|by apply Hwf].
    apply map_Forall_insert_2; [|by apply Hwf]. simpl.
    by apply (wf_users h Hwf) in Hu.
  - unfold unregisterPrefix, logs_keyed.
    destruct (Users h !! Client.Username c); simpl; by apply Hwf.
  - intros u p Hup.
    assert (Hup' : u ≠ Client.Username c ∧ Clients h !! u = Some p).
    { unfold unregisterPrefix in Hup.
      destruct (Users h !! Client.Username c); simpl in Hup;
        apply lookup_delete_Some in Hup as [Hne Hup]; (split; [congruence | done]). }
    destruct Hup' as [Hne Hup'].
    assert (p ≠ client) by (intros ->; by apply Hne, (registered_inj h u _ client)).
    pose proof (wf_clients h Hwf u p Hup') as Hok.
    pose proof (wf_presence h Hwf u p Hup') as Hpr.
    unfold unregisterPrefix, registered_ok, presence_ok in *.
    destruct (Users h !! Client.Username c); simpl;
      rewrite ?lookup_insert_ne by done; done.
Qed.

Lemma unregisterClient_wf client now order h h' :
  hub_wf h → unregisterClient client now order h = Ok () h' → hub_wf h'.
Proof.
  intros Hwf Hrun. destruct (heap h !! client) as [c|] eqn:Hc.
  2: { unfold unregisterClient, bind, deref in Hrun. by rewrite Hc in Hrun. }
  destruct (decide (Clients h !! Client.Username c = Some client)) as [Hreg|Hne].
  - rewrite (unregisterClient_current h client c) in Hrun by done.
    eapply broadcastStatus_wf; [|exact Hrun]. by apply unregisterPrefix_wf.
  - rewrite (unregisterClient_stale h client c) in Hrun by done. by injection Hrun as <-.
Qed.

Lemma registerClient_unfold h client c now orderC orderU :
  hub_wf h → heap h !! client = Some c →
  registerClient client now orderC orderU h =
  (broadcastStatus (Client.Username c) true orderC ;;
   presenceSnapshot client (Client.Username c) orderU ;;
   ret true) (registerPrefix h client c now).
Proof.
  intros Hwf Hc. unfold registerClient, bind at 1, deref. rewrite Hc.
  unfold bind at 1, get. unfold bind at 1.
  unfold registerPrefix.
  destruct (Clients h !! Client.Username c) as [old|] eqn:Hold.
  - pose proof (wf_presence h Hwf _ _ Hold) as Hpr. unfold presence_ok in Hpr.
    destruct (Users h !! Client.Username c) as [user|] eqn:Hu; [|done].
    destruct Hpr as [_ Hconn]. rewrite decide_True by congruence.
    destruct (registered_lookup h _ _ Hwf Hold) as (co & Hco & _ & Hopen).
    rewrite Hco. unfold closeSend, bind, deref. rewrite Hco.
    unfold chan_close. rewrite Hopen. rewrite (setSend_eq _ _ co) by done.
    unfold modify, get. simpl. by rewrite Hu.
  - assert (Hskip : match Users h !! Client.Username c with
                    | Some user =>
                        if decide (User.CurrentConn user ≠ None) then ret () else ret ()
                    | None => ret ()
                    end h = Ok () h).
    { destruct (Users h !! _); [case_decide|]; done. }
    rewrite Hskip. unfold bind, modify, get. simpl.
    by destruct (Users h !! Client.Username c).
Qed.

Lemma registerPrefix_wf h client c now :
  hub_wf h → heap h !! client = Some c → isOpen c →
  Clients h !! Client.Username c ≠ Some client →
  hub_wf (registerPrefix h client c now).
Proof.
  intros Hwf Hc Hopen Hfresh. set (u := Client.Username c) in *.
  assert (Hclients : ∀ u' p, Clients (registerPrefix h client c now) !! u' = Some p →
            (u' = u ∧ p = client) ∨ (u' ≠ u ∧ Clients h !! u' = Some p)).
  { intros u' p. unfold registerPrefix. fold u. simpl.
    destruct (decide (u' = u)) as [->|Hne].
    - rewrite lookup_insert_eq. intros [= <-]. by left.
    - rewrite lookup_insert_ne by done. intros Hp. right. split; [done|].
      destruct (Clients h !! u) as [old|]; [|done].
      destruct (heap h !! old); [|done]. simpl in Hp.
      by rewrite lookup_delete_ne in Hp. }
  assert (Hheap : ∀ p, (∀ old, Clients h !! u = Some old → p ≠ old) →
            heap (registerPrefix h client c now) !! p = heap h !! p).
  { intros p Hp. unfold registerPrefix. fold u. simpl.
    destruct (Clients h !! u) as [old|]; [|done].
    destruct (heap h !! old); [|done]. simpl.
    rewrite lookup_insert_ne; [done|]. intros ->. by eapply Hp. }
  assert (Husers : Users (registerPrefix h client c now) =
            <[u := User.mk (match Users h !! u with
                            | Some user => User.Username user
                            | None => u
                            end) true (Some client) now]> (Users h)).
  { unfold registerPrefix. fold u. simpl.
    destruct (Clients h !! u) as [old|]; [|done]. by destruct (heap h !! old). }
  assert (Hlogs : Conversations (registerPrefix h client c now) = Conversations h).
  { unfold registerPrefix. fold u. simpl.
    destruct (Clients h !! u) as [old|]; [|done]. by destruct (heap h !! old). }
  apply (hub_wf_intro h); [done|..].
  - unfold users_keyed. rewrite Husers. apply map_Forall_insert_2; [|by apply Hwf]. simpl.
    destruct (Users h !! u) as [user|] eqn:Hu; [|done]. by apply (wf_users h Hwf) in Hu.
  - unfold logs_keyed. rewrite Hlogs. by apply Hwf.
  - intros u' p Hup. unfold registered_ok, presence_ok. rewrite Husers.
    apply Hclients in Hup as [[-> ->]|[Hne Hup]].
    + rewrite lookup_insert_eq. rewrite Hheap, Hc; [done|]. intros old Hold ->. done.
    + rewrite lookup_insert_ne by done.
      pose proof (wf_clients h Hwf u' p Hup) as Hok.
      pose proof (wf_presence h Hwf u' p Hup) as Hpr.
      rewrite Hheap; [done|]. intros old Hold ->.
      by apply Hne, (registered_inj h u' u old).
Qed.

Lemma presenceSnapshot_wf client username orderU h h' :
  hub_wf h → presenceSnapshot client username orderU h = Ok () h' → hub_wf h'.
Proof.
  unfold presenceSnapshot. apply rangeMap_preserves.
  intros k v h1 h2 Hwf1. case_decide; [by apply sendToClient_wf|].
  unfold ret. by intros [= <-].
Qed.

Lemma registerClient_wf client c now orderC orderU h b h' :
  hub_wf h → heap h !! client = Some c → isOpen c →
  Clients h !! Client.Username c ≠ Some client →
  registerClient client now orderC orderU h = Ok b h' → hub_wf h'.
Proof.
  intros Hwf Hc Hopen Hfresh Hrun.
  rewrite (registerClient_unfold h client c) in Hrun by done.
  pose proof (registerPrefix_wf h client c now Hwf Hc Hopen Hfresh) as Hwf0.
  bind_inv Hrun. apply broadcastStatus_wf in Hrun0; [|done].
  bind_inv Hrun. apply presenceSnapshot_wf in Hrun1; [|done].
  unfold ret in Hrun. by injection Hrun as _ <-.
Qed.

Lemma connect_wf client username now orderC orderU h b h' :
  hub_wf h → connect client username now orderC orderU h = Ok b h' → hub_wf h'.
Proof.
  intros Hwf. unfold connect, bind at 1, get.
  destruct (heap h !! client) as [c|] eqn:Hc; [done|].
  unfold bind, modify. intros Hrun.
  assert (Hfresh : ∀ u, Clients h !! u ≠ Some client).
  { intros u Hu. destruct (registered_lookup h u client Hwf Hu) as (c & Hc' & _).
    congruence. }
  eapply (registerClient_wf client (Client.mk username (Chan.make sendQueueSize)));
    [| | | |exact Hrun].
  - by apply hub_wf_set_unregistered.
  - simpl. by rewrite lookup_insert_eq.
  - done.
  - simpl. apply Hfresh.
Qed.

Lemma step_wf h h' : hub_wf h → step h h' → hub_wf h'.
Proof.
  intros Hwf [client username now oC oU b _ Hrun | client now order Hrun
             | from msg id now Hrun | event Hrun | client Hrun].
  - by eapply connect_wf.
  - by eapply unregisterClient_wf.
  - by eapply handleInboundMessageWithSender_wf.
  - by eapply handleTypingEvent_wf.
  - by eapply writerReceive_wf.
Qed.

Lemma NewHub_wf : hub_wf NewHub.
Proof. split; apply map_Forall_empty. Qed.

Lemma steps_wf h h' : hub_wf h → rtc step h h' → hub_wf h'.
Proof. intros Hwf Hsteps. induction Hsteps as [|h1 h2 h3 Hstep _ IH]; [done|]. eauto using step_wf. Qed.

(** The invariant holds in every state the hub can be in. *)
Lemma reachable_wf h : reachable h → hub_wf h.
Proof. apply steps_wf, NewHub_wf. Qed.

(** ** The effect of a broadcast *)

Lemma forEach_run {A} (Q : list A → Hub → Prop) (l : list A) (body : A → M unit) h :
  Q [] h →
  (∀ seen x rest h1, l = seen ++ x :: rest → Q seen h1 →
     ∃ h2, body x h1 = Ok () h2 ∧ Q (seen ++ [x]) h2) →
  ∃ h', forEach l body h = Ok () h' ∧ Q l h'.
Proof.
  intros Hinit Hstep.
  assert (H : ∀ rest seen h1, l = seen ++ rest → Q seen h1 →
            ∃ h', forEach rest body h1 = Ok () h' ∧ Q l h').
  { induction rest as [|x rest IH]; intros seen h1 Hl HQ; simpl.
    - rewrite app_nil_r in Hl. subst. by exists h1.
    - destruct (Hstep seen x rest h1 Hl HQ) as (h2 & Hx & HQ2).
      unfold bind. rewrite Hx.
      apply (IH (seen ++ [x])); [by rewrite <- app_assoc | done]. }
  by apply (H l []).
Qed.

Lemma sendToClient_deliver h client c msgType payload :
  heap h !! client = Some c → isOpen c →
  sendToClient client msgType payload h =
  Ok () (if decide (hasSpace c)
         then set_heap (<[client := deliver (WSMessage.mk msgType payload) c]>) h
         else set_Clients (delete (Client.Username c))
                (set_heap (<[client := deliver (WSMessage.mk msgType payload) c]>) h)).
Proof.
  intros Hc Hopen. unfold deliver. case_decide as Hsp.
  - apply sendToClient_queued; [done|]. split; [done|]. unfold hasSpace in Hsp. lia.
  - apply sendToClient_full; [done..|]. unfold isFull, hasSpace in *. lia.
Qed.

Lemma bcastInv_init h0 username data : hub_wf h0 → bcastInv h0 username data [] h0.
Proof.
  intros Hwf. split; try done. intros u p c _ _ Hu. by apply elem_of_nil in Hu.
Qed.

Lemma bcastInv_skip h0 username data seen x h1 :
  (Clients h0 !! x = None ∨ x = username) →
  bcastInv h0 username data seen h1 → bcastInv h0 username data (seen ++ [x]) h1.
Proof.
  intros Hx [Hwf HU HL Hpend Hdone Habs Hoth]. split; try done.
  - intros u p Hu [Hns | ->]; apply Hpend; try done; [|by right].
    left. intros Hin. apply Hns, elem_of_app. by left.
  - intros u p c Hu Hc [Hin|Hin%list_elem_of_singleton]%elem_of_app Hne; [by apply Hdone|].
    subst u. destruct Hx; congruence.
Qed.

Lemma bcastInv_send h0 username data seen x p h1 :
  hub_wf h0 → x ∉ seen → x ≠ username → Clients h0 !! x = Some p →
  bcastInv h0 username data seen h1 →
  ∃ h2, sendToClient p (WSMessage.Kind data) (WSMessage.Payload data) h1 = Ok () h2 ∧
        bcastInv h0 username data (seen ++ [x]) h2.
Proof.
  intros Hwf0 Hx Hne Hxp Hinv.
  destruct (registered_lookup h0 x p Hwf0 Hxp) as (c & Hc & Hname & Hopen).
  destruct Hinv as [Hwf HU HL Hpend Hdone Habs Hoth].
  destruct (Hpend x p Hxp) as [Hx1 Hp1]; [by left|]. rewrite Hc in Hp1.
  eexists. split; [by apply sendToClient_deliver|].
  assert (Hdata : WSMessage.mk (WSMessage.Kind data) (WSMessage.Payload data) = data)
    by by destruct data.
  rewrite Hdata, Hname.
  assert (Hother : ∀ u q, Clients h0 !! u = Some q → u ≠ x → q ≠ p).
  { intros u q Hu Hux ->. by apply Hux, (registered_inj h0 u x p). }
  split.
  - eapply sendToClient_wf; [exact Hwf|].
    rewrite (sendToClient_deliver h1 p c) by done. by rewrite Hdata, Hname.
  - by destruct (decide (hasSpace c)).
  - by destruct (decide (hasSpace c)).
  - intros u q Hu Hcase.
    assert (u ≠ x).
    { destruct Hcase as [Hns | ->]; [|done]. intros ->. apply Hns, elem_of_app. right.
      by apply list_elem_of_singleton. }
    destruct (Hpend u q Hu) as [Hu1 Hq1].
    { destruct Hcase as [Hns|?]; [|by right]. left. intros Hin. apply Hns, elem_of_app.
      by left. }
    assert (q ≠ p) by by eapply Hother.
    destruct (decide (hasSpace c)); simpl; rewrite ?lookup_delete_ne, ?lookup_insert_ne by done; done.
  - intros u q cq Hu Hcq [Hin|Hin%list_elem_of_singleton]%elem_of_app Hun.
    + assert (u ≠ x) by (by intros ->).
      assert (q ≠ p) by by eapply Hother.
      destruct (Hdone u q cq Hu Hcq Hin Hun) as [Hq1 Hu1].
      split.
      * destruct (decide (hasSpace c)); simpl; rewrite lookup_insert_ne by done; done.
      * rewrite <- Hu1. destruct (decide (hasSpace c)); simpl; rewrite ?lookup_delete_ne by done; done.
    + subst u. assert (q = p) as -> by congruence. assert (cq = c) as -> by congruence.
      destruct (decide (hasSpace c)); simpl; rewrite lookup_insert_eq, ?lookup_delete_eq; done.
  - intros u Hu. apply Habs in Hu.
    destruct (decide (hasSpace c)); simpl; [done|]. apply lookup_delete_None. by right.
  - intros q Hq. assert (q ≠ p) by (intros ->; by eapply Hq).
    destruct (decide (hasSpace c)); simpl; rewrite lookup_insert_ne by done; by apply Hoth.
Qed.

Lemma broadcastStatus_spec h username online order :
  hub_wf h →
  ∃ h', broadcastStatus username online order h = Ok () h' ∧
        bcastInv h username (statusFrame username online)
          (rangeOrder order (Clients h)) h'.
Proof.
  intros Hwf. unfold broadcastStatus, rangeMap, bind at 1, get at 1.
  apply forEach_run; [by apply bcastInv_init|].
  intros seen x rest h1 Hl Hinv.
  assert (Hx : x ∉ seen).
  { pose proof (rangeOrder_NoDup order (Clients h)) as Hnd. rewrite Hl in Hnd.
    apply NoDup_app in Hnd as (_ & Hnd & _). intros Hin. apply (Hnd x Hin). by left. }
  unfold bind, get.
  destruct (Clients h !! x) as [p|] eqn:Hxp.
  - destruct (bc_pending _ _ _ _ _ Hinv x p Hxp) as [-> _]; [by left|].
    case_decide as Hne.
    + by apply (bcastInv_send h username (statusFrame username online) seen x p h1).
    + exists h1. split; [done|]. apply bcastInv_skip; [|done]. right.
      by destruct (decide (x = username)).
  - rewrite (bc_absent _ _ _ _ _ Hinv x Hxp).
    exists h1. split; [done|]. apply bcastInv_skip; [by left|done].
Qed.

(** ** unregisterClient *)

Lemma unregisterPrefix_Clients h client c now :
  Clients (unregisterPrefix h client c now) = delete (Client.Username c) (Clients h).
Proof. unfold unregisterPrefix. by destruct (Users h !! _). Qed.

Lemma unregisterPrefix_heap h client c now :
  heap (unregisterPrefix h client c now) = <[client := afterSelect c]> (heap h).
Proof. unfold unregisterPrefix. by destruct (Users h !! _). Qed.

Lemma unregisterPrefix_Conversations h client c now :
  Conversations (unregisterPrefix h client c now) = Conversations h.
Proof. unfold unregisterPrefix. by destruct (Users h !! _). Qed.

Lemma unregisterPrefix_Users h client c now user :
  Users h !! Client.Username c = Some user →
  Users (unregisterPrefix h client c now) =
  <[Client.Username c := User.mk (User.Username user) false None now]> (Users h).
Proof. intros Hu. unfold unregisterPrefix. by rewrite Hu. Qed.

(** C4, as amended.  An unregister call for a connection that is not the one
    registered for its identity leaves the whole hub state as it was.  For
    the registered connection, in a well-formed hub, the call removes the
    connection from the client table, marks the presence of the identity
    offline with the time of the call as lastSeen, closes the queue of the
    connection when the queue holds no pending frame, and queues one offline
    status envelope for every other registered identity whose queue has
    space, which stays registered. *)
Theorem unregisterClient_effect (h : Hub) (client : ptr) (c : Client.t) (now : Time)
    (order : list string) :
  hub_wf h → heap h !! client = Some c →
  let u := Client.Username c in
  (Clients h !! u ≠ Some client → unregisterClient client now order h = Ok () h) ∧
  (Clients h !! u = Some client →
   ∃ h', unregisterClient client now order h = Ok () h' ∧
     (∀ u', Clients h' !! u' ≠ Some client) ∧
     Users h' !! u = Some (User.mk u false None now) ∧
     (∀ u', u' ≠ u → Users h' !! u' = Users h !! u') ∧
     (Chan.buf (Client.Send c) = [] → queueClosed h' client) ∧
     (∀ u' p' c', u' ≠ u → Clients h !! u' = Some p' → heap h !! p' = Some c' →
        hasSpace c' →
        Clients h' !! u' = Some p' ∧
        queueOf h' p' = queueOf h p' ++ [statusFrame u false]) ∧
     Conversations h' = Conversations h).
Proof.
  intros Hwf Hc u. split; [by apply unregisterClient_stale|].
  intros Hreg. rewrite (unregisterClient_current h client c) by done. fold u.
  pose proof (unregisterPrefix_wf h client c now Hwf Hc Hreg) as Hwf0.
  set (h0 := unregisterPrefix h client c now) in *.
  destruct (broadcastStatus_spec h0 u false order Hwf0) as (h' & Hrun & Hinv).
  exists h'. split; [exact Hrun|].
  destruct Hinv as [Hwf' HU HL Hpend Hdone Habs Hoth].
  pose proof (wf_presence h Hwf u client Hreg) as Hpr. unfold presence_ok in Hpr.
  destruct (Users h !! u) as [user|] eqn:Huser; [|done].
  pose proof (wf_users h Hwf u user Huser) as Hname. simpl in Hname.
  assert (HC0 : Clients h0 = delete u (Clients h)) by apply unregisterPrefix_Clients.
  assert (HH0 : heap h0 = <[client := afterSelect c]> (heap h))
    by apply unregisterPrefix_heap.
  assert (HU0 : Users h0 = <[u := User.mk u false None now]> (Users h)).
  { unfold h0. rewrite (unregisterPrefix_Users h client c now user) by done.
    by rewrite Hname. }
  assert (Hgone : ∀ u', Clients h0 !! u' ≠ Some client).
  { intros u'. rewrite HC0. intros [Hne Hu']%lookup_delete_Some.
    by apply Hne, (registered_inj h u u' client). }
  split_and!.
  - intros u' Hu'. destruct (Clients h0 !! u') as [q|] eqn:Hq.
    2: { apply Habs in Hq. congruence. }
    assert (u' ≠ u).
    { intros ->. rewrite HC0, lookup_delete_eq in Hq. done. }
    destruct (registered_lookup h0 u' q Hwf0 Hq) as (cq & Hcq & _).
    destruct (Hdone u' q cq Hq Hcq) as [_ Hu'']; [|done|].
    { apply rangeOrder_elem_of. by eexists. }
    rewrite Hu' in Hu''. destruct (decide (hasSpace cq)); [|done].
    injection Hu'' as ->. by eapply Hgone.
  - rewrite HU, HU0. apply lookup_insert_eq.
  - intros u' Hne. rewrite HU, HU0. by rewrite lookup_insert_ne.
  - intros Hbuf. exists (closeQueue c). split; [|done].
    rewrite (Hoth client Hgone), HH0, lookup_insert_eq.
    unfold afterSelect, chan_tryRecv. rewrite Hbuf.
    destruct (registered_lookup h u client Hwf Hreg) as (c' & Hc' & _ & Hopen).
    assert (c' = c) as -> by congruence. by rewrite Hopen.
  - intros u' p' c' Hne Hu' Hc' Hsp.
    assert (p' ≠ client) by (intros ->; by apply Hne, (registered_inj h u' u client)).
    assert (Hq0 : Clients h0 !! u' = Some p') by (by rewrite HC0, lookup_delete_ne).
    assert (Hc0 : heap h0 !! p' = Some c') by (by rewrite HH0, lookup_insert_ne).
    destruct (Hdone u' p' c' Hq0 Hc0) as [Hheap Hcl]; [|done|].
    { apply rangeOrder_elem_of. by eexists. }
    unfold deliver in Hheap. rewrite decide_True in Hheap by done.
    rewrite decide_True in Hcl by done.
    split; [done|]. unfold queueOf. by rewrite Hheap, Hc'.
  - rewrite HL. apply unregisterPrefix_Conversations.
Qed.

(** ** registerClient *)

Lemma onlineOthers_range h username order :
  length (snapshotFrames h username (rangeOrder order (Users h))) = onlineOthers h username.
Proof.
  unfold snapshotFrames, onlineOthers. rewrite length_fmap.
  apply Permutation_length. by rewrite rangeOrder_perm.
Qed.

Lemma set_heap_id h client c : heap h !! client = Some c → set_heap (<[client := c]>) h = h.
Proof. intros Hc. destruct h as [C U L H]. unfold set_heap. simpl in *. by rewrite insert_id. Qed.

Lemma set_heap_twice h client c c' :
  set_heap (<[client := c']>) (set_heap (<[client := c]>) h) = set_heap (<[client := c']>) h.
Proof. unfold set_heap. simpl. by rewrite insert_insert_eq. Qed.

Lemma presenceSnapshot_spec h client c username orderU :
  heap h !! client = Some c → isOpen c →
  (length (Chan.buf (Client.Send c)) + onlineOthers h username ≤ Chan.cap (Client.Send c))%nat →
  presenceSnapshot client username orderU h =
  Ok () (set_heap (<[client :=
           addFrames (snapshotFrames h username (rangeOrder orderU (Users h))) c]>) h).
Proof.
  intros Hc Hopen Hroom. unfold presenceSnapshot, rangeMap, bind at 1, get at 1.
  rewrite <- (onlineOthers_range h username orderU) in Hroom.
  set (l := rangeOrder orderU (Users h)) in *.
  destruct (forEach_run
    (λ seen h1, h1 = set_heap (<[client := addFrames (snapshotFrames h username seen) c]>) h)
    l (λ k, do h' <- get;
            match Users h' !! k with
            | Some user =>
                if decide (k ≠ username ∧ User.Online user = true)
                then sendToClient client "status" (PStatus (StatusEvent.mk k true))
                else ret ()
            | None => ret ()
            end) h) as (h' & Hrun & ->); [| |exact Hrun].
  - unfold snapshotFrames. simpl. by rewrite addFrames_nil, set_heap_id.
  - intros seen x rest h1 Hl ->. unfold bind, get. simpl.
    assert (Hlen : (length (snapshotFrames h username (seen ++ [x])) ≤
                    length (snapshotFrames h username l))%nat).
    { rewrite Hl. unfold snapshotFrames. rewrite !length_fmap.
      replace (seen ++ x :: rest) with ((seen ++ [x]) ++ rest) by by rewrite <- app_assoc.
      rewrite (filter_app _ (seen ++ [x]) rest), length_app. lia. }
    assert (Hsnap : snapshotFrames h username (seen ++ [x]) =
              snapshotFrames h username seen ++
              (if decide (isOnlineOther h username x) then [statusFrame x true] else [])).
    { unfold snapshotFrames. rewrite filter_app, fmap_app. f_equal.
      rewrite filter_cons. by case_decide. }
    rewrite Hsnap in *.
    destruct (Users h !! x) as [user|] eqn:Hx.
    + destruct (decide (x ≠ username ∧ User.Online user = true)) as [[Hne Hon]|Hoff].
      * rewrite decide_True in Hsnap, Hlen |- * by (split; [done|by rewrite Hx; simpl; f_equal]).
        rewrite length_app in Hlen. simpl in Hlen.
        erewrite sendToClient_queued.
        -- eexists. split; [reflexivity|].
           by rewrite set_heap_twice, enqueue_addFrames.
        -- simpl. apply lookup_insert_eq.
        -- apply hasRoomFor_addFrames. split; [done|]. lia.
      * rewrite decide_False.
        2: { intros [Hne Hon]. apply Hoff. split; [done|]. rewrite Hx in Hon.
             by injection Hon. }
        eexists. split; [reflexivity|]. by rewrite app_nil_r.
    + rewrite decide_False by (intros [_ Hon]; by rewrite Hx in Hon).
      eexists. split; [reflexivity|]. by rewrite app_nil_r.
Qed.

Lemma presenceSnapshot_loop client username orderU h :
  presenceSnapshot client username orderU h =
  snapshotLoop client username (rangeOrder orderU (Users h)) h.
Proof. reflexivity. Qed.

Lemma snapshotLoop_nil client username h : snapshotLoop client username [] h = Ok () h.
Proof. reflexivity. Qed.

Lemma snapshotLoop_cons h0 client username k l g :
  Users g = Users h0 →
  snapshotLoop client username (k :: l) g =
  if decide (isOnlineOther h0 username k)
  then match sendToClient client "status" (PStatus (StatusEvent.mk k true)) g with
       | Ok _ g' => snapshotLoop client username l g'
       | Panic => Panic
       end
  else snapshotLoop client username l g.
Proof.
  intros HU. unfold snapshotLoop. simpl. unfold bind at 1 2, get. rewrite HU.
  destruct (decide (isOnlineOther h0 username k)) as [[Hne Hon]|Hoff].
  - destruct (Users h0 !! k) as [user|]; [|done]. injection Hon as Hon.
    rewrite decide_True by done.
    by destruct (sendToClient _ _ _ g) as [[] g'|].
  - destruct (Users h0 !! k) as [user|] eqn:Hk; [|done].
    rewrite decide_False; [done|]. intros [Hne Hon]. apply Hoff. split; [done|].
    rewrite Hk. simpl. by f_equal.
Qed.

Lemma snapshotLoop_closed h0 client username c l g :
  Users g = Users h0 → heap g !! client = Some c → Chan.closed (Client.Send c) = true →
  snapshotLoop client username l g =
  if decide (filter (isOnlineOther h0 username) l = []) then Ok () g else Panic.
Proof.
  intros HU Hc Hcl. induction l as [|k l IH]; [done|].
  rewrite (snapshotLoop_cons h0) by done. rewrite filter_cons.
  destruct (decide (isOnlineOther h0 username k)).
  - by rewrite (sendToClient_closed g client c).
  - exact IH.
Qed.

Lemma snapshotLoop_overflow h0 client username l : ∀ g c,
  Users g = Users h0 → heap g !! client = Some c → isOpen c →
  (length (Chan.buf (Client.Send c)) ≤ Chan.cap (Client.Send c))%nat →
  let demand := (length (Chan.buf (Client.Send c)) +
                 length (filter (isOnlineOther h0 username) l))%nat in
  (demand = S (Chan.cap (Client.Send c)) →
   ∃ g', snapshotLoop client username l g = Ok () g' ∧
         Clients g' !! Client.Username c = None ∧ queueClosed g' client) ∧
  ((S (Chan.cap (Client.Send c)) < demand)%nat →
   snapshotLoop client username l g = Panic).
Proof.
  induction l as [|k l IH]; intros g c HU Hc Hopen Hlen demand; subst demand.
  { simpl. split; intros Hd; lia. }
  rewrite (snapshotLoop_cons h0) by done. rewrite filter_cons.
  destruct (decide (isOnlineOther h0 username k)) as [Hon|Hoff]; [|by apply IH].
  simpl length.
  destruct (room_or_full c Hopen) as [Hroom|Hfull].
  - rewrite (sendToClient_queued g client c) by done.
    set (d := WSMessage.mk _ _).
    destruct (IH (set_heap (<[client := enqueue d c]>) g) (enqueue d c)) as [IH1 IH2];
      [done | apply lookup_insert_eq | done | |].
    { destruct Hroom as [_ Hroom]. simpl. rewrite length_app. simpl. lia. }
    simpl in IH1, IH2. rewrite length_app in IH1, IH2. simpl in IH1, IH2.
    split; intros Hd; [apply IH1 | apply IH2]; lia.
  - rewrite (sendToClient_full g client c) by done.
    set (g' := set_Clients _ _).
    rewrite (snapshotLoop_closed h0 client username (closeQueue c) l g');
      [|done|apply lookup_insert_eq|done].
    unfold isFull in Hfull. split; intros Hd.
    + rewrite decide_True by (apply length_zero_iff_nil; lia).
      exists g'. split; [done|]. split.
      * apply lookup_delete_eq.
      * exists (closeQueue c). split; [apply lookup_insert_eq|done].
    + rewrite decide_False; [done|]. intros Hnil. rewrite Hnil in Hd. simpl in Hd. lia.
Qed.

(** The presence snapshot when the queue of the new connection cannot take
    it.  With one frame too many, the last send closes the queue and removes
    the connection; with more, the send that follows is on the closed queue. *)
Lemma presenceSnapshot_overflow h client c username orderU :
  heap h !! client = Some c → isOpen c →
  (length (Chan.buf (Client.Send c)) ≤ Chan.cap (Client.Send c))%nat →
  let demand := (length (Chan.buf (Client.Send c)) + onlineOthers h username)%nat in
  (demand = S (Chan.cap (Client.Send c)) →
   ∃ h', presenceSnapshot client username orderU h = Ok () h' ∧
         Clients h' !! Client.Username c = None ∧ queueClosed h' client) ∧
  ((S (Chan.cap (Client.Send c)) < demand)%nat →
   presenceSnapshot client username orderU h = Panic).
Proof.
  intros Hc Hopen Hlen demand. subst demand.
  rewrite <- (onlineOthers_range h username orderU). unfold snapshotFrames.
  rewrite length_fmap, presenceSnapshot_loop.
  by apply (snapshotLoop_overflow h).
Qed.

Lemma registerClient_returns_true client now orderC orderU h b h' :
  registerClient client now orderC orderU h = Ok b h' → b = true.
Proof.
  intros Hrun. unfold registerClient in Hrun.
  repeat bind_inv Hrun. unfold ret in Hrun. by injection Hrun as <- _.
Qed.

Lemma bcastInv_sub h0 username data order h1 u q :
  hub_wf h0 → bcastInv h0 username data (rangeOrder order (Clients h0)) h1 →
  Clients h1 !! u = Some q → Clients h0 !! u = Some q.
Proof.
  intros Hwf0 [_ _ _ Hpend Hdone Habs _] Hu.
  destruct (Clients h0 !! u) as [p|] eqn:Hp.
  2: { apply Habs in Hp. congruence. }
  destruct (decide (u = username)) as [->|Hne].
  - destruct (Hpend username p Hp) as [Hp1 _]; [by right|]. congruence.
  - destruct (registered_lookup h0 u p Hwf0 Hp) as (c & Hc & _).
    destruct (Hdone u p c Hp Hc) as [_ Hu1]; [|done|].
    { apply rangeOrder_elem_of. by eexists. }
    rewrite Hu in Hu1. by destruct (decide (hasSpace c)).
Qed.

Lemma registerPrefix_Users h client c now :
  Users (registerPrefix h client c now) =
  <[Client.Username c :=
      User.mk (match Users h !! Client.Username c with
               | Some user => User.Username user
               | None => Client.Username c
               end) true (Some client) now]> (Users h).
Proof.
  unfold registerPrefix. simpl.
  destruct (Clients h !! _) as [old|]; [|done]. by destruct (heap h !! old).
Qed.

Lemma registerPrefix_Clients h client c now u :
  Clients (registerPrefix h client c now) !! u =
  if decide (u = Client.Username c) then Some client else Clients h !! u.
Proof.
  unfold registerPrefix. simpl. case_decide as Hu.
  - subst u. apply lookup_insert_eq.
  - rewrite lookup_insert_ne by done.
    destruct (Clients h !! Client.Username c) as [old|]; [|done].
    destruct (heap h !! old); [|done]. simpl. by rewrite lookup_delete_ne.
Qed.

Lemma registerPrefix_heap_other h client c now p :
  (∀ old, Clients h !! Client.Username c = Some old → p ≠ old) →
  heap (registerPrefix h client c now) !! p = heap h !! p.
Proof.
  intros Hp. unfold registerPrefix. simpl.
  destruct (Clients h !! Client.Username c) as [old|]; [|done].
  destruct (heap h !! old); [|done]. simpl.
  rewrite lookup_insert_ne; [done|]. intros ->. by eapply Hp.
Qed.

Lemma registerPrefix_heap_old h client c now old :
  hub_wf h → Clients h !! Client.Username c = Some old →
  queueClosed (registerPrefix h client c now) old.
Proof.
  intros Hwf Hold. destruct (registered_lookup h _ old Hwf Hold) as (co & Hco & _).
  exists (closeQueue co). split; [|done].
  unfold registerPrefix. rewrite Hold, Hco. simpl. apply lookup_insert_eq.
Qed.

Lemma onlineOthers_agree h h' u :
  (∀ k, k ≠ u → Users h' !! k = Users h !! k) → onlineOthers h' u = onlineOthers h u.
Proof.
  intros HU. unfold onlineOthers. apply Permutation_length, NoDup_Permutation.
  - apply NoDup_filter, NoDup_fst_map_to_list.
  - apply NoDup_filter, NoDup_fst_map_to_list.
  - assert (Hkeys : ∀ (g : Hub) k, isOnlineOther g u k →
              k ∈ (map_to_list (Users g)).*1).
    { intros g k [_ Hon]. destruct (Users g !! k) as [user|] eqn:Hk; [|done].
      apply list_elem_of_fmap. exists (k, user). split; [done|].
      by apply elem_of_map_to_list. }
    intros k. rewrite !list_elem_of_filter.
    assert (isOnlineOther h' u k ↔ isOnlineOther h u k) as Hiff.
    { unfold isOnlineOther. split; intros [Hne Hon]; split; try done.
      - by rewrite <- HU.
      - by rewrite HU. }
    split; intros [Hon _]; (split; [by apply Hiff | apply Hkeys; by apply Hiff]).
Qed.

Lemma sendToClient_other h client msgType payload h' other :
  client ≠ other → sendToClient client msgType payload h = Ok () h' →
  heap h' !! other = heap h !! other ∧
  (∀ u q, Clients h' !! u = Some q → Clients h !! u = Some q).
Proof.
  intros Hne Hrun.
  apply sendToClient_cases in Hrun as (c & Hc & Hopen & [[Hroom ->]|[Hfull ->]]); simpl.
  - by rewrite lookup_insert_ne.
  - rewrite lookup_insert_ne by done. split; [done|].
    intros u q Hu. by apply lookup_delete_Some in Hu as [_ Hu].
Qed.

(** The presence snapshot leaves every connection but the new one as it
    was, and registers none. *)
Lemma presenceSnapshot_other client username orderU h h' other :
  client ≠ other → presenceSnapshot client username orderU h = Ok () h' →
  heap h' !! other = heap h !! other ∧
  (∀ u q, Clients h' !! u = Some q → Clients h !! u = Some q).
Proof.
  intros Hne. unfold presenceSnapshot.
  apply (rangeMap_preserves (λ g, heap g !! other = heap h !! other ∧
           ∀ u q, Clients g !! u = Some q → Clients h !! u = Some q)); [|done].
  intros k v h1 h2 [Hheap Hsub]. case_decide.
  - intros Hrun. destruct (sendToClient_other _ _ _ _ _ other Hne Hrun) as [Hh Hs].
    split; [congruence | auto].
  - unfold ret. by intros [= <-].
Qed.

(** C1, as amended.  [registerClient] never returns false: whenever it
    returns, it returns true.  In a well-formed hub, for a new connection
    (open, not yet registered): whenever the call returns, the hub is
    well-formed and a connection that was registered for the identity has
    its queue closed and is registered for no identity; and when the queue
    of the new connection can take the presence snapshot, the call returns
    and the new connection is the one registered for its identity.  In
    every state the hub can be in, an identity has one registered
    connection at most and a connection is registered for one identity at
    most. *)
Theorem registerClient_evicts (h : Hub) (client : ptr) (c : Client.t) (now : Time)
    (orderC orderU : list string) :
  (∀ b h', registerClient client now orderC orderU h = Ok b h' → b = true) ∧
  (hub_wf h → heap h !! client = Some c → isOpen c →
   Clients h !! Client.Username c ≠ Some client →
   (∀ b h', registerClient client now orderC orderU h = Ok b h' →
      hub_wf h' ∧
      ∀ old, Clients h !! Client.Username c = Some old →
        queueClosed h' old ∧ ∀ u, Clients h' !! u ≠ Some old) ∧
   ((length (Chan.buf (Client.Send c)) + onlineOthers h (Client.Username c)
       ≤ Chan.cap (Client.Send c))%nat →
    ∃ h', registerClient client now orderC orderU h = Ok true h' ∧
          Clients h' !! Client.Username c = Some client)) ∧
  (∀ g, reachable g →
     (∀ u p q, Clients g !! u = Some p → Clients g !! u = Some q → p = q) ∧
     (∀ u1 u2 p, Clients g !! u1 = Some p → Clients g !! u2 = Some p → u1 = u2)).
Proof.
  split; [intros b h'; apply registerClient_returns_true|]. split.
  2: { intros g Hg%reachable_wf. split; [intros u p q; congruence|].
       intros u1 u2 p. by apply registered_inj. }
  intros Hwf Hc Hopen Hfresh. set (u := Client.Username c) in *.
  rewrite (registerClient_unfold h client c) by done. fold u.
  pose proof (registerPrefix_wf h client c now Hwf Hc Hopen Hfresh) as Hwf0.
  set (h0 := registerPrefix h client c now) in *.
  assert (Hnew0 : Clients h0 !! u = Some client).
  { unfold h0. rewrite registerPrefix_Clients. by rewrite decide_True. }
  assert (Hc0 : heap h0 !! client = Some c).
  { unfold h0. rewrite registerPrefix_heap_other; [done|]. by intros old Hold ->. }
  destruct (broadcastStatus_spec h0 u true orderC Hwf0) as (h1 & Hrun1 & Hinv).
  pose proof (bc_wf _ _ _ _ _ Hinv) as Hwf1.
  destruct (bc_pending _ _ _ _ _ Hinv u client Hnew0) as [Hnew1 Hc1]; [by right|].
  rewrite Hc0 in Hc1.
  unfold bind. rewrite Hrun1. split.
  - intros b h' Hrun.
    destruct (presenceSnapshot client u orderU h1) as [[] h2|] eqn:Hrun2; [|done].
    unfold ret in Hrun. injection Hrun as _ <-.
    split; [by eapply presenceSnapshot_wf|].
    intros old Hold. assert (Hne : client ≠ old) by (by intros ->).
    assert (Hgone : ∀ u', Clients h0 !! u' ≠ Some old).
    { intros u'. unfold h0. rewrite registerPrefix_Clients. fold u.
      case_decide; [congruence|]. intros Hu'.
      by apply H, (registered_inj h u' u old). }
    destruct (presenceSnapshot_other _ _ _ _ _ old Hne Hrun2) as [Hheap Hsub].
    split.
    + destruct (registerPrefix_heap_old h client c now old Hwf Hold) as (co & Hco & Hcl).
      exists co. split; [|done].
      by rewrite Hheap, (bc_others _ _ _ _ _ Hinv old Hgone).
    + intros u' Hu'. apply Hsub in Hu'.
      by apply (bcastInv_sub h0 u _ orderC h1 u' old Hwf0 Hinv), Hgone in Hu'.
  - intros Hroom.
    assert (Hroom1 : (length (Chan.buf (Client.Send c)) + onlineOthers h1 u
                      ≤ Chan.cap (Client.Send c))%nat).
    { replace (onlineOthers h1 u) with (onlineOthers h u); [done|].
      symmetry. apply onlineOthers_agree. intros k Hk.
      rewrite (bc_users _ _ _ _ _ Hinv). unfold h0.
      rewrite registerPrefix_Users. by rewrite lookup_insert_ne. }
    rewrite (presenceSnapshot_spec h1 client c u orderU Hc1 Hopen Hroom1).
    unfold ret. eexists. split; [reflexivity|]. done.
Qed.

(** A remark on overflow in a registration.  When the identities marked
    online are one more than the queue of the new connection can take, the
    last frame of the snapshot closes the queue and removes the connection,
    and the call still returns true; when they are more, the frame after
    that is sent on the closed queue. *)
Lemma registerClient_snapshot_overflow h client c now orderC orderU :
  hub_wf h → heap h !! client = Some c → isOpen c →
  Clients h !! Client.Username c ≠ Some client →
  (length (Chan.buf (Client.Send c)) ≤ Chan.cap (Client.Send c))%nat →
  let demand := (length (Chan.buf (Client.Send c)) +
                 onlineOthers h (Client.Username c))%nat in
  (demand = S (Chan.cap (Client.Send c)) →
   ∃ h', registerClient client now orderC orderU h = Ok true h' ∧
         Clients h' !! Client.Username c = None ∧ queueClosed h' client) ∧
  ((S (Chan.cap (Client.Send c)) < demand)%nat →
   registerClient client now orderC orderU h = Panic).
Proof.
  intros Hwf Hc Hopen Hfresh Hlen demand. subst demand. set (u := Client.Username c) in *.
  rewrite (registerClient_unfold h client c) by done. fold u.
  pose proof (registerPrefix_wf h client c now Hwf Hc Hopen Hfresh) as Hwf0.
  set (h0 := registerPrefix h client c now) in *.
  assert (Hnew0 : Clients h0 !! u = Some client).
  { unfold h0. rewrite registerPrefix_Clients. by rewrite decide_True. }
  assert (Hc0 : heap h0 !! client = Some c).
  { unfold h0. rewrite registerPrefix_heap_other; [done|]. by intros old Hold ->. }
  destruct (broadcastStatus_spec h0 u true orderC Hwf0) as (h1 & Hrun1 & Hinv).
  destruct (bc_pending _ _ _ _ _ Hinv u client Hnew0) as [Hnew1 Hc1]; [by right|].
  rewrite Hc0 in Hc1.
  unfold bind. rewrite Hrun1.
  replace (onlineOthers h u) with (onlineOthers h1 u).
  2: { apply onlineOthers_agree. intros k Hk.
       rewrite (bc_users _ _ _ _ _ Hinv). unfold h0.
       rewrite registerPrefix_Users. by rewrite lookup_insert_ne. }
  destruct (presenceSnapshot_overflow h1 client c u orderU Hc1 Hopen Hlen) as [Hone Hmore].
  split; intros Hd.
  - destruct (Hone Hd) as (h' & -> & Hgone & Hclosed). by exists h'.
  - by rewrite (Hmore Hd).
Qed.

(** ** The user table only grows *)

Lemma markDelivered_Users convKey i h h' :
  markDelivered convKey i h = Ok () h' → Users h' = Users h.
Proof. unfold markDelivered, modify. by intros [= <-]. Qed.

Lemma routeSends_Users from msg id now sc rc i h h' :
  routeSends from msg id now sc rc i h = Ok () h' → Users h' = Users h.
Proof.
  unfold routeSends. destruct sc as [sc|], rc as [rc|]; intros Hrun; bind_inv Hrun.
  - apply sendToClient_Users in Hrun0 as [E0 _].
    bind_inv Hrun. apply sendToClient_Users in Hrun0 as [E1 _].
    bind_inv Hrun. apply markDelivered_Users in Hrun0 as E2.
    apply sendToClient_Users in Hrun as [E3 _]. congruence.
  - apply sendToClient_Users in Hrun0 as [E0 _].
    unfold ret in Hrun. injection Hrun as <-. done.
  - unfold ret in Hrun0. injection Hrun0 as <-.
    bind_inv Hrun. apply sendToClient_Users in Hrun0 as [E1 _].
    bind_inv Hrun. apply markDelivered_Users in Hrun0 as E2.
    unfold ret in Hrun. injection Hrun as <-. congruence.
  - unfold ret in Hrun0, Hrun. injection Hrun0 as <-. by injection Hrun as <-.
Qed.

Lemma broadcastStatus_Users username online order h h' :
  broadcastStatus username online order h = Ok () h' → Users h' = Users h.
Proof.
  apply (broadcastStatus_preserves (λ g, Users g = Users h)); [|done].
  intros client ty pl h1 h2 <- Hrun. by apply sendToClient_Users in Hrun as [-> _].
Qed.

Lemma presenceSnapshot_Users client username orderU h h' :
  presenceSnapshot client username orderU h = Ok () h' → Users h' = Users h.
Proof.
  unfold presenceSnapshot. apply (rangeMap_preserves (λ g, Users g = Users h)); [|done].
  intros k v h1 h2 <-. case_decide.
  - intros Hrun. by apply sendToClient_Users in Hrun as [-> _].
  - unfold ret. by intros [= <-].
Qed.

(** The user table after a call of [unregisterClient] for the registered
    connection of a well-formed hub. *)
Lemma unregisterClient_Users h client c now order h' :
  hub_wf h → heap h !! client = Some c → Clients h !! Client.Username c = Some client →
  unregisterClient client now order h = Ok () h' →
  Users h' = <[Client.Username c := User.mk (Client.Username c) false None now]> (Users h).
Proof.
  intros Hwf Hc Hreg Hrun.
  rewrite (unregisterClient_current h client c) in Hrun by done.
  apply broadcastStatus_Users in Hrun as ->.
  pose proof (wf_presence h Hwf _ _ Hreg) as Hpr. unfold presence_ok in Hpr.
  destruct (Users h !! Client.Username c) as [user|] eqn:Huser; [|done].
  rewrite (unregisterPrefix_Users h client c now user) by done.
  by rewrite (wf_users h Hwf _ _ Huser).
Qed.

Lemma step_Users h h' u :
  hub_wf h → step h h' → is_Some (Users h !! u) → is_Some (Users h' !! u).
Proof.
  intros Hwf [client username now oC oU b Hnew Hrun | client now order Hrun
             | from msg id now Hrun | event Hrun | client Hrun] Hu.
  - unfold connect, bind at 1, get in Hrun. rewrite Hnew in Hrun.
    unfold bind at 1, modify in Hrun.
    assert (Hfresh : ∀ u', Clients h !! u' ≠ Some client).
    { intros u' Hu'. destruct (registered_lookup h u' client Hwf Hu') as (c & Hc' & _).
      congruence. }
    set (c := Client.mk username (Chan.make sendQueueSize)) in *.
    rewrite (registerClient_unfold _ client c) in Hrun;
      [|by apply hub_wf_set_unregistered|simpl; apply lookup_insert_eq].
    bind_inv Hrun. apply broadcastStatus_Users in Hrun0.
    bind_inv Hrun. apply presenceSnapshot_Users in Hrun1.
    unfold ret in Hrun. injection Hrun as _ <-.
    rewrite Hrun1, Hrun0, registerPrefix_Users. simpl.
    apply lookup_insert_is_Some'. by right.
  - destruct (heap h !! client) as [c|] eqn:Hc.
    2: { unfold unregisterClient, bind, deref in Hrun. by rewrite Hc in Hrun. }
    destruct (decide (Clients h !! Client.Username c = Some client)) as [Hreg|Hne].
    + rewrite (unregisterClient_Users h client c now order h') by done.
      apply lookup_insert_is_Some'. by right.
    + rewrite (unregisterClient_stale h client c) in Hrun by done. by injection Hrun as <-.
  - rewrite handleInboundMessageWithSender_unfold in Hrun.
    apply routeSends_Users in Hrun. by rewrite Hrun.
  - unfold handleTypingEvent, bind, get in Hrun.
    destruct (Clients h !! _).
    + apply sendToClient_Users in Hrun as [-> _]. done.
    + unfold ret in Hrun. by injection Hrun as <-.
  - unfold writerReceive, bind, deref in Hrun.
    destruct (heap h !! client) as [c|] eqn:Hc; [|done].
    destruct (Chan.buf (Client.Send c)).
    + unfold ret in Hrun. by injection Hrun as <-.
    + rewrite (setSend_eq _ _ c) in Hrun by done. by injection Hrun as <-.
Qed.

(** C8.  A delivery attempt, overflow cleanup included, leaves the user
    table as it was.  A disconnection of the registered connection changes
    the record of its identity alone, to offline with the time of the call
    as lastSeen.  And from any well-formed state, whatever calls follow, an
    identity of the user table stays in the user table under its name, and
    a search by any other caller with the empty fragment finds it.  (The
    queries are functions of the state: they cannot change it.) *)
Theorem users_never_removed `{UnicodeLower} :
  (∀ client msgType payload h h',
     sendToClient client msgType payload h = Ok () h' → Users h' = Users h) ∧
  (∀ h client c now order h',
     hub_wf h → heap h !! client = Some c → Clients h !! Client.Username c = Some client →
     unregisterClient client now order h = Ok () h' →
     Users h' =
     <[Client.Username c := User.mk (Client.Username c) false None now]> (Users h)) ∧
  (∀ h h' u,
     hub_wf h → rtc step h h' → is_Some (Users h !! u) →
     (∃ user, Users h' !! u = Some user ∧ User.Username user = u) ∧
     (∀ X order, X ≠ u → u ∈ User.Username <$> SearchUsers h' "" X order)).
Proof.
  split_and!.
  - intros client ty pl h h' Hrun. by apply sendToClient_Users in Hrun as [-> _].
  - apply unregisterClient_Users.
  - intros h h' u Hwf Hsteps Hu.
    assert (Hu' : hub_wf h' ∧ is_Some (Users h' !! u)).
    { induction Hsteps as [|h1 h2 h3 Hstep _ IH]; [done|].
      apply IH; [by eapply step_wf | by eapply step_Users]. }
    destruct Hu' as [Hwf' [user Huser]]. split.
    + exists user. split; [done|]. by apply (wf_users h' Hwf') in Huser.
    + intros X order HX. apply SearchUsers_names; [by apply Hwf'|].
      split_and!; [by eexists | done | by left].
Qed.

(** ** Traces of calls and concrete hubs *)

Lemma perform_step call h h' : perform call h = Some h' → step h h'.
Proof.
  destruct call as [client username now oc ou|client now order|from msg id now|event|client];
    simpl.
  - destruct (connect _ _ _ _ _ h) as [b h1|] eqn:Hr; [|done]. intros [= <-].
    eapply step_connect; [|exact Hr].
    unfold connect, bind, get in Hr. by destruct (heap h !! client).
  - destruct (unregisterClient _ _ _ h) as [[] h1|] eqn:Hr; [|done]. intros [= <-].
    by eapply step_unregister.
  - destruct (handleInboundMessageWithSender _ _ _ _ h) as [[] h1|] eqn:Hr; [|done].
    intros [= <-]. by eapply step_message.
  - destruct (handleTypingEvent _ h) as [[] h1|] eqn:Hr; [|done]. intros [= <-].
    by eapply step_typing.
  - destruct (writerReceive _ h) as [[] h1|] eqn:Hr; [|done]. intros [= <-].
    by eapply step_writer.
Qed.

Lemma performAll_rtc calls h h' : performAll calls h = Some h' → rtc step h h'.
Proof.
  revert h. induction calls as [|call calls IH]; intros h; simpl.
  - intros [= <-]. done.
  - destruct (perform call h) as [h1|] eqn:Hcall; [|done]. intros Hrest.
    eapply rtc_l; [by eapply perform_step | by apply IH].
Qed.

Lemma performAll_reachable calls h' : performAll calls NewHub = Some h' → reachable h'.
Proof. apply performAll_rtc. Qed.

Lemma hubAliceBob_reachable : reachable hubAliceBob.
Proof. apply (performAll_reachable aliceBobCalls). by vm_compute. Qed.

Lemma hubBobFull_reachable : reachable hubBobFull.
Proof. apply (performAll_reachable bobFullCalls). by vm_compute. Qed.

(** C7 as stated fails: bob is registered and his queue holds 256 frames;
    the typing call queues no envelope for him and removes his connection. *)
Lemma handleTypingEvent_full_queue_counterexample :
  reachable hubBobFull ∧
  Clients hubBobFull !! "bob" = Some 2%nat ∧
  length (queueOf hubBobFull 2) = sendQueueSize ∧
  ∃ h', handleTypingEvent typingAliceBob hubBobFull = Ok () h' ∧
        queueOf h' 2 = queueOf hubBobFull 2 ∧
        queueClosed h' 2 ∧
        Clients h' !! "bob" = None.
Proof.
  split; [exact hubBobFull_reachable|].
  split; [by vm_compute|]. split; [by vm_compute|].
  eexists. split; [by vm_compute|].
  split; [by vm_compute|].
  split; [|by vm_compute]. eexists. split; by vm_compute.
Qed.

Lemma hubAliceEvicted_reachable : reachable hubAliceEvicted.
Proof. apply (performAll_reachable aliceEvictedCalls). by vm_compute. Qed.

(** C2 as stated fails: a connection is registered for bob, none for alice,
    whose queue overflowed; her message to bob is stored as delivered and
    no acknowledgment is queued on any connection. *)
Lemma route_unregistered_sender_counterexample :
  reachable hubAliceEvicted ∧
  Clients hubAliceEvicted !! "bob" = Some 2%nat ∧
  Clients hubAliceEvicted !! "alice" = None ∧
  ∃ h', handleInboundMessageWithSender "alice" hiBob "m1" 30 hubAliceEvicted = Ok () h' ∧
        Conversations h' !! "alice|bob" = Some [storedMessage "alice" hiBob "m1" 30 "delivered"] ∧
        map_Forall (λ _ c, ackFrame "m1" ∉ Chan.buf (Client.Send c)) (heap h').
Proof.
  split; [exact hubAliceEvicted_reachable|].
  split; [by vm_compute|]. split; [by vm_compute|].
  eexists. split; [by vm_compute|]. split; [by vm_compute|].
  apply (bool_decide_unpack _). by vm_compute.
Qed.

(** C4 as stated fails, in two ways.  The registered connection of alice
    holds one pending frame: the unregister call takes the frame and leaves
    the queue open.  And the queue of bob is full: the unregister call of
    alice queues no offline status for bob and removes his connection. *)
Lemma unregisterClient_counterexample :
  (reachable hubAliceBob ∧
   Clients hubAliceBob !! "alice" = Some 1%nat ∧
   queueOf hubAliceBob 1 = [statusFrame "bob" true] ∧
   ∃ h' c', unregisterClient 1 30 [] hubAliceBob = Ok () h' ∧
            heap h' !! 1%nat = Some c' ∧
            Chan.closed (Client.Send c') = false ∧
            Chan.buf (Client.Send c') = []) ∧
  (reachable hubBobFull ∧
   Clients hubBobFull !! "alice" = Some 1%nat ∧
   Clients hubBobFull !! "bob" = Some 2%nat ∧
   ∃ h', unregisterClient 1 30 [] hubBobFull = Ok () h' ∧
         queueOf h' 2 = queueOf hubBobFull 2 ∧
         (statusFrame "alice" false ∉ queueOf h' 2) ∧
         Clients h' !! "bob" = None).
Proof.
  split.
  - split; [exact hubAliceBob_reachable|].
    split; [by vm_compute|]. split; [by vm_compute|].
    do 2 eexists. split; [by vm_compute|]. split; [by vm_compute|]. by split.
  - split; [exact hubBobFull_reachable|].
    split; [by vm_compute|]. split; [by vm_compute|].
    eexists. split; [by vm_compute|]. split; [by vm_compute|].
    split; [|by vm_compute]. apply (bool_decide_unpack _). by vm_compute.
Qed.

Ltac by_evaluation := apply (bool_decide_unpack _); vm_compute; exact I.

(** C1 at work: alice is connected at address 1 and registers a second
    connection, at address 3. *)
Lemma registerClient_evicts_witness :
  (∀ b h', registerClient 3 30 [] [] hubSecondAlice = Ok b h' →
     hub_wf h' ∧
     ∀ old, Clients hubSecondAlice !! "alice" = Some old →
       queueClosed h' old ∧ ∀ u, Clients h' !! u ≠ Some old) ∧
  (∃ h', registerClient 3 30 [] [] hubSecondAlice = Ok true h' ∧
         Clients h' !! "alice" = Some 3%nat).
Proof.
  destruct (proj1 (proj2 (registerClient_evicts hubSecondAlice 3 newAliceClient 30 [] [])))
    as [Hevict Hinstall].
  - by_evaluation.
  - vm_compute. reflexivity.
  - reflexivity.
  - vm_compute. discriminate.
  - split; [exact Hevict|]. apply Hinstall. vm_compute. lia.
Defined.

(** C2 at work: alice and bob are connected and alice sends "hi" to bob. *)
Lemma route_delivery_witness :
  ∃ h', handleInboundMessageWithSender "alice" hiBob "m1" 30 hubAliceBob = Ok () h' ∧
    Conversations h' !! "alice|bob" = Some [storedMessage "alice" hiBob "m1" 30 "delivered"] ∧
    queueOf h' 1 = [statusFrame "bob" true;
                    messageFrame (storedMessage "alice" hiBob "m1" 30 "sent") "sent";
                    ackFrame "m1"] ∧
    queueOf h' 2 = [statusFrame "alice" true;
                    messageFrame (storedMessage "alice" hiBob "m1" 30 "sent") "delivered"].
Proof.
  destruct (proj1 (route_delivery hubAliceBob "alice" hiBob "m1" 30) 1%nat 2%nat)
    as (h' & Hrun & Hlog & Hne & _).
  - vm_compute. reflexivity.
  - vm_compute. reflexivity.
  - intros p [Hp|Hp]; vm_compute in Hp; injection Hp as <-; eexists;
      (split; [vm_compute; reflexivity|]); (split; [reflexivity | vm_compute; lia]).
  - exists h'. destruct Hne as [Hs Hr]; [discriminate|].
    split; [exact Hrun|]. split; [exact Hlog|]. split; [exact Hs | exact Hr].
Defined.


(** C4 at work: alice, whose queue is empty, disconnects while bob is
    connected. *)
Lemma unregisterClient_effect_witness :
  ∃ h', unregisterClient 1 30 [] hubDrained = Ok () h' ∧
    (∀ u', Clients h' !! u' ≠ Some 1%nat) ∧
    Users h' !! "alice" = Some (User.mk "alice" false None 30) ∧
    queueClosed h' 1 ∧
    Clients h' !! "bob" = Some 2%nat ∧
    queueOf h' 2 = [statusFrame "alice" false].
Proof.
  destruct (unregisterClient_effect hubDrained 1 newAliceClient 30 []) as [_ Hcur].
  - by_evaluation.
  - vm_compute. reflexivity.
  - destruct Hcur as (h' & Hrun & Hgone & Huser & _ & Hclosed & Hothers & _).
    + vm_compute. reflexivity.
    + exists h'. split; [exact Hrun|]. split; [exact Hgone|]. split; [exact Huser|].
      split; [by apply Hclosed|].
      apply (Hothers "bob" 2%nat (Client.mk "bob" (Chan.make sendQueueSize))).
      * discriminate.
      * vm_compute. reflexivity.
      * vm_compute. reflexivity.
      * unfold hasSpace. vm_compute. lia.
Defined.

(** C5 at work: alice and bob are connected and have not written yet. *)
Lemma GetConversationMessages_symmetric_witness :
  GetConversationMessages hubAliceBob "alice" "bob" =
  GetConversationMessages hubAliceBob "bob" "alice" ∧
  GetConversationMessages hubAliceBob "alice" "bob" = [].
Proof.
  destruct (GetConversationMessages_symmetric hubAliceBob "alice" "bob") as (Hsym & _ & Hnone).
  split; [exact Hsym|]. apply Hnone.
  - by_evaluation.
  - reflexivity.
  - reflexivity.
  - intros (k & log & m & Hk & _).
    assert (Hempty : Conversations hubAliceBob = ∅) by (vm_compute; reflexivity).
    rewrite Hempty, lookup_empty in Hk. discriminate Hk.
Defined.

(** C7 at work: alice types to bob, who is connected. *)
Lemma handleTypingEvent_routing_witness :
  ∃ h', handleTypingEvent typingAliceBob hubAliceBob = Ok () h' ∧
    queueOf h' 2 = queueOf hubAliceBob 2 ++ [typingFrame typingAliceBob] ∧
    (∀ p, p ≠ 2%nat → heap h' !! p = heap hubAliceBob !! p) ∧
    Clients h' = Clients hubAliceBob ∧ Users h' = Users hubAliceBob ∧
    Conversations h' = Conversations hubAliceBob.
Proof.
  apply (proj2 (handleTypingEvent_routing hubAliceBob typingAliceBob) 2%nat bobClient).
  - vm_compute. reflexivity.
  - vm_compute. reflexivity.
  - split; [reflexivity | vm_compute; lia].
Defined.

(** C8 at work: alice is still known, and found, after she disconnects. *)
Lemma users_never_removed_witness :
  (∃ user, Users hubAliceLeft !! "alice" = Some user ∧ User.Username user = "alice") ∧
  (∀ X order, X ≠ "alice" →
     "alice" ∈ User.Username <$> @SearchUsers kelvinLower hubAliceLeft "" X order).
Proof.
  apply (proj2 (proj2 (@users_never_removed kelvinLower)) hubAliceBob hubAliceLeft "alice").
  - by_evaluation.
  - apply (performAll_rtc [CallUnregister 1 30 []]). vm_compute. reflexivity.
  - vm_compute. eexists. reflexivity.
Defined.





(** C6 at work, with the insertion sort: the listing of alice. *)
Lemma GetConversations_listing_witness :
  @GetConversations insertionSorter hubTwoChats "alice" [] =
    [Conversation.mk "carol" "yo" 40 false 0; Conversation.mk "bob" "hi" 30 true 0] ∧
  NoDup (Conversation.PeerUsername <$> @GetConversations insertionSorter hubTwoChats "alice" []) ∧
  StronglySorted
    (λ a b, (Conversation.LastMessageTime b ≤ Conversation.LastMessageTime a)%Z)
    (@GetConversations insertionSorter hubTwoChats "alice" []).
Proof.
  split; [vm_compute; reflexivity|].
  destruct (@GetConversations_listing insertionSorter hubTwoChats "alice" [])
    as (Hnodup & Hsorted & _).
  split; [exact Hnodup | exact Hsorted].
Defined.

(** A remark on overflow in a routing call.  The queue of bob is full and
    alice is connected: when bob writes to alice, the confirmation
    overflows his queue, which is closed, and the acknowledgment is then
    sent on the closed queue. *)
Lemma route_sender_overflow_panics :
  reachable hubBobFull ∧
  handleInboundMessageWithSender "bob" (InboundMessage.mk "alice" "hi" "") "m1" 30 hubBobFull
  = Panic.
Proof. split; [exact hubBobFull_reachable | by vm_compute]. Qed.

(** * Further properties of the hub *)

(** ** What the calls do to the client objects *)

(** A connection made in a well-formed hub runs [registerClient] from the
    state [registerPrefix] describes. *)
Lemma connect_unfold client username now orderC orderU h b h' :
  hub_wf h → connect client username now orderC orderU h = Ok b h' →
  heap h !! client = None ∧
  ∃ h1,
    broadcastStatus username true orderC
      (registerPrefix (set_heap (<[client := Client.mk username (Chan.make sendQueueSize)]>) h)
         client (Client.mk username (Chan.make sendQueueSize)) now) = Ok () h1 ∧
    presenceSnapshot client username orderU h1 = Ok () h'.
Proof.
  intros Hwf. unfold connect, bind at 1, get.
  destruct (heap h !! client) as [c0|] eqn:Hc; [done|].
  unfold bind at 1, modify. intros Hrun. split; [done|].
  assert (Hfresh : ∀ u, Clients h !! u ≠ Some client).
  { intros u Hu. destruct (registered_lookup h u client Hwf Hu) as (c' & Hc' & _).
    congruence. }
  set (c := Client.mk username (Chan.make sendQueueSize)) in *.
  rewrite (registerClient_unfold _ client c) in Hrun;
    [|by apply hub_wf_set_unregistered|simpl; apply lookup_insert_eq].
  bind_inv Hrun. bind_inv Hrun. unfold ret in Hrun. injection Hrun as _ <-.
  eexists. split; [exact Hrun0 | exact Hrun1].
Qed.

(** The two cases of [unregisterClient]. *)
Lemma unregisterClient_cases client now order h h' :
  unregisterClient client now order h = Ok () h' →
  ∃ c, heap h !! client = Some c ∧
    ((Clients h !! Client.Username c ≠ Some client ∧ h' = h) ∨
     (Clients h !! Client.Username c = Some client ∧
      broadcastStatus (Client.Username c) false order (unregisterPrefix h client c now)
      = Ok () h')).
Proof.
  intros Hrun. destruct (heap h !! client) as [c|] eqn:Hc.
  2: { unfold unregisterClient, bind, deref in Hrun. by rewrite Hc in Hrun. }
  exists c. split; [done|].
  destruct (decide (Clients h !! Client.Username c = Some client)) as [Hreg|Hne].
  - right. by rewrite (unregisterClient_current h client c) in Hrun.
  - left. rewrite (unregisterClient_stale h client c) in Hrun by done.
    by injection Hrun as <-.
Qed.

Lemma handleTypingEvent_cases event h h' :
  handleTypingEvent event h = Ok () h' →
  (Clients h !! TypingEventWrapper.To event = None ∧ h' = h) ∨
  ∃ rc, Clients h !! TypingEventWrapper.To event = Some rc ∧
    sendToClient rc "typing" (WSMessage.Payload (typingFrame event)) h = Ok () h'.
Proof.
  unfold handleTypingEvent, bind, get.
  destruct (Clients h !! _) as [rc|]; intros Hrun.
  - right. by exists rc.
  - left. unfold ret in Hrun. by injection Hrun as <-.
Qed.

Lemma writerReceive_cases client h h' :
  writerReceive client h = Ok () h' →
  ∃ c, heap h !! client = Some c ∧
    ((Chan.buf (Client.Send c) = [] ∧ h' = h) ∨
     (Chan.buf (Client.Send c) ≠ [] ∧ h' = set_heap (<[client := dequeue c]>) h)).
Proof.
  unfold writerReceive, bind, deref.
  destruct (heap h !! client) as [c|] eqn:Hc; [|done]. intros Hrun. exists c. split; [done|].
  destruct (Chan.buf (Client.Send c)) as [|d rest] eqn:Hbuf.
  - left. unfold ret in Hrun. by injection Hrun as <-.
  - right. split; [done|].
    rewrite (setSend_eq _ _ c) in Hrun by done. injection Hrun as <-.
    unfold dequeue. by rewrite Hbuf.
Qed.

Lemma markDelivered_heap convKey i h h' :
  markDelivered convKey i h = Ok () h' → heap h' = heap h.
Proof. unfold markDelivered, modify. by intros [= <-]. Qed.

Lemma afterSelect_cases c :
  afterSelect c = c ∨ afterSelect c = closeQueue c ∨
  (Chan.buf (Client.Send c) ≠ [] ∧ afterSelect c = dequeue c).
Proof.
  unfold afterSelect, chan_tryRecv, dequeue.
  destruct c as [u [buf closed cap]]. simpl. destruct buf as [|d rest].
  - destruct closed; auto.
  - right. right. by split.
Qed.

(** What the calls keep of the client objects: a property of client
    objects that the three operations on a queue keep, every call but a
    connection keeps for all client objects; and so does a connection when
    the new client object has the property. *)
Section heap_property.
Context (P : Client.t → Prop).
Hypothesis P_enqueue : ∀ d c, P c → hasRoomFor 1 c → P (enqueue d c).
Hypothesis P_close : ∀ c, P c → P (closeQueue c).
Hypothesis P_dequeue : ∀ c, P c → Chan.buf (Client.Send c) ≠ [] → P (dequeue c).

Lemma sendToClient_heap client msgType payload h h' :
  heap_Forall P h → sendToClient client msgType payload h = Ok () h' → heap_Forall P h'.
Proof.
  intros Hb Hrun.
  apply sendToClient_cases in Hrun as (c & Hc & Hopen & [[Hroom ->]|[Hfull ->]]);
    pose proof (Hb client c Hc) as HP; apply map_Forall_insert_2; auto.
Qed.

Lemma broadcastStatus_heap username online order h h' :
  heap_Forall P h → broadcastStatus username online order h = Ok () h' → heap_Forall P h'.
Proof. apply broadcastStatus_preserves. intros. by eapply sendToClient_heap. Qed.

Lemma presenceSnapshot_heap client username orderU h h' :
  heap_Forall P h → presenceSnapshot client username orderU h = Ok () h' → heap_Forall P h'.
Proof.
  unfold presenceSnapshot. apply rangeMap_preserves.
  intros k v h1 h2 Hb. case_decide; [by apply sendToClient_heap|].
  unfold ret. by intros [= <-].
Qed.

Lemma registerPrefix_heap h client c now :
  heap_Forall P h → heap_Forall P (registerPrefix h client c now).
Proof.
  intros Hb. unfold registerPrefix, heap_Forall. simpl.
  destruct (Clients h !! Client.Username c) as [old|]; [|done].
  destruct (heap h !! old) as [co|] eqn:Hco; [|done]. simpl.
  apply map_Forall_insert_2; [|done]. by apply P_close, (Hb old co).
Qed.

Lemma connect_heap client username now orderC orderU h b h' :
  hub_wf h → heap_Forall P h → P (Client.mk username (Chan.make sendQueueSize)) →
  connect client username now orderC orderU h = Ok b h' → heap_Forall P h'.
Proof.
  intros Hwf Hb Hnew Hrun.
  destruct (connect_unfold _ _ _ _ _ _ _ _ Hwf Hrun) as (_ & h1 & Hrun0 & Hrun1).
  eapply presenceSnapshot_heap; [|exact Hrun1].
  eapply broadcastStatus_heap; [|exact Hrun0].
  apply registerPrefix_heap. by apply map_Forall_insert_2.
Qed.

Lemma unregisterClient_heap client now order h h' :
  heap_Forall P h → unregisterClient client now order h = Ok () h' → heap_Forall P h'.
Proof.
  intros Hb Hrun.
  apply unregisterClient_cases in Hrun as (c & Hc & [[_ ->]|[Hreg Hrun]]); [done|].
  eapply broadcastStatus_heap; [|exact Hrun].
  unfold heap_Forall. rewrite unregisterPrefix_heap.
  apply map_Forall_insert_2; [|done]. pose proof (Hb client c Hc) as HP.
  destruct (afterSelect_cases c) as [->|[->|[Hne ->]]]; auto.
Qed.

Lemma handleInboundMessageWithSender_heap from msg id now h h' :
  heap_Forall P h → handleInboundMessageWithSender from msg id now h = Ok () h' →
  heap_Forall P h'.
Proof.
  intros Hb. rewrite handleInboundMessageWithSender_unfold.
  match goal with |- _ ?h0 = _ → _ => assert (Hb0 : heap_Forall P h0) by done end.
  unfold routeSends.
  destruct (Clients h !! from) as [sc|], (Clients h !! InboundMessage.To msg) as [rc|];
    intros Hrun; bind_inv Hrun.
  - apply sendToClient_heap in Hrun0; [|done].
    bind_inv Hrun. apply sendToClient_heap in Hrun1; [|done].
    bind_inv Hrun. apply markDelivered_heap in Hrun2.
    eapply sendToClient_heap; [|exact Hrun]. unfold heap_Forall. by rewrite Hrun2.
  - apply sendToClient_heap in Hrun0; [|done].
    unfold ret in Hrun. by injection Hrun as <-.
  - unfold ret in Hrun0. injection Hrun0 as <-.
    bind_inv Hrun. apply sendToClient_heap in Hrun0; [|done].
    bind_inv Hrun. apply markDelivered_heap in Hrun1.
    unfold ret in Hrun. injection Hrun as <-. unfold heap_Forall. by rewrite Hrun1.
  - unfold ret in Hrun0, Hrun. injection Hrun0 as <-. by injection Hrun as <-.
Qed.

Lemma handleTypingEvent_heap event h h' :
  heap_Forall P h → handleTypingEvent event h = Ok () h' → heap_Forall P h'.
Proof.
  intros Hb Hrun.
  apply handleTypingEvent_cases in Hrun as [[_ ->]|(rc & _ & Hrun)]; [done|].
  by eapply sendToClient_heap.
Qed.

Lemma writerReceive_heap client h h' :
  heap_Forall P h → writerReceive client h = Ok () h' → heap_Forall P h'.
Proof.
  intros Hb Hrun.
  apply writerReceive_cases in Hrun as (c & Hc & [[_ ->]|[Hne ->]]); [done|].
  apply map_Forall_insert_2; [|done]. apply P_dequeue; [by apply (Hb client c)|done].
Qed.

End heap_property.

(** ** Bounded queues *)

Lemma queue_bounded_enqueue d c :
  queue_bounded c → hasRoomFor 1 c → queue_bounded (enqueue d c).
Proof.
  intros [Hcap Hlen] [_ Hroom]. split; simpl; [done|]. rewrite length_app. simpl. lia.
Qed.

Lemma queue_bounded_close c : queue_bounded c → queue_bounded (closeQueue c).
Proof. by intros [Hcap Hlen]. Qed.

Lemma queue_bounded_dequeue c :
  queue_bounded c → Chan.buf (Client.Send c) ≠ [] → queue_bounded (dequeue c).
Proof.
  intros [Hcap Hlen] _. split; simpl; [done|].
  destruct (Chan.buf (Client.Send c)); simpl in *; lia.
Qed.

Lemma step_bounded h h' :
  hub_wf h → heap_Forall queue_bounded h → step h h' → heap_Forall queue_bounded h'.
Proof.
  intros Hwf Hb [client username now oC oU b _ Hrun | client now order Hrun
                 | from msg id now Hrun | event Hrun | client Hrun].
  - eapply (connect_heap queue_bounded); eauto using queue_bounded_enqueue, queue_bounded_close.
    split; [done|]. simpl. lia.
  - eapply (unregisterClient_heap queue_bounded);
      eauto using queue_bounded_enqueue, queue_bounded_close, queue_bounded_dequeue.
  - eapply (handleInboundMessageWithSender_heap queue_bounded);
      eauto using queue_bounded_enqueue, queue_bounded_close.
  - eapply (handleTypingEvent_heap queue_bounded);
      eauto using queue_bounded_enqueue, queue_bounded_close.
  - eapply (writerReceive_heap queue_bounded); eauto using queue_bounded_dequeue.
Qed.

Lemma steps_bounded h h' :
  hub_wf h → heap_Forall queue_bounded h → rtc step h h' → heap_Forall queue_bounded h'.
Proof.
  intros Hwf Hb Hsteps. induction Hsteps as [|h1 h2 h3 Hstep _ IH]; [done|].
  apply IH; [by eapply step_wf | by eapply step_bounded].
Qed.

(** X1.  In every state the hub can be in, every client object has a queue
    of capacity 256 that holds at most 256 frames: no call queues a frame
    beyond the capacity. *)
Theorem queue_never_exceeds_capacity (h : Hub) (p : ptr) (c : Client.t) :
  reachable h → heap h !! p = Some c →
  Chan.cap (Client.Send c) = sendQueueSize ∧
  (length (queueOf h p) ≤ sendQueueSize)%nat.
Proof.
  intros Hreach Hc.
  assert (Hb : heap_Forall queue_bounded h).
  { eapply steps_bounded; [apply NewHub_wf | apply map_Forall_empty | exact Hreach]. }
  unfold queueOf. rewrite Hc. by apply (Hb p c).
Qed.

(** ** What the calls do to the logs *)

Lemma handleInboundMessageWithSender_Conversations from msg id now h h' :
  handleInboundMessageWithSender from msg id now h = Ok () h' →
  Conversations h' =
  <[ConvKey from (InboundMessage.To msg) :=
      default [] (Conversations h !! ConvKey from (InboundMessage.To msg)) ++
      [storedMessage from msg id now
         (if Clients h !! InboundMessage.To msg is Some _ then "delivered" else "sent")]]>
    (Conversations h).
Proof.
  rewrite handleInboundMessageWithSender_unfold. unfold routeSends.
  set (k := ConvKey from (InboundMessage.To msg)).
  set (log := default [] (Conversations h !! k)).
  set (h0 := set_Conversations _ h).
  assert (Hk0 : Conversations h0 !! k = Some (log ++ [storedMessage from msg id now "sent"])).
  { unfold h0. simpl. apply lookup_insert_eq. }
  assert (Hdel : ∀ g, Conversations g = Conversations h0 →
            ∃ g', markDelivered k (length log) g = Ok () g' ∧
              Conversations g' =
              <[k := log ++ [storedMessage from msg id now "delivered"]]> (Conversations h)).
  { intros g Hg. rewrite <- Hg in Hk0. rewrite (markDelivered_last g k log _ Hk0).
    eexists. split; [reflexivity|]. simpl. rewrite Hg. unfold h0. simpl.
    by rewrite insert_insert_eq. }
  destruct (Clients h !! from) as [sc|], (Clients h !! InboundMessage.To msg) as [rc|];
    intros Hrun; bind_inv Hrun.
  - apply sendToClient_Users in Hrun0 as [_ E0].
    bind_inv Hrun. apply sendToClient_Users in Hrun0 as [_ E1].
    bind_inv Hrun. apply sendToClient_Users in Hrun as [_ E3].
    destruct (Hdel h2) as (g' & Hg' & Hcv); [congruence|].
    rewrite Hg' in Hrun0. injection Hrun0 as <-. congruence.
  - apply sendToClient_Users in Hrun0 as [_ E0].
    unfold ret in Hrun. injection Hrun as <-. by rewrite E0.
  - unfold ret in Hrun0. injection Hrun0 as <-.
    bind_inv Hrun. apply sendToClient_Users in Hrun0 as [_ E1].
    bind_inv Hrun. unfold ret in Hrun. injection Hrun as <-.
    destruct (Hdel h1) as (g' & Hg' & Hcv); [congruence|].
    rewrite Hg' in Hrun0. injection Hrun0 as <-. congruence.
  - unfold ret in Hrun0, Hrun. injection Hrun0 as <-. by injection Hrun as <-.
Qed.

Lemma broadcastStatus_Conversations username online order h h' :
  broadcastStatus username online order h = Ok () h' → Conversations h' = Conversations h.
Proof.
  apply (broadcastStatus_preserves (λ g, Conversations g = Conversations h)); [|done].
  intros client ty pl h1 h2 E Hrun. apply sendToClient_Users in Hrun as [_ E']. congruence.
Qed.

Lemma presenceSnapshot_Conversations client username orderU h h' :
  presenceSnapshot client username orderU h = Ok () h' → Conversations h' = Conversations h.
Proof.
  unfold presenceSnapshot.
  apply (rangeMap_preserves (λ g, Conversations g = Conversations h)); [|done].
  intros k v h1 h2 E. case_decide.
  - intros Hrun. apply sendToClient_Users in Hrun as [_ E']. congruence.
  - unfold ret. by intros [= <-].
Qed.

Lemma registerPrefix_Conversations h client c now :
  Conversations (registerPrefix h client c now) = Conversations h.
Proof.
  unfold registerPrefix. simpl.
  destruct (Clients h !! Client.Username c) as [old|]; [|done]. by destruct (heap h !! old).
Qed.

Lemma connect_Conversations client username now orderC orderU h b h' :
  hub_wf h → connect client username now orderC orderU h = Ok b h' →
  Conversations h' = Conversations h.
Proof.
  intros Hwf Hrun.
  destruct (connect_unfold _ _ _ _ _ _ _ _ Hwf Hrun) as (_ & h1 & Hrun0 & Hrun1).
  apply presenceSnapshot_Conversations in Hrun1. apply broadcastStatus_Conversations in Hrun0.
  rewrite Hrun1, Hrun0. by rewrite registerPrefix_Conversations.
Qed.

Lemma unregisterClient_Conversations client now order h h' :
  unregisterClient client now order h = Ok () h' → Conversations h' = Conversations h.
Proof.
  intros Hrun.
  apply unregisterClient_cases in Hrun as (c & Hc & [[_ ->]|[Hreg Hrun]]); [done|].
  apply broadcastStatus_Conversations in Hrun. rewrite Hrun.
  apply unregisterPrefix_Conversations.
Qed.

(** What a step does to the logs: nothing, or one message appended to the
    log of its pair. *)
Lemma step_Conversations h h' :
  hub_wf h → step h h' →
  Conversations h' = Conversations h ∨
  ∃ from msg id now status,
    (status = "sent" ∨ status = "delivered") ∧
    Conversations h' =
    <[ConvKey from (InboundMessage.To msg) :=
        default [] (Conversations h !! ConvKey from (InboundMessage.To msg)) ++
        [storedMessage from msg id now status]]> (Conversations h).
Proof.
  intros Hwf [client username now oC oU b _ Hrun | client now order Hrun
             | from msg id now Hrun | event Hrun | client Hrun].
  - left. by eapply connect_Conversations.
  - left. by eapply unregisterClient_Conversations.
  - right. apply handleInboundMessageWithSender_Conversations in Hrun.
    do 5 eexists. split; [|exact Hrun]. destruct (Clients h !! _); auto.
  - left. apply handleTypingEvent_cases in Hrun as [[_ ->]|(rc & _ & Hrun)]; [done|].
    by apply sendToClient_Users in Hrun as [_ ?].
  - left.
    by apply writerReceive_cases in Hrun as (c & Hc & [[_ ->]|[_ ->]]).
Qed.

(** X2.  No call removes, reorders or rewrites a stored message: the log
    under a key in a later state is the log it was, with the messages
    stored since at its end.  So the deliveryState of a message is the one
    it was stored with, and a message stored as sent stays sent. *)
Theorem logs_append_only (h h' : Hub) (k : string) (log : list Message.t) :
  hub_wf h → rtc step h h' → Conversations h !! k = Some log →
  ∃ later, Conversations h' !! k = Some (log ++ later).
Proof.
  intros Hwf Hsteps. revert log.
  induction Hsteps as [h|h1 h2 h3 Hstep _ IH]; intros log Hk.
  - exists []. by rewrite app_nil_r.
  - assert (∃ ext, Conversations h2 !! k = Some (log ++ ext)) as [ext Hext].
    { destruct (step_Conversations h1 h2 Hwf Hstep)
        as [->|(from & msg & id & now & st & _ & ->)].
      - exists []. by rewrite app_nil_r.
      - destruct (decide (k = ConvKey from (InboundMessage.To msg))) as [->|Hne].
        + rewrite lookup_insert_eq, Hk. simpl. by eexists.
        + rewrite lookup_insert_ne by done. exists []. by rewrite app_nil_r. }
    destruct (IH (step_wf _ _ Hwf Hstep) _ Hext) as [later Hlater].
    exists (ext ++ later). by rewrite app_assoc.
Qed.

Lemma step_logs_sound h h' : hub_wf h → logs_sound h → step h h' → logs_sound h'.
Proof.
  intros Hwf Hs Hstep. unfold logs_sound.
  destruct (step_Conversations h h' Hwf Hstep)
    as [->|(from & msg & id & now & st & Hst & ->)]; [done|].
  apply map_Forall_insert_2; [|done]. split.
  - by destruct (default [] _).
  - apply Forall_app. split; [|by apply Forall_singleton].
    destruct (Conversations h !! _) as [log|] eqn:Hlog; simpl; [|constructor].
    by apply Hs in Hlog as [_ ?].
Qed.

(** X3.  In every state the hub can be in, a stored log is not empty, and
    every message of it is filed under the key of its own sender and
    recipient and has the deliveryState sent or delivered. *)
Theorem stored_messages_invariant (h : Hub) (k : string) (log : list Message.t) :
  reachable h → Conversations h !! k = Some log →
  log ≠ [] ∧
  ∀ m, m ∈ log →
    ConvKey (Message.From m) (Message.To m) = k ∧
    (Message.Status m = "sent" ∨ Message.Status m = "delivered").
Proof.
  intros Hreach Hk.
  assert (Hinv : hub_wf h ∧ logs_sound h).
  { unfold reachable in Hreach.
    assert (Hgen : ∀ g g', hub_wf g → logs_sound g → rtc step g g' →
                     hub_wf g' ∧ logs_sound g').
    { intros g g' Hwf Hs Hsteps. induction Hsteps as [|h1 h2 h3 Hstep _ IH]; [done|].
      apply IH; [by eapply step_wf | by eapply step_logs_sound]. }
    apply (Hgen NewHub h); [apply NewHub_wf | apply map_Forall_empty | done]. }
  destruct Hinv as [Hwf Hs]. destruct (Hs k log Hk) as [Hne Hst]. split; [done|].
  intros m Hm. split.
  - pose proof (wf_logs h Hwf k log Hk) as Hkeyed. rewrite Forall_forall in Hkeyed.
    by apply Hkeyed.
  - rewrite Forall_forall in Hst. by apply Hst.
Qed.

(** ** A routing call to a full queue *)

(** X4.  A message to a recipient whose queue is full, from a sender whose
    queue has room, in a well-formed hub: the connection of the recipient
    is closed and removed and no envelope is queued for it; the message is
    stored with deliveryState delivered all the same, and the sender gets
    the confirmation and the acknowledgment. *)
Theorem route_recipient_overflow (h : Hub) (from : string) (msg : InboundMessage.t)
    (id : string) (now : Time) (sc rc : ptr) (cs cr : Client.t) :
  let to := InboundMessage.To msg in
  let convKey := ConvKey from to in
  let log := default [] (Conversations h !! convKey) in
  let m := storedMessage from msg id now "sent" in
  hub_wf h →
  Clients h !! from = Some sc → heap h !! sc = Some cs → hasRoomFor 2 cs →
  Clients h !! to = Some rc → heap h !! rc = Some cr → isFull cr →
  sc ≠ rc →
  ∃ h', handleInboundMessageWithSender from msg id now h = Ok () h' ∧
    Conversations h' !! convKey = Some (log ++ [storedMessage from msg id now "delivered"]) ∧
    queueOf h' sc = queueOf h sc ++ [messageFrame m "sent"; ackFrame id] ∧
    queueOf h' rc = queueOf h rc ∧
    queueClosed h' rc ∧
    Clients h' !! to = None ∧
    Clients h' !! from = Some sc.
Proof.
  intros to convKey log m Hwf Hs Hcs Hroom Hr Hcr Hfull Hne. subst to convKey log m.
  destruct (registered_lookup h _ rc Hwf Hr) as (cr' & Hcr' & Hname & Hopen).
  assert (cr' = cr) as -> by congruence.
  assert (Hft : from ≠ InboundMessage.To msg) by (intros E; rewrite E in Hs; congruence).
  unfold handleInboundMessageWithSender, bind, get, modify. rewrite Hs, Hr.
  cbn [Message.ID Message.From Message.To Message.Content Message.Timestamp Message.Status].
  send_queued sc cs.
  erewrite (sendToClient_full _ rc cr); [|heap_lookup|done|done].
  erewrite markDelivered_last; [|simpl; apply lookup_insert_eq].
  erewrite (sendToClient_queued _ sc); [|heap_lookup|room].
  eexists. split; [reflexivity|]. simpl. rewrite Hname.
  split_and!.
  - rewrite insert_insert_eq. apply lookup_insert_eq.
  - unfold queueOf. simpl. rewrite lookup_insert_eq, Hcs. simpl. by rewrite <- app_assoc.
  - unfold queueOf. simpl. rewrite lookup_insert_ne by done.
    by rewrite lookup_insert_eq, Hcr.
  - exists (closeQueue cr). simpl. rewrite lookup_insert_ne by done.
    by rewrite lookup_insert_eq.
  - apply lookup_delete_eq.
  - by rewrite lookup_delete_ne.
Qed.

(** ** Unregistering twice *)

Lemma afterSelect_Username c : Client.Username (afterSelect c) = Client.Username c.
Proof. unfold afterSelect. by destruct (chan_tryRecv _). Qed.

(** What [unregisterClient] leaves of the connection it removes. *)
Lemma unregisterClient_removed h client c now order h' :
  hub_wf h → heap h !! client = Some c → Clients h !! Client.Username c = Some client →
  unregisterClient client now order h = Ok () h' →
  heap h' !! client = Some (afterSelect c) ∧
  Clients h' !! Client.Username c = None ∧
  (∀ u p, Clients h' !! u = Some p → Clients h !! u = Some p) ∧
  Users h' = <[Client.Username c := User.mk (Client.Username c) false None now]> (Users h).
Proof.
  intros Hwf Hc Hreg Hrun.
  pose proof (unregisterClient_Users _ _ _ _ _ _ Hwf Hc Hreg Hrun) as HU.
  rewrite (unregisterClient_current h client c) in Hrun by done.
  pose proof (unregisterPrefix_wf h client c now Hwf Hc Hreg) as Hwf0.
  set (u := Client.Username c) in *. set (h0 := unregisterPrefix h client c now) in *.
  destruct (broadcastStatus_spec h0 u false order Hwf0) as (h1 & Hrun1 & Hinv).
  assert (h1 = h') as -> by congruence.
  assert (HC0 : Clients h0 = delete u (Clients h)) by apply unregisterPrefix_Clients.
  assert (Hgone : ∀ u', Clients h0 !! u' ≠ Some client).
  { intros u'. rewrite HC0. intros [Hne Hu']%lookup_delete_Some.
    by apply Hne, (registered_inj h u u' client). }
  split_and!.
  - rewrite (bc_others _ _ _ _ _ Hinv client Hgone). unfold h0.
    rewrite unregisterPrefix_heap. apply lookup_insert_eq.
  - apply (bc_absent _ _ _ _ _ Hinv u). rewrite HC0. apply lookup_delete_eq.
  - intros u' p Hu'. apply (bcastInv_sub h0 u _ order h' u' p Hwf0 Hinv) in Hu'.
    rewrite HC0 in Hu'. by apply lookup_delete_Some in Hu' as [_ ?].
  - exact HU.
Qed.

(** X5.  A second unregister call for a connection does nothing: after the
    call that removed the connection (or found it replaced), a further call
    for the same connection leaves the state as it is, and closes no queue
    a second time. *)
Theorem unregisterClient_twice (h h' : Hub) (client : ptr) (now1 now2 : Time)
    (order1 order2 : list string) :
  hub_wf h → unregisterClient client now1 order1 h = Ok () h' →
  unregisterClient client now2 order2 h' = Ok () h'.
Proof.
  intros Hwf Hrun.
  pose proof Hrun as Hcases.
  apply unregisterClient_cases in Hcases as (c & Hc & [[Hne ->]|[Hreg _]]).
  { by apply (unregisterClient_stale h client c). }
  destruct (unregisterClient_removed h client c now1 order1 h' Hwf Hc Hreg Hrun)
    as (Hc' & Hgone & _).
  apply (unregisterClient_stale h' client (afterSelect c)); [done|].
  rewrite afterSelect_Username. by rewrite Hgone.
Qed.

(** ** Isolation of the conversations *)

(** X6.  In every state the hub can be in, the log read for two names
    without separator, as all admitted identities are, holds exactly the
    stored messages between the two, in one direction or the other: no
    message of another pair is returned, and none between the two is
    missing. *)
Theorem GetConversationMessages_isolation (h : Hub) (a b : string) (m : Message.t) :
  reachable h → noBar a = true → noBar b = true →
  (m ∈ GetConversationMessages h a b ↔
   (∃ k log, Conversations h !! k = Some log ∧ m ∈ log) ∧
   ((Message.From m = a ∧ Message.To m = b) ∨ (Message.From m = b ∧ Message.To m = a))).
Proof.
  intros Hwf%reachable_wf Ha Hb.
  pose proof (wf_logs h Hwf) as Hkeyed.
  unfold GetConversationMessages. split.
  - intros Hm. destruct (Conversations h !! ConvKey a b) as [log|] eqn:Hlog.
    2: { simpl in Hm. by apply elem_of_nil in Hm. }
    simpl in Hm. split; [by exists (ConvKey a b), log|].
    apply Hkeyed in Hlog. rewrite Forall_forall in Hlog.
    by apply ConvKey_inj, Hlog.
  - intros [(k & log & Hk & Hm) Hbetween].
    pose proof (Hkeyed k log Hk) as Hall. rewrite Forall_forall in Hall.
    apply Hall in Hm as Hkey.
    assert (k = ConvKey a b) as ->.
    { destruct Hbetween as [[E1 E2]|[E1 E2]]; rewrite E1, E2 in Hkey;
        [done | by rewrite ConvKey_comm]. }
    by rewrite Hk.
Qed.

(** ** The registered connection *)

(** X7.  In every state the hub can be in, the connection registered for an
    identity is a client object of that identity whose queue is open, and
    the presence record of the identity exists under its name, is online
    and points to that connection. *)
Theorem registered_connection_invariant (h : Hub) (u : string) (p : ptr) :
  reachable h → Clients h !! u = Some p →
  ∃ c user, heap h !! p = Some c ∧ Client.Username c = u ∧
    Chan.closed (Client.Send c) = false ∧
    Users h !! u = Some user ∧ User.Username user = u ∧
    User.Online user = true ∧ User.CurrentConn user = Some p.
Proof.
  intros Hwf%reachable_wf Hu.
  destruct (registered_lookup h u p Hwf Hu) as (c & Hc & Hname & Hopen).
  pose proof (wf_presence h Hwf u p Hu) as Hpr. unfold presence_ok in Hpr.
  destruct (Users h !! u) as [user|] eqn:Huser; [|done]. destruct Hpr as [Hon Hconn].
  exists c, user. split_and!; try done. by apply (wf_users h Hwf) in Huser.
Qed.

(** * Properties of the HTTP layer *)

(** ** Session ids *)

Lemma Sprintf_d_inj a b : Sprintf_d a = Sprintf_d b → a = b.
Proof.
  unfold Sprintf_d. intros Heq. apply DecimalZ.to_int_inj.
  assert (Hnn : ∀ z, Z.to_int z ≠ Decimal.Pos Decimal.Nil ∧
                     Z.to_int z ≠ Decimal.Neg Decimal.Nil).
  { intros [|p|p]; simpl; split; try discriminate;
      intros [= Hp]; by apply DecimalPos.Unsigned.to_uint_nonnil in Hp. }
  destruct (Hnn a) as [Ha1 Ha2], (Hnn b) as [Hb1 Hb2].
  pose proof (DecimalString.NilZero.isi _ Ha1 Ha2) as Ea.
  pose proof (DecimalString.NilZero.isi _ Hb1 Hb2) as Eb.
  rewrite Heq in Ea. congruence.
Qed.

Lemma noDash_digits d : noDash (DecimalString.NilEmpty.string_of_uint d) = true.
Proof. induction d; simpl; try done; unfold noDash in *; simpl; by rewrite IHd. Qed.

Lemma noDash_number d : noDash (DecimalString.NilZero.string_of_uint d) = true.
Proof. destruct d; try done; apply (noDash_digits (_ d)). Qed.

(** A rendered number is one byte, a digit or the sign, followed by digits. *)
Lemma Sprintf_d_shape z : ∃ c ds, Sprintf_d z = String c ds ∧ noDash ds = true.
Proof.
  unfold Sprintf_d. destruct (Z.to_int z) as [d|d]; simpl.
  - pose proof (noDash_number d) as Hd.
    destruct (DecimalString.NilZero.string_of_uint d) as [|c ds] eqn:Hs.
    { by destruct d. }
    exists c, ds. split; [done|]. unfold noDash in *. simpl in Hd.
    by apply andb_true_iff in Hd as [_ ?].
  - eexists _, _. split; [reflexivity|]. apply noDash_number.
Qed.

Lemma noDash_app_dash p q : noDash (p +:+ String "-" q) = false.
Proof.
  induction p as [|c p IH]; [done|].
  rewrite append_cons. unfold noDash in *. simpl. rewrite IH. apply andb_false_r.
Qed.

Lemma dash_split_unique p q r s :
  noDash p = true → noDash r = true →
  p +:+ "-" +:+ q = r +:+ "-" +:+ s → p = r ∧ q = s.
Proof.
  intros Hp Hr. revert r Hr.
  induction p as [|c p IH]; intros [|c' r] Hr;
    repeat (rewrite append_nil_l || rewrite append_cons).
  - by intros [= ->].
  - intros [= <- _]. unfold noDash in Hr. by simpl in Hr.
  - intros [= -> _]. unfold noDash in Hp. by simpl in Hp.
  - intros [= -> Heq]. unfold noDash in Hp, Hr. simpl in Hp, Hr.
    apply andb_true_iff in Hp as [_ Hp]. apply andb_true_iff in Hr as [_ Hr].
    destruct (IH Hp r Hr Heq) as [-> ->]. done.
Qed.

Lemma generateSessionID_inj a b a' b' :
  generateSessionID a b = generateSessionID a' b' → a = a' ∧ b = b'.
Proof.
  unfold generateSessionID.
  destruct (Sprintf_d_shape a) as (c & ds & Ea & Hds).
  destruct (Sprintf_d_shape a') as (c' & ds' & Ea' & Hds').
  rewrite Ea, Ea', !append_cons. intros [= -> Heq].
  apply dash_split_unique in Heq as [-> Hb]; [|done..].
  split; [|by apply Sprintf_d_inj].
  apply Sprintf_d_inj. by rewrite Ea, Ea'.
Qed.

(** X8.  Two sessions get the same id exactly when the clock readings of
    their creation are the same.  With different readings both sessions
    are in the store; with the same readings the session created second
    takes the place of the first under the id they share. *)
Theorem CreateSession_ids (u1 u2 : string) (a b a' b' : Z) (t1 t2 : Time)
    (s : gmap string Session.t) :
  let '(id1, s1) := CreateSession u1 a b t1 s in
  let '(id2, s2) := CreateSession u2 a' b' t2 s1 in
  (id1 = id2 ↔ a = a' ∧ b = b') ∧
  s2 !! id2 = Some (Session.mk u2 (t2 + 24 * Hour)) ∧
  (id1 ≠ id2 → s2 !! id1 = Some (Session.mk u1 (t1 + 24 * Hour))).
Proof.
  unfold CreateSession. split_and!.
  - split; [apply generateSessionID_inj | by intros [-> ->]].
  - apply lookup_insert_eq.
  - intros Hne. rewrite lookup_insert_ne by done. apply lookup_insert_eq.
Qed.

(** ** The life of a session *)

(** X9.  A session is found under its id from its creation until 24 hours
    after, that instant included, and the store is left as it is by the
    lookup; a lookup after that instant finds no session and deletes the
    entry, so that no later lookup finds it either, whatever the clock
    reads then.  The other entries of the store are not touched. *)
Theorem session_lifetime (username : string) (unixNano unix : Z) (now t t' : Time)
    (s : gmap string Session.t) :
  let '(id, s1) := CreateSession username unixNano unix now s in
  let session := Session.mk username (now + 24 * Hour) in
  ((t ≤ now + 24 * Hour)%Z → GetSession id t s1 = (Some session, s1)) ∧
  ((now + 24 * Hour < t)%Z →
   ∃ s2, GetSession id t s1 = (None, s2) ∧ s2 !! id = None ∧
         GetSession id t' s2 = (None, s2) ∧
         ∀ id', id' ≠ id → s2 !! id' = s !! id') ∧
  (∀ id', id' ≠ id → s1 !! id' = s !! id').
Proof.
  unfold CreateSession, GetSession. set (id := generateSessionID unixNano unix).
  rewrite lookup_insert_eq. simpl. unfold After. split_and!.
  - intros Ht. by rewrite (proj2 (Z.ltb_ge _ _)) by lia.
  - intros Ht. rewrite (proj2 (Z.ltb_lt _ _)) by lia.
    eexists. split; [reflexivity|]. rewrite lookup_delete_eq. split_and!; [done..|].
    intros id' Hne. rewrite lookup_delete_ne by done. by rewrite lookup_insert_ne.
  - intros id' Hne. by rewrite lookup_insert_ne.
Qed.

(** ** DeleteSessionByUsername *)

(** X10.  Whatever the order of its loop, DeleteSessionByUsername removes
    every session of the username and leaves every other session as it
    was. *)
Theorem DeleteSessionByUsername_exact (username : string) (order : list string)
    (s : gmap string Session.t) (id : string) :
  DeleteSessionByUsername username order s !! id =
  match s !! id with
  | Some session =>
      if decide (Session.Username session = username) then None else Some session
  | None => None
  end.
Proof.
  unfold DeleteSessionByUsername.
  set (target := λ id' : string,
    match s !! id' with
    | Some session =>
        if decide (Session.Username session = username) then None else Some session
    | None => None
    end).
  pose proof (foldl_invariant
    (λ seen s', ∀ id', s' !! id' = if decide (id' ∈ seen) then target id' else s !! id')
    (λ s' k,
      match s' !! k with
      | Some session =>
          if decide (Session.Username session = username) then delete k s' else s'
      | None => s'
      end) s (rangeOrder order s)) as Hinv.
  cbv beta in Hinv. rewrite Hinv; clear Hinv.
  - case_decide as Hin; [done|].
    destruct (s !! id) as [session|] eqn:Hs; [|done].
    exfalso. apply Hin, rangeOrder_elem_of. by eexists.
  - intros id'. rewrite decide_False; [done|]. apply not_elem_of_nil.
  - intros seen x acc Hacc Hx id'.
    destruct (decide (id' = x)) as [->|Hne].
    + rewrite decide_True by (apply elem_of_app; right; by apply list_elem_of_singleton).
      assert (Hxacc : acc !! x = target x ∨ acc !! x = s !! x).
      { rewrite Hacc. case_decide; auto. }
      unfold target in *. destruct (s !! x) as [session|] eqn:Hsx.
      * destruct (decide (Session.Username session = username)) as [Hu|Hu].
        -- destruct (acc !! x) as [session'|] eqn:Hax.
           ++ destruct Hxacc as [?|[= ->]]; [done|].
              rewrite decide_True by done. apply lookup_delete_eq.
           ++ done.
        -- assert (Hax : acc !! x = Some session).
           { by destruct Hxacc. }
           rewrite Hax. by rewrite decide_False.
      * assert (Hax : acc !! x = None) by (by destruct Hxacc).
        by rewrite Hax.
    + assert (Hstep : ∀ acc', (acc' = acc ∨ acc' = delete x acc) →
                acc' !! id' = acc !! id').
      { intros acc' [->| ->]; [done|]. by rewrite lookup_delete_ne. }
      rewrite Hstep.
      2: { destruct (acc !! x) as [session|]; [case_decide|]; auto. }
      rewrite Hacc. repeat case_decide; try done.
      * exfalso. apply H0. apply elem_of_app. by left.
      * exfalso. apply elem_of_app in H0 as [?|?%list_elem_of_singleton]; done.
Qed.

(** ** Authentication *)

Lemma Server_eta sv : mkServer (theHub sv) (sessions sv) = sv.
Proof. by destruct sv. Qed.

Lemma GetSession_Some id now s session s' :
  GetSession id now s = (Some session, s') ↔
  s !! id = Some session ∧ (now ≤ Session.ExpiresAt session)%Z ∧ s' = s.
Proof.
  unfold GetSession, After. destruct (s !! id) as [session0|]; [|by split; [|intros (?&_)]].
  destruct (Z.ltb_spec (Session.ExpiresAt session0) now); split.
  - done.
  - intros ([= ->] & ? & _). lia.
  - intros [= -> ->]. split_and!; [done|lia|done].
  - by intros ([= ->] & _ & ->).
Qed.

Lemma GetSession_None id now s s' :
  GetSession id now s = (None, s') →
  (∀ session, s !! id = Some session → (Session.ExpiresAt session < now)%Z) ∧
  s' = delete id s.
Proof.
  unfold GetSession, After. destruct (s !! id) as [session0|] eqn:Hs.
  - destruct (Z.ltb_spec (Session.ExpiresAt session0) now); [|done].
    intros [= <-]. split; [|done]. by intros ? [= <-].
  - intros [= <-]. split; [done|]. symmetry. by apply delete_id.
Qed.

(** What [authenticate] answers. *)
Lemma authenticate_ok r now sv session sv' :
  authenticate r now sv = (inr session, sv') ↔ validSession r now sv session ∧ sv' = sv.
Proof.
  unfold authenticate, getSessionIDFromRequest, validSession.
  destruct (Request.SessionCookie r) as [id|]; simpl.
  2: { split; [done|]. by intros [(id & ? & _) _]. }
  destruct (decide (id = "")) as [->|Hid].
  { split; [done|]. by intros [(id & [= <-] & ? & _) _]. }
  destruct (GetSession id now (sessions sv)) as [[session0|] s'] eqn:Hget.
  - apply GetSession_Some in Hget as (Hs & Ht & ->). rewrite Server_eta. split.
    + intros [= <- <-]. split; [|done]. by exists id.
    + intros [(id' & [= <-] & _ & Hs' & _) ->]. congruence.
  - split; [done|]. intros [(id' & [= <-] & _ & Hs' & Ht) _].
    apply GetSession_None in Hget as [Hexp _]. apply Hexp in Hs'. lia.
Qed.

Lemma authenticate_refused r now sv refusal sv' :
  authenticate r now sv = (inl refusal, sv') →
  refusedWith [401%nat] refusal ∧ theHub sv' = theHub sv ∧
  (sessions sv' = sessions sv ∨
   sessions sv' = delete (getSessionIDFromRequest r) (sessions sv)).
Proof.
  unfold authenticate. case_decide as Hid.
  - intros [= <- <-]. split_and!; [|done|by left].
    split; [apply list_elem_of_singleton|]; by eauto.
  - destruct (GetSession _ now (sessions sv)) as [[session0|] s'] eqn:Hget; [done|].
    intros [= <- <-]. apply GetSession_None in Hget as [_ ->].
    split_and!; [|done|by right].
    split; [by apply list_elem_of_singleton|]. by eauto.
Qed.

Lemma authenticate_unauthenticated r now sv :
  (∀ session, ¬ validSession r now sv session) →
  ∃ refusal sv', authenticate r now sv = (inl refusal, sv') ∧
    refusedWith [401%nat] refusal ∧ theHub sv' = theHub sv.
Proof.
  intros Hnone. destruct (authenticate r now sv) as [[refusal|session] sv'] eqn:Hauth.
  - exists refusal, sv'. split; [done|]. by apply authenticate_refused in Hauth as (? & ? & _).
  - apply authenticate_ok in Hauth as [Hvalid _]. by apply Hnone in Hvalid.
Qed.

Lemma refusedWith_weaken codes codes' resp :
  codes ⊆ codes' → refusedWith codes resp → refusedWith codes' resp.
Proof. intros Hsub (Hc & ? & ?). split_and!; [by apply Hsub|done..]. Qed.

Lemma http_Error_refused message code codes :
  code ∈ codes → refusedWith codes (http_Error message code).
Proof. intros Hc. split_and!; [done..|]. by eexists. Qed.

(** X11.  Without a session that is in the store and has not expired, no
    handler but the login answers the request: each one refuses it with
    status 401 (or 405 for a wrong method), a text body and no cookie, and
    leaves the hub as it is.  No user, conversation or message is read
    out, no connection is made or closed. *)
Theorem authentication_required `{SliceSorter} `{UnicodeTrim} `{UnicodeLower}
    (r : Request.t) (now : Time) (sv : Server) :
  (∀ session, ¬ validSession r now sv session) →
  (∀ nowU order, ∃ resp sv', HandleLogout r now nowU order sv = Some (resp, sv') ∧
     refusedWith [401; 405]%nat resp ∧ theHub sv' = theHub sv) ∧
  (∃ resp sv', HandleMe r now sv = (resp, sv') ∧
     refusedWith [401; 405]%nat resp ∧ theHub sv' = theHub sv) ∧
  (∀ order, ∃ resp sv', HandleSearchUsers r now order sv = (resp, sv') ∧
     refusedWith [401; 405]%nat resp ∧ theHub sv' = theHub sv) ∧
  (∀ order, ∃ resp sv', HandleGetConversations r now order sv = (resp, sv') ∧
     refusedWith [401; 405]%nat resp ∧ theHub sv' = theHub sv) ∧
  (∃ resp sv', HandleGetConversation r now sv = (resp, sv') ∧
     refusedWith [401; 405]%nat resp ∧ theHub sv' = theHub sv) ∧
  (∀ upgrade hubReady client nowR orderC orderU, ∃ resp sv',
     HandleWebSocket r now upgrade hubReady client nowR orderC orderU sv = Some (resp, sv') ∧
     refusedWith [401]%nat resp ∧ theHub sv' = theHub sv).
Proof.
  intros Hnone.
  destruct (authenticate_unauthenticated r now sv Hnone)
    as (refusal & sv0 & Hauth & Hrefused & Hhub).
  assert (H401 : refusedWith [401; 405]%nat refusal).
  { eapply refusedWith_weaken; [|exact Hrefused].
    intros code ->%list_elem_of_singleton. by left. }
  assert (H405 : refusedWith [401; 405]%nat (http_Error "Method not allowed" 405)).
  { apply http_Error_refused. right. by left. }
  split_and!.
  - intros nowU order. unfold HandleLogout. case_decide; [by eexists _, _|].
    rewrite Hauth. by eexists _, _.
  - unfold HandleMe. case_decide; [by eexists _, _|]. rewrite Hauth. by eexists _, _.
  - intros order. unfold HandleSearchUsers. case_decide; [by eexists _, _|].
    rewrite Hauth. by eexists _, _.
  - intros order. unfold HandleGetConversations. case_decide; [by eexists _, _|].
    rewrite Hauth. by eexists _, _.
  - unfold HandleGetConversation. case_decide; [by eexists _, _|].
    rewrite Hauth. by eexists _, _.
  - intros upgrade hubReady client nowR orderC orderU. unfold HandleWebSocket.
    rewrite Hauth. by eexists _, _.
Qed.

(** ** HandleLogin *)

Lemma usernameByte_facts c :
  isUsernameByte c = true →
  isAsciiSpace c = false ∧ bool_decide (Ascii.nat_of_ascii c < 128)%nat = true.
Proof.
  unfold isUsernameByte, isAsciiSpace. intros Hc%bool_decide_eq_true. split.
  - apply bool_decide_eq_false. lia.
  - apply bool_decide_eq_true. lia.
Qed.

Lemma trimRightSpace_id s :
  string_forall (λ c, negb (isAsciiSpace c)) s = true → trimRightSpace s = s.
Proof.
  induction s as [|c s IH]; [done|]. simpl. intros [Hc Hs]%andb_true_iff.
  rewrite (IH Hs). destruct s; [|done]. by apply negb_true_iff in Hc as ->.
Qed.

Lemma trimLeftSpace_id s :
  string_forall (λ c, negb (isAsciiSpace c)) s = true → trimLeftSpace s = s.
Proof. destruct s as [|c s]; [done|]. simpl. by intros [->%negb_true_iff _]%andb_true_iff. Qed.

(** A name the login admits is not changed by the trimming. *)
Lemma TrimSpace_valid `{UnicodeTrim} s :
  string_forall isUsernameByte s = true → strings_TrimSpace s = s.
Proof.
  intros Hs. unfold strings_TrimSpace.
  assert (Hascii : isASCII s = true).
  { revert Hs. apply string_forall_impl. intros c Hc. by apply usernameByte_facts. }
  assert (Hnsp : string_forall (λ c, negb (isAsciiSpace c)) s = true).
  { revert Hs. apply string_forall_impl. intros c Hc.
    apply negb_true_iff. by apply usernameByte_facts. }
  rewrite Hascii. by rewrite trimLeftSpace_id, trimRightSpace_id.
Qed.

(** X12.  HandleLogin opens a session exactly for a POST whose body decodes
    and whose name, trimmed, has between 1 and 50 bytes, all of them
    letters, digits or underscores, and no live connection.  Then it
    answers 200 with the trimmed name, marked offline, sets the cookie
    session_id to the new id, stores under that id a session of the name
    that expires 24 hours later, and leaves the hub as it is.  Otherwise it
    answers 400, 405 or 409 with a text and changes nothing.  A name that
    is admitted is taken as it is written. *)
Theorem HandleLogin_decision `{UnicodeTrim} (r : Request.t) (unixNano unix : Z) (now : Time)
    (sv : Server) :
  let username := strings_TrimSpace (default "" (Request.Login r)) in
  let accepted :=
    Request.Method r = "POST" ∧ is_Some (Request.Login r) ∧
    validUsername username = true ∧ hasActiveConn (theHub sv) username = false in
  let id := generateSessionID unixNano unix in
  (accepted →
   HandleLogin r unixNano unix now sv =
   (Response.mk 200
      (Some (Cookie.mk "session_id" id "/" true false SameSiteStrictMode 86400))
      (BodyLogin username false),
    mkServer (theHub sv) (<[id := Session.mk username (now + 24 * Hour)]> (sessions sv)))) ∧
  (¬ accepted →
   ∃ resp, HandleLogin r unixNano unix now sv = (resp, sv) ∧
           refusedWith [400; 405; 409]%nat resp) ∧
  (∀ name, validUsername name = true → strings_TrimSpace name = name).
Proof.
  intros username accepted id. subst username accepted id. split_and!.
  - intros (Hm & [name Hname] & Hvalid & Hconn). unfold HandleLogin.
    rewrite decide_False by (by intros ?). rewrite Hname in *. simpl in *.
    unfold validUsername in Hvalid. apply andb_true_iff in Hvalid as [Hlen Hbytes].
    apply bool_decide_eq_true in Hlen.
    rewrite decide_False by lia. rewrite Hbytes. simpl. by rewrite Hconn.
  - intros Hno. unfold HandleLogin.
    assert (Hin : ∀ code message, code ∈ [400; 405; 409]%nat →
              ∃ resp, (http_Error message code, sv) = (resp, sv) ∧
                      refusedWith [400; 405; 409]%nat resp).
    { intros code message Hcode. eexists. split; [done|]. by apply http_Error_refused. }
    case_decide as Hm; [apply Hin; right; by left|].
    destruct (Request.Login r) as [name|] eqn:Hname; [|apply Hin; by left].
    simpl in Hno. case_decide as Hlen; [apply Hin; by left|].
    destruct (string_forall isUsernameByte (strings_TrimSpace name)) eqn:Hbytes; simpl;
      [|apply Hin; by left].
    destruct (hasActiveConn (theHub sv) (strings_TrimSpace name)) eqn:Hconn;
      [apply Hin; right; right; by left|].
    exfalso. apply Hno. split_and!; [by destruct (decide (Request.Method r = "POST"))|done| |done].
    unfold validUsername. rewrite Hbytes, andb_true_r. apply bool_decide_eq_true. lia.
  - intros name [_ Hbytes]%andb_true_iff. by apply TrimSpace_valid.
Qed.

(** * Properties of the server as a whole *)

(** ** What the calls do to the tables *)

Lemma sendToClient_shrinks client msgType payload h h' u q :
  sendToClient client msgType payload h = Ok () h' →
  Clients h' !! u = Some q → Clients h !! u = Some q.
Proof.
  intros Hrun.
  apply sendToClient_cases in Hrun as (c & Hc & Hopen & [[Hroom ->]|[Hfull ->]]); simpl.
  - done.
  - by intros [_ ?]%lookup_delete_Some.
Qed.

Lemma broadcastStatus_shrinks username online order h h' u q :
  broadcastStatus username online order h = Ok () h' →
  Clients h' !! u = Some q → Clients h !! u = Some q.
Proof.
  intros Hrun.
  apply (broadcastStatus_preserves (λ g, Clients g !! u = Some q → Clients h !! u = Some q)
           username online order h h'); [|done|done].
  intros client ty pl h1 h2 IH Hsend Hu. by eapply IH, sendToClient_shrinks.
Qed.

Lemma presenceSnapshot_shrinks client username orderU h h' u q :
  presenceSnapshot client username orderU h = Ok () h' →
  Clients h' !! u = Some q → Clients h !! u = Some q.
Proof.
  unfold presenceSnapshot. intros Hrun.
  eapply (rangeMap_preserves (λ g, Clients g !! u = Some q → Clients h !! u = Some q));
    [|done|exact Hrun].
  intros k v h1 h2 IH. simpl. case_decide.
  - intros Hsend Hu. by eapply IH, sendToClient_shrinks.
  - unfold ret. by intros [= <-].
Qed.

Lemma connect_tables client username now orderC orderU h b h' :
  hub_wf h → connect client username now orderC orderU h = Ok b h' →
  (∀ u q, Clients h' !! u = Some q → (u = username ∧ q = client) ∨ Clients h !! u = Some q) ∧
  Users h' =
    <[username := User.mk (match Users h !! username with
                           | Some user => User.Username user
                           | None => username
                           end) true (Some client) now]> (Users h).
Proof.
  intros Hwf Hrun.
  destruct (connect_unfold _ _ _ _ _ _ _ _ Hwf Hrun) as (_ & h1 & Hrun0 & Hrun1).
  split.
  - intros u q Hu. eapply presenceSnapshot_shrinks in Hu; [|exact Hrun1].
    eapply broadcastStatus_shrinks in Hu; [|exact Hrun0].
    rewrite registerPrefix_Clients in Hu. simpl in Hu.
    case_decide; [left; split; congruence | by right].
  - apply presenceSnapshot_Users in Hrun1. apply broadcastStatus_Users in Hrun0.
    rewrite Hrun1, Hrun0. by rewrite registerPrefix_Users.
Qed.

Lemma unregisterClient_tables client now order h h' :
  unregisterClient client now order h = Ok () h' →
  ∃ c, heap h !! client = Some c ∧
    (∀ u q, Clients h' !! u = Some q → Clients h !! u = Some q) ∧
    (∀ u, u ≠ Client.Username c → Users h' !! u = Users h !! u) ∧
    (∀ u, is_Some (Users h' !! u) → is_Some (Users h !! u)) ∧
    (Clients h !! Client.Username c ≠ Some client → h' = h).
Proof.
  intros Hrun.
  apply unregisterClient_cases in Hrun as (c & Hc & [[Hne ->]|[Hreg Hrun]]);
    exists c; (split; [done|]); [by split_and!|].
  assert (HU : Users h' = Users (unregisterPrefix h client c now))
    by (by eapply broadcastStatus_Users).
  split_and!.
  - intros u q Hu. eapply broadcastStatus_shrinks in Hu; [|exact Hrun].
    rewrite unregisterPrefix_Clients in Hu. by apply lookup_delete_Some in Hu as [_ ?].
  - intros u Hu. rewrite HU. unfold unregisterPrefix.
    destruct (Users h !! Client.Username c); simpl; [|done]. by rewrite lookup_insert_ne.
  - intros u. rewrite HU. unfold unregisterPrefix.
    destruct (Users h !! Client.Username c) as [user|] eqn:Huser; simpl; [|done].
    destruct (decide (u = Client.Username c)) as [->|Hne]; [by rewrite Huser|].
    by rewrite lookup_insert_ne.
  - done.
Qed.

Lemma handleInboundMessageWithSender_tables from msg id now h h' :
  handleInboundMessageWithSender from msg id now h = Ok () h' →
  Users h' = Users h ∧ ∀ u q, Clients h' !! u = Some q → Clients h !! u = Some q.
Proof.
  rewrite handleInboundMessageWithSender_unfold. intros Hrun. split.
  { by apply routeSends_Users in Hrun. }
  revert Hrun. unfold routeSends.
  destruct (Clients h !! from) as [sc|], (Clients h !! InboundMessage.To msg) as [rc|];
    intros Hrun u q Hu; bind_inv Hrun.
  - bind_inv Hrun. bind_inv Hrun.
    eapply sendToClient_shrinks in Hu; [|exact Hrun].
    unfold markDelivered, modify in Hrun2. injection Hrun2 as <-. simpl in Hu.
    eapply sendToClient_shrinks in Hu; [|exact Hrun1].
    by eapply sendToClient_shrinks in Hu; [|exact Hrun0].
  - unfold ret in Hrun. injection Hrun as <-.
    by eapply sendToClient_shrinks in Hu; [|exact Hrun0].
  - unfold ret in Hrun0. injection Hrun0 as <-.
    bind_inv Hrun. bind_inv Hrun. unfold ret in Hrun. injection Hrun as <-.
    unfold markDelivered, modify in Hrun1. injection Hrun1 as <-. simpl in Hu.
    by eapply sendToClient_shrinks in Hu; [|exact Hrun0].
  - unfold ret in Hrun0, Hrun. injection Hrun0 as <-. by injection Hrun as <-.
Qed.

Lemma handleTypingEvent_tables event h h' :
  handleTypingEvent event h = Ok () h' →
  Users h' = Users h ∧ Conversations h' = Conversations h ∧
  ∀ u q, Clients h' !! u = Some q → Clients h !! u = Some q.
Proof.
  intros Hrun.
  apply handleTypingEvent_cases in Hrun as [[_ ->]|(rc & _ & Hrun)]; [done|].
  destruct (sendToClient_Users _ _ _ _ _ Hrun) as [HU HC]. split_and!; [done..|].
  intros u q. by eapply sendToClient_shrinks.
Qed.

Lemma writerReceive_tables client h h' :
  writerReceive client h = Ok () h' →
  Users h' = Users h ∧ Conversations h' = Conversations h ∧ Clients h' = Clients h.
Proof.
  intros Hrun. by apply writerReceive_cases in Hrun as (c & Hc & [[_ ->]|[_ ->]]).
Qed.

(** ** The steps of the server *)

Lemma authenticate_state r now sv found sv' :
  authenticate r now sv = (found, sv') →
  theHub sv' = theHub sv ∧
  (∀ id s, sessions sv' !! id = Some s → sessions sv !! id = Some s) ∧
  (∀ session, found = inr session → validSession r now sv session ∧ sv' = sv).
Proof.
  intros Hauth. destruct found as [refusal|session].
  - apply authenticate_refused in Hauth as (_ & Hhub & Hs). split_and!; [done| |done].
    intros id s. destruct Hs as [-> | ->]; [done|]. by intros [_ ?]%lookup_delete_Some.
  - apply authenticate_ok in Hauth as [Hvalid ->]. split_and!; [done..|].
    by intros ? [= <-].
Qed.

Lemma HandleLogin_state `{UnicodeTrim} r unixNano unix now sv resp sv' :
  HandleLogin r unixNano unix now sv = (resp, sv') →
  sv' = sv ∨
  ∃ username, validUsername username = true ∧
    hasActiveConn (theHub sv) username = false ∧
    sv' = mkServer (theHub sv)
            (<[generateSessionID unixNano unix := Session.mk username (now + 24 * Hour)]>
               (sessions sv)).
Proof.
  unfold HandleLogin. case_decide; [intros [= _ <-]; by left|].
  destruct (Request.Login r) as [name|]; [|intros [= _ <-]; by left].
  case_decide as Hlen; [intros [= _ <-]; by left|].
  destruct (string_forall isUsernameByte (strings_TrimSpace name)) eqn:Hbytes; simpl;
    [|intros [= _ <-]; by left].
  destruct (hasActiveConn (theHub sv) (strings_TrimSpace name)) eqn:Hconn;
    [intros [= _ <-]; by left|].
  intros [= _ <-]. right. exists (strings_TrimSpace name). split_and!; [|done..].
  unfold validUsername. rewrite Hbytes, andb_true_r. apply bool_decide_eq_true. lia.
Qed.

Lemma HandleLogout_state r now nowU order sv resp sv' :
  HandleLogout r now nowU order sv = Some (resp, sv') →
  (∀ id s, sessions sv' !! id = Some s → sessions sv !! id = Some s) ∧
  (theHub sv' = theHub sv ∨
   ∃ session client, validSession r now sv session ∧
     Clients (theHub sv) !! Session.Username session = Some client ∧
     unregisterClient client nowU order (theHub sv) = Ok () (theHub sv')).
Proof.
  unfold HandleLogout. case_decide; [intros [= _ <-]; by split; [|left]|].
  destruct (authenticate r now sv) as [[refusal|session] sv0] eqn:Hauth.
  - apply authenticate_state in Hauth as (Hhub & Hs & _). intros [= _ <-]. by split; [|left].
  - apply authenticate_ok in Hauth as [Hvalid ->].
    destruct (Clients (theHub sv) !! Session.Username session) as [client|] eqn:Hclient.
    + destruct (unregisterClient client nowU order (theHub sv)) as [[] h'|] eqn:Hrun; [|done].
      simpl. intros [= _ <-]. simpl. split.
      * intros id s. unfold DeleteSession. by intros [_ ?]%lookup_delete_Some.
      * right. by exists session, client.
    + intros [= _ <-]. simpl. split; [|by left].
      intros id s. unfold DeleteSession. by intros [_ ?]%lookup_delete_Some.
Qed.

Lemma HandleWebSocket_state r now upgrade hubReady client nowR orderC orderU sv resp sv' :
  HandleWebSocket r now upgrade hubReady client nowR orderC orderU sv = Some (resp, sv') →
  (∀ id s, sessions sv' !! id = Some s → sessions sv !! id = Some s) ∧
  (theHub sv' = theHub sv ∨
   ∃ session b, validSession r now sv session ∧
     hasActiveConn (theHub sv) (Session.Username session) = false ∧
     connect client (Session.Username session) nowR orderC orderU (theHub sv)
     = Ok b (theHub sv')).
Proof.
  unfold HandleWebSocket.
  destruct (authenticate r now sv) as [[refusal|session] sv0] eqn:Hauth.
  - apply authenticate_state in Hauth as (Hhub & Hs & _). intros [= _ <-]. by split; [|left].
  - apply authenticate_ok in Hauth as [Hvalid ->].
    destruct (hasActiveConn (theHub sv) (Session.Username session)) eqn:Hconn;
      [intros [= _ <-]; by split; [|left]|].
    destruct upgrade as [|code]; [|intros [= _ <-]; by split; [|left]].
    destruct hubReady; [|intros [= _ <-]; by split; [|left]].
    destruct (connect client _ nowR orderC orderU (theHub sv)) as [b h'|] eqn:Hrun; [|done].
    intros [= _ <-]. simpl. split; [done|]. right. by exists session, b.
Qed.

(** What a step of the server does: to the hub, one call at most; to the
    sessions, entries deleted or one entry added for a name the login
    admits. *)
Lemma serverStep_effect `{UnicodeTrim} sv sv' :
  serverStep sv sv' →
  hubEffect sv (theHub sv') ∧
  (∀ id s, sessions sv' !! id = Some s →
     sessions sv !! id = Some s ∨ validUsername (Session.Username s) = true).
Proof.
  intros [r a b now resp Hrun | r now nowU order resp Hrun
         | r now upgrade hubReady client nowR oC oU resp Hfresh Hrun
         | r now found Hrun | client c msg id now h' Hc Hrun ->
         | client c to isTyping h' Hc Hrun -> | client now order h' Hrun ->
         | client h' Hrun ->].
  - apply HandleLogin_state in Hrun as [->|(username & Hvalid & _ & ->)].
    + split; [by apply effect_none | auto].
    + split; [by apply effect_none|]. simpl. intros id s.
      destruct (decide (id = generateSessionID a b)) as [->|Hne].
      * rewrite lookup_insert_eq. intros [= <-]. by right.
      * rewrite lookup_insert_ne by done. auto.
    - apply HandleLogout_state in Hrun as [Hs [Hhub|(session & client & _ & _ & Hun)]].
      + split; [by apply effect_none | auto].
      + split; [by eapply effect_unregister | auto].
    - apply HandleWebSocket_state in Hrun as [Hs [Hhub|(session & b & Hvalid & Hconn & Hrun)]].
      + split; [by apply effect_none | auto].
      + split; [|auto]. eapply effect_connect; [done| |done|exact Hrun].
        destruct Hvalid as (id & _ & _ & Hid & _). by exists id, session.
    - apply authenticate_state in Hrun as (Hhub & Hs & _).
      split; [by apply effect_none | auto].
    - split; [by eapply effect_message | auto].
    - split; [by eapply effect_typing | auto].
    - split; [by eapply effect_unregister | auto].
    - split; [by eapply effect_writer | auto].
Qed.

Lemma hubEffect_step sv h' : hubEffect sv h' → h' = theHub sv ∨ step (theHub sv) h'.
Proof.
  intros [-> | client username now oC oU b Hfresh _ _ Hrun | client now order Hrun
         | client c msg id now Hc Hrun | event Hrun | client Hrun].
  - by left.
  - right. by eapply step_connect.
  - right. by eapply step_unregister.
  - right. by eapply step_message.
  - right. by eapply step_typing.
  - right. by eapply step_writer.
Qed.

(** The hub of the server is in a state of the hub: what holds in every
    state the hub can be in holds on the server. *)
Lemma serverReachable_hub `{UnicodeTrim} sv : serverReachable sv → reachable (theHub sv).
Proof.
  unfold serverReachable, reachable. intros Hsteps.
  assert (Hgen : ∀ sv0 sv1, rtc serverStep sv0 sv1 →
            rtc step NewHub (theHub sv0) → rtc step NewHub (theHub sv1)).
  { intros sv0 sv1 Hrtc. induction Hrtc as [|s1 s2 s3 Hstep _ IH]; [done|].
    intros Hreach. apply IH.
    apply serverStep_effect in Hstep as [[Heq|Hstep]%hubEffect_step _];
      [by rewrite Heq | by eapply rtc_r]. }
  by apply (Hgen NewServer sv).
Qed.

(** ** The names of the server *)

Lemma serverStep_names `{UnicodeTrim} sv sv' :
  hub_wf (theHub sv) → names_valid sv → serverStep sv sv' → names_valid sv'.
Proof.
  intros Hwf [Hsess Hcl Hus Hsend] [Heff Hs]%serverStep_effect.
  set (P := λ c : Client.t, validUsername (Client.Username c) = true) in *.
  assert (P_enqueue : ∀ d c, P c → hasRoomFor 1 c → P (enqueue d c)) by done.
  assert (P_close : ∀ c, P c → P (closeQueue c)) by done.
  assert (P_dequeue : ∀ c, P c → Chan.buf (Client.Send c) ≠ [] → P (dequeue c)) by done.
  assert (Hsess' : map_Forall (λ _ session,
            validUsername (Session.Username session) = true) (sessions sv')).
  { intros id s Hid. destruct (Hs id s Hid) as [Hold|?]; [|done]. by apply (Hsess id s). }
  destruct Heff as [Heq | client username now oC oU b Hfresh (id & session & Hid & Hname) _ Hrun
                   | client now order Hrun | client c msg id now Hc Hrun | event Hrun
                   | client Hrun].
  - split; [done|..]; by rewrite Heq.
  - assert (Hvalid : validUsername username = true).
    { rewrite <- Hname. by apply (Hsess id session). }
    split; [done|..].
    + by eapply (connect_heap P).
    + destruct (connect_tables _ _ _ _ _ _ _ _ Hwf Hrun) as [_ ->].
      by apply map_Forall_insert_2.
    + by rewrite (connect_Conversations _ _ _ _ _ _ _ _ Hwf Hrun).
  - split; [done|..].
    + by eapply (unregisterClient_heap P).
    + destruct (unregisterClient_tables _ _ _ _ _ Hrun) as (c & _ & _ & _ & Hkeys & _).
      intros u user Hu. destruct (Hkeys u) as [user0 Hu0]; [by eexists|].
      by apply (Hus u user0).
    + by rewrite (unregisterClient_Conversations _ _ _ _ _ Hrun).
  - split; [done|..].
    + by eapply (handleInboundMessageWithSender_heap P).
    + by destruct (handleInboundMessageWithSender_tables _ _ _ _ _ _ Hrun) as [-> _].
    + rewrite (handleInboundMessageWithSender_Conversations _ _ _ _ _ _ Hrun).
      apply map_Forall_insert_2; [|done]. apply Forall_app. split.
      * destruct (Conversations (theHub sv) !! _) as [log|] eqn:Hlog; simpl; [|constructor].
        by apply Hsend in Hlog.
      * apply Forall_singleton. simpl. by apply (Hcl client c).
  - destruct (handleTypingEvent_tables _ _ _ Hrun) as (HU & HC & _).
    split; [done|..].
    + by eapply (handleTypingEvent_heap P).
    + by rewrite HU.
    + by rewrite HC.
  - destruct (writerReceive_tables _ _ _ Hrun) as (HU & HC & _).
    split; [done|..].
    + by eapply (writerReceive_heap P).
    + by rewrite HU.
    + by rewrite HC.
Qed.

Lemma serverReachable_names `{UnicodeTrim} sv : serverReachable sv → names_valid sv.
Proof.
  intros Hreach.
  assert (Hgen : ∀ sv0 sv1, rtc serverStep sv0 sv1 →
            hub_wf (theHub sv0) → names_valid sv0 → names_valid sv1).
  { intros sv0 sv1 Hrtc. induction Hrtc as [|s1 s2 s3 Hstep _ IH]; [done|].
    intros Hwf Hnames. apply IH; [|by eapply serverStep_names].
    apply serverStep_effect in Hstep as [[Heq|Hstep]%hubEffect_step _];
      [by rewrite Heq | by eapply step_wf]. }
  apply (Hgen NewServer sv Hreach); [apply NewHub_wf|].
  split; apply map_Forall_empty.
Qed.

(** X13.  In every state the server can be in, every name is one the login
    admits (between 1 and 50 letters, digits and underscores): the names of
    the sessions, of the client objects and of the presence records, and
    the sender of every stored message.  A recipient is not checked: it is
    the name the sender wrote. *)
Theorem server_names_valid `{UnicodeTrim} (sv : Server) :
  serverReachable sv →
  (∀ id session, sessions sv !! id = Some session →
     validUsername (Session.Username session) = true) ∧
  (∀ p c, heap (theHub sv) !! p = Some c → validUsername (Client.Username c) = true) ∧
  (∀ u user, Users (theHub sv) !! u = Some user → validUsername u = true) ∧
  (∀ k log m, Conversations (theHub sv) !! k = Some log → m ∈ log →
     validUsername (Message.From m) = true).
Proof.
  intros [Hsess Hcl Hus Hsend]%serverReachable_names. split_and!.
  - intros id session. apply Hsess.
  - intros p c. apply Hcl.
  - intros u user. apply Hus.
  - intros k log m Hk Hm. pose proof (Hsend k log Hk) as Hall.
    rewrite Forall_forall in Hall. by apply Hall.
Qed.

(** ** One connection at a time *)

Lemma HandleLogin_conflict `{UnicodeTrim} r unixNano unix now sv name :
  Request.Login r = Some name →
  hasActiveConn (theHub sv) (strings_TrimSpace name) = true →
  ∃ resp, HandleLogin r unixNano unix now sv = (resp, sv) ∧
          refusedWith [400; 405; 409]%nat resp.
Proof.
  intros Hname Hconn. unfold HandleLogin. rewrite Hname, Hconn.
  repeat (case_decide || destruct (negb _));
    (eexists; split; [reflexivity|]; apply http_Error_refused);
    [right; by left | by left | by left | right; right; by left].
Qed.

Lemma HandleWebSocket_conflict r now upgrade hubReady client nowR orderC orderU sv session :
  validSession r now sv session →
  hasActiveConn (theHub sv) (Session.Username session) = true →
  HandleWebSocket r now upgrade hubReady client nowR orderC orderU sv =
  Some (http_Error "User already has an active connection" 409, sv).
Proof.
  intros Hvalid Hconn. unfold HandleWebSocket.
  assert (Hauth : authenticate r now sv = (inr session, sv)) by (by apply authenticate_ok).
  by rewrite Hauth, Hconn.
Qed.

Lemma registered_hasActiveConn h u p :
  hub_wf h → Clients h !! u = Some p → hasActiveConn h u = true.
Proof.
  intros Hwf Hu. pose proof (wf_presence h Hwf u p Hu) as Hpr.
  unfold presence_ok, hasActiveConn in *. destruct (Users h !! u) as [user|]; [|done].
  destruct Hpr as [_ ->]. by apply bool_decide_eq_true.
Qed.

(** X14.  While a connection is registered for an identity, the server
    admits no second one: a login under the name is refused and opens no
    session, and a WebSocket request with a session of the name is answered
    409; the state is left as it is, so the registered connection is
    neither closed nor replaced. *)
Theorem second_connection_refused `{UnicodeTrim} (sv : Server) (u : string) (p : ptr) :
  serverReachable sv → Clients (theHub sv) !! u = Some p →
  (∀ r unixNano unix now name,
     Request.Login r = Some name → strings_TrimSpace name = u →
     ∃ resp, HandleLogin r unixNano unix now sv = (resp, sv) ∧
             refusedWith [400; 405; 409]%nat resp) ∧
  (∀ r now upgrade hubReady client nowR orderC orderU session,
     validSession r now sv session → Session.Username session = u →
     HandleWebSocket r now upgrade hubReady client nowR orderC orderU sv =
     Some (http_Error "User already has an active connection" 409, sv)).
Proof.
  intros Hwf%serverReachable_hub%reachable_wf Hu.
  pose proof (registered_hasActiveConn _ _ _ Hwf Hu) as Hconn. split.
  - intros r a b now name Hname <-. by eapply HandleLogin_conflict.
  - intros r now upgrade hubReady client nowR oC oU session Hvalid <-.
    by eapply HandleWebSocket_conflict.
Qed.

(** ** After an overflow *)

Lemma lockedOut_effect sv h' u :
  hub_wf (theHub sv) → lockedOut (theHub sv) u → hubEffect sv h' → lockedOut h' u.
Proof.
  intros Hwf [Hnone Hconn]
    [-> | client username now oC oU b Hfresh _ Hfree Hrun | client now order Hrun
     | client c msg id now Hc Hrun | event Hrun | client Hrun].
  - done.
  - assert (Hne : u ≠ username) by (intros ->; congruence).
    destruct (connect_tables _ _ _ _ _ _ _ _ Hwf Hrun) as [Hcl HU]. split.
    + destruct (Clients h' !! u) as [q|] eqn:Hq; [|done].
      destruct (Hcl u q Hq) as [[? _]|?]; congruence.
    + unfold hasActiveConn in *. rewrite HU. by rewrite lookup_insert_ne.
  - destruct (unregisterClient_tables _ _ _ _ _ Hrun) as (c & Hc & Hcl & HU & _ & Hstale).
    destruct (decide (u = Client.Username c)) as [->|Hne].
    + rewrite Hstale; [done|]. by rewrite Hnone.
    + split.
      * destruct (Clients h' !! u) as [q|] eqn:Hq; [|done]. apply Hcl in Hq. congruence.
      * unfold hasActiveConn in *. by rewrite HU.
  - destruct (handleInboundMessageWithSender_tables _ _ _ _ _ _ Hrun) as [HU Hcl]. split.
    + destruct (Clients h' !! u) as [q|] eqn:Hq; [|done]. apply Hcl in Hq. congruence.
    + unfold hasActiveConn in *. by rewrite HU.
  - destruct (handleTypingEvent_tables _ _ _ Hrun) as (HU & _ & Hcl). split.
    + destruct (Clients h' !! u) as [q|] eqn:Hq; [|done]. apply Hcl in Hq. congruence.
    + unfold hasActiveConn in *. by rewrite HU.
  - destruct (writerReceive_tables _ _ _ Hrun) as (HU & _ & HC). split.
    + by rewrite HC.
    + unfold hasActiveConn in *. by rewrite HU.
Qed.

(** X15.  An identity whose queue overflowed is locked out.  The delivery
    attempt that finds the queue of a registered connection full removes
    the connection from the client table and leaves the presence record of
    the identity as it is, with the connection in it.  From then on,
    whatever the server does, the identity has no registered connection and
    its presence record holds one: the unregister call of the removed
    connection is skipped as stale, a login under the name is refused, and
    a WebSocket request with a session of the name is answered 409. *)
Theorem overflow_locks_out `{UnicodeTrim} :
  (∀ h u p c msgType payload h',
     hub_wf h → Clients h !! u = Some p → heap h !! p = Some c → isFull c →
     sendToClient p msgType payload h = Ok () h' → lockedOut h' u) ∧
  (∀ sv sv' u,
     hub_wf (theHub sv) → lockedOut (theHub sv) u → rtc serverStep sv sv' →
     lockedOut (theHub sv') u) ∧
  (∀ sv u, lockedOut (theHub sv) u →
     (∀ client c now order,
        heap (theHub sv) !! client = Some c → Client.Username c = u →
        unregisterClient client now order (theHub sv) = Ok () (theHub sv)) ∧
     (∀ r unixNano unix now name,
        Request.Login r = Some name → strings_TrimSpace name = u →
        ∃ resp, HandleLogin r unixNano unix now sv = (resp, sv) ∧
                refusedWith [400; 405; 409]%nat resp) ∧
     (∀ r now upgrade hubReady client nowR orderC orderU session,
        validSession r now sv session → Session.Username session = u →
        HandleWebSocket r now upgrade hubReady client nowR orderC orderU sv =
        Some (http_Error "User already has an active connection" 409, sv))).
Proof.
  split_and!.
  - intros h u p c ty pl h' Hwf Hu Hc Hfull Hrun.
    destruct (registered_lookup h u p Hwf Hu) as (c' & Hc' & Hname & Hopen).
    assert (c' = c) as -> by congruence.
    pose proof (registered_hasActiveConn h u p Hwf Hu) as Hconn.
    rewrite (sendToClient_full h p c) in Hrun by done. injection Hrun as <-.
    split; simpl; [|done]. rewrite Hname. apply lookup_delete_eq.
  - intros sv sv' u Hwf Hlocked Hsteps.
    induction Hsteps as [|s1 s2 s3 Hstep _ IH]; [done|].
    apply serverStep_effect in Hstep as [Heff _]. apply IH.
    + destruct (hubEffect_step _ _ Heff) as [->|Hstep]; [done | by eapply step_wf].
    + by eapply lockedOut_effect.
  - intros sv u [Hnone Hconn]. split_and!.
    + intros client c now order Hc <-. apply (unregisterClient_stale _ client c); [done|].
      by rewrite Hnone.
    + intros r a b now name Hname <-. by eapply HandleLogin_conflict.
    + intros r now upgrade hubReady client nowR oC oU session Hvalid <-.
      by eapply HandleWebSocket_conflict.
Qed.

(** ** Who reads a conversation *)

Lemma messages_of_pair h a b m :
  logs_keyed h → noBar a = true → noBar b = true →
  (m ∈ GetConversationMessages h a b ↔
   (∃ k log, Conversations h !! k = Some log ∧ m ∈ log) ∧
   ((Message.From m = a ∧ Message.To m = b) ∨ (Message.From m = b ∧ Message.To m = a))).
Proof.
  intros Hkeyed Ha Hb. unfold GetConversationMessages. split.
  - intros Hm. destruct (Conversations h !! ConvKey a b) as [log|] eqn:Hlog.
    2: { simpl in Hm. by apply elem_of_nil in Hm. }
    simpl in Hm. split; [by exists (ConvKey a b), log|].
    apply Hkeyed in Hlog. rewrite Forall_forall in Hlog.
    by apply ConvKey_inj, Hlog.
  - intros [(k & log & Hk & Hm) Hbetween].
    pose proof (Hkeyed k log Hk) as Hall. rewrite Forall_forall in Hall.
    apply Hall in Hm as Hkey.
    assert (k = ConvKey a b) as ->.
    { destruct Hbetween as [[E1 E2]|[E1 E2]]; rewrite E1, E2 in Hkey;
        [done | by rewrite ConvKey_comm]. }
    by rewrite Hk.
Qed.

(** X16.  In every state the server can be in, a GET of a conversation with
    a session answers with the stored messages between the identity of the
    session and the peer named in the path, and with no other message,
    when the name of the peer, trimmed, is not empty and has no
    separator; the state is left as it is.  The caller names the peer, not
    the other party: a session reads the conversations of its own identity
    only. *)
Theorem HandleGetConversation_own_messages `{UnicodeTrim} (sv : Server) (r : Request.t)
    (now : Time) (session : Session.t) :
  let u := Session.Username session in
  let peer := strings_TrimSpace (strings_TrimPrefix (Request.Path r) "/api/conversations/") in
  serverReachable sv → Request.Method r = "GET" → validSession r now sv session →
  peer ≠ "" → noBar peer = true →
  ∃ messages,
    HandleGetConversation r now sv = (jsonResponse (BodyMessages messages), sv) ∧
    ∀ m, m ∈ messages ↔
      (∃ k log, Conversations (theHub sv) !! k = Some log ∧ m ∈ log) ∧
      ((Message.From m = u ∧ Message.To m = peer) ∨
       (Message.From m = peer ∧ Message.To m = u)).
Proof.
  intros u peer Hreach Hm Hvalid Hpeer Hbar. subst u peer.
  pose proof (serverReachable_names sv Hreach) as [Hsess _ _ _].
  pose proof (reachable_wf _ (serverReachable_hub sv Hreach)) as Hwf.
  assert (Hu : noBar (Session.Username session) = true).
  { destruct Hvalid as (id & _ & _ & Hid & _). by apply validUsername_noBar, (Hsess id). }
  unfold HandleGetConversation. rewrite decide_False by (by intros ?).
  assert (Hauth : authenticate r now sv = (inr session, sv)) by (by apply authenticate_ok).
  rewrite Hauth. rewrite decide_False by done.
  eexists. split; [reflexivity|]. intros m.
  apply messages_of_pair; [by apply Hwf|done..].
Qed.

(** ** HandleLogout *)

Lemma unregisterClient_returns h u client now order :
  hub_wf h → Clients h !! u = Some client →
  ∃ c h', heap h !! client = Some c ∧ Client.Username c = u ∧
          unregisterClient client now order h = Ok () h'.
Proof.
  intros Hwf Hu. destruct (registered_lookup h u client Hwf Hu) as (c & Hc & Hname & _).
  subst u. rewrite (unregisterClient_current h client c) by done.
  destruct (broadcastStatus_spec (unregisterPrefix h client c now) (Client.Username c)
              false order) as (h' & Hrun & _).
  { by apply unregisterPrefix_wf. }
  by exists c, h'.
Qed.

(** X17.  In every state the server can be in, a POST to the logout with a
    session answers 200 and clears the cookie.  It deletes the session, so
    that no later request is authenticated by the same cookie; and it
    unregisters the connection registered for the identity, if any: the
    identity has no registered connection afterwards, and if it had one its
    presence record is offline, without connection, with the time of the
    call as lastSeen.  With no registered connection the hub is left as it
    is. *)
Theorem HandleLogout_effect `{UnicodeTrim} (sv : Server) (r : Request.t) (now nowU : Time)
    (order : list string) (session : Session.t) :
  let u := Session.Username session in
  serverReachable sv → Request.Method r = "POST" → validSession r now sv session →
  ∃ sv',
    HandleLogout r now nowU order sv =
    Some (Response.mk 200 (Some (Cookie.mk "session_id" "" "/" true false SameSiteUnset (-1)))
            BodyEmpty, sv') ∧
    sessions sv' = delete (getSessionIDFromRequest r) (sessions sv) ∧
    (∀ r' now' session',
       Request.SessionCookie r' = Request.SessionCookie r →
       ¬ validSession r' now' sv' session') ∧
    Clients (theHub sv') !! u = None ∧
    (∀ client, Clients (theHub sv) !! u = Some client →
       Users (theHub sv') !! u = Some (User.mk u false None nowU)) ∧
    (Clients (theHub sv) !! u = None → theHub sv' = theHub sv).
Proof.
  intros u Hreach Hm Hvalid. subst u.
  pose proof (reachable_wf _ (serverReachable_hub sv Hreach)) as Hwf.
  unfold HandleLogout. rewrite decide_False by (by intros ?).
  assert (Hauth : authenticate r now sv = (inr session, sv)) by (by apply authenticate_ok).
  rewrite Hauth.
  assert (Hgone : ∀ h' r' now' session',
            Request.SessionCookie r' = Request.SessionCookie r →
            ¬ validSession r' now'
                (mkServer h' (DeleteSession (getSessionIDFromRequest r) (sessions sv)))
                session').
  { intros h' r' now' session' Hsame (id & Hid & _ & Hlook & _). simpl in Hlook.
    unfold getSessionIDFromRequest, DeleteSession in Hlook. rewrite <- Hsame, Hid in Hlook.
    simpl in Hlook. by rewrite lookup_delete_eq in Hlook. }
  destruct (Clients (theHub sv) !! Session.Username session) as [client|] eqn:Hclient.
  - destruct (unregisterClient_returns _ _ client nowU order Hwf Hclient)
      as (c & h' & Hc & Hname & Hrun).
    rewrite Hrun. simpl. eexists. split; [reflexivity|]. simpl.
    rewrite <- Hname in Hclient.
    destruct (unregisterClient_removed _ _ _ _ _ _ Hwf Hc Hclient Hrun)
      as (_ & Hnone & _ & HU).
    rewrite <- Hname. split_and!; [done|apply Hgone|done| |done].
    intros client' _. rewrite HU. apply lookup_insert_eq.
  - eexists. split; [reflexivity|]. simpl. split_and!; [done|apply Hgone|done..].
Qed.

(** * Properties of the pumps *)

(** ** The writer pump *)

Lemma withQueue_id c : withQueue (Chan.buf (Client.Send c)) c = c.
Proof. by destruct c as [u [b cl cp]]. Qed.

Lemma afterWrites_nil conn : afterWrites [] conn = conn.
Proof.
  destruct conn as [w [k|] cl]; unfold afterWrites; simpl; rewrite app_nil_r;
    [by rewrite Nat.sub_0_r | done].
Qed.

Lemma Conn_WriteMessage_ok frame conn :
  canWrite 1 conn → Conn_WriteMessage frame conn = Some (afterWrites [frame] conn).
Proof.
  unfold canWrite, Conn_WriteMessage, afterWrites.
  destruct (Conn.budget conn) as [[|k]|]; simpl; [lia| |done].
  intros _. by rewrite Nat.sub_0_r.
Qed.

Lemma afterWrites_cons frame frames conn :
  afterWrites frames (afterWrites [frame] conn) = afterWrites (frame :: frames) conn.
Proof.
  unfold afterWrites. simpl. rewrite <- app_assoc. simpl. f_equal.
  destruct (Conn.budget conn) as [k|]; [|done]. f_equal. lia.
Qed.

Lemma canWrite_step n frame conn : canWrite (S n) conn → canWrite n (afterWrites [frame] conn).
Proof. unfold canWrite, afterWrites. simpl. destruct (Conn.budget conn); [lia|done]. Qed.

Lemma canWrite_le n n' conn : (n ≤ n')%nat → canWrite n' conn → canWrite n conn.
Proof. unfold canWrite. destruct (Conn.budget conn); [lia|done]. Qed.

(** The inner loop on a queue that holds the frames it is to receive. *)
Lemma writeQueued_writes client q : ∀ rest c conn h,
  heap h !! client = Some c → Chan.buf (Client.Send c) = q ++ rest →
  canWrite (length q) conn →
  writeQueued client (length q) conn h =
  Ok (PumpRuns, afterWrites (textFrames q) conn) (set_heap (<[client := withQueue rest c]>) h).
Proof.
  induction q as [|d q IH]; intros rest c conn h Hc Hbuf Hcan; simpl.
  - unfold ret. rewrite afterWrites_nil. simpl in Hbuf. rewrite <- Hbuf, withQueue_id.
    by rewrite set_heap_id.
  - unfold bind at 1, deref. rewrite Hc. unfold chan_recv. rewrite Hbuf. simpl.
    unfold bind at 1. rewrite (setSend_eq _ _ c) by done.
    rewrite Conn_WriteMessage_ok by (eapply canWrite_le; [|exact Hcan]; simpl; lia).
    erewrite (IH rest); [| simpl; apply lookup_insert_eq | done | by apply canWrite_step].
    by rewrite set_heap_twice, afterWrites_cons.
Qed.

(** The inner loop when the socket fails at the write of the frame after
    the first [k]. *)
Lemma writeQueued_fails client q : ∀ k rest c w cl h,
  heap h !! client = Some c → Chan.buf (Client.Send c) = q ++ rest →
  (k < length q)%nat →
  writeQueued client (length q) (Conn.mk w (Some k) cl) h =
  Ok (PumpReturned, Conn.mk (w ++ textFrames (take k q)) (Some 0%nat) true)
     (set_heap (<[client := withQueue (drop (S k) q ++ rest) c]>) h).
Proof.
  induction q as [|d q IH]; intros k rest c w cl h Hc Hbuf Hk; simpl in *; [lia|].
  unfold bind at 1, deref. rewrite Hc. unfold chan_recv. rewrite Hbuf. simpl.
  unfold bind at 1. rewrite (setSend_eq _ _ c) by done.
  destruct k as [|k]; simpl.
  - unfold ret, Conn_Close. simpl. rewrite app_nil_r. by rewrite drop_0.
  - erewrite (IH k rest); [| simpl; apply lookup_insert_eq | done | lia].
    rewrite set_heap_twice. unfold withQueue. simpl. by rewrite <- app_assoc.
Qed.

(** X18.  A turn of the writer pump on a queue that holds frames: the pump
    writes every frame of the queue to the socket as a text frame, in the
    order of the queue, leaves the queue empty and goes on; it does not
    wait in its inner loop and writes no empty frame.  When the socket
    fails at the write of the frame after the first k, the pump returns
    with the socket closed, having written those k frames and taken one
    more off the queue. *)
Theorem writePumpSend_drains (h : Hub) (client : ptr) (c : Client.t) (conn : Conn.t) :
  heap h !! client = Some c → Chan.buf (Client.Send c) ≠ [] →
  let q := Chan.buf (Client.Send c) in
  (canWrite (length q) conn →
   writePumpSend client conn h =
   Ok (PumpRuns, afterWrites (textFrames q) conn) (set_heap (<[client := withQueue [] c]>) h)) ∧
  (∀ k, Conn.budget conn = Some k → (k < length q)%nat →
   writePumpSend client conn h =
   Ok (PumpReturned, Conn.mk (Conn.written conn ++ textFrames (take k q)) (Some 0%nat) true)
      (set_heap (<[client := withQueue (drop (S k) q) c]>) h)).
Proof.
  intros Hc Hne q. subst q.
  destruct (Chan.buf (Client.Send c)) as [|d q] eqn:Hbuf; [done|]. clear Hne. split.
  - intros Hcan. unfold writePumpSend, bind at 1, deref. rewrite Hc.
    unfold chan_recv. rewrite Hbuf. unfold bind at 1. rewrite (setSend_eq _ _ c) by done.
    rewrite Conn_WriteMessage_ok by (eapply canWrite_le; [|exact Hcan]; simpl; lia).
    unfold bind at 1, deref. simpl. rewrite lookup_insert_eq. simpl.
    erewrite (writeQueued_writes client q []);
      [|simpl; apply lookup_insert_eq|simpl; by rewrite app_nil_r|by apply canWrite_step].
    by rewrite set_heap_twice, afterWrites_cons.
  - intros k Hk Hlt. destruct conn as [w b cl]. simpl in Hk. subst b.
    unfold writePumpSend, bind at 1, deref. rewrite Hc.
    unfold chan_recv. rewrite Hbuf. unfold bind at 1. rewrite (setSend_eq _ _ c) by done.
    destruct k as [|k]; simpl.
    + unfold ret, Conn_Close. simpl. by rewrite app_nil_r, drop_0.
    + unfold bind at 1, deref. simpl. rewrite lookup_insert_eq. simpl.
      erewrite (writeQueued_fails client q k []);
        [|simpl; apply lookup_insert_eq|simpl; by rewrite app_nil_r|simpl in Hlt; lia].
      rewrite set_heap_twice. unfold withQueue. simpl.
      by rewrite app_nil_r, <- app_assoc.
Qed.

(** X19.  The writer pump on a closed queue, with a socket that does not
    fail: the frames still in the queue are written, in order, then the
    close frame, and the pump returns with the socket closed and the queue
    empty.  So a connection that the hub closes, by an unregister call, by
    a newer connection or after an overflow, still gets every frame queued
    for it before.  On an open and empty queue the pump writes nothing and
    stays in its loop. *)
Theorem writePump_closed_queue (h : Hub) (client : ptr) (c : Client.t) (conn : Conn.t)
    (fuel : nat) :
  heap h !! client = Some c →
  let q := Chan.buf (Client.Send c) in
  (Chan.closed (Client.Send c) = true → canWrite (S (length q)) conn →
   writePump (S (S fuel)) client conn h =
   Ok (PumpReturned, Conn_Close (afterWrites (textFrames q ++ [CloseMessage]) conn))
      (set_heap (<[client := withQueue [] c]>) h)) ∧
  (Chan.closed (Client.Send c) = false → q = [] →
   writePump fuel client conn h = Ok (PumpRuns, conn) h).
Proof.
  intros Hc q. subst q. split.
  - intros Hclosed Hcan.
    assert (Hlast : ∀ g conn', heap g !! client = Some (withQueue [] c) → canWrite 1 conn' →
              writePump (S fuel) client conn' g =
              Ok (PumpReturned, Conn_Close (afterWrites [CloseMessage] conn')) g).
    { intros g conn' Hg Hcan'. simpl. unfold bind at 1.
      unfold writePumpSend, bind at 1, deref. rewrite Hg. unfold chan_recv. simpl.
      rewrite Hclosed. by rewrite Conn_WriteMessage_ok. }
    destruct (Chan.buf (Client.Send c)) as [|d q] eqn:Hbuf.
    + assert (Hid : withQueue [] c = c) by (by rewrite <- Hbuf, withQueue_id).
      rewrite Hid, set_heap_id by done. simpl length.
      pose proof (Hlast h conn) as Hl. rewrite Hid in Hl.
      change (writePump (S (S fuel)) client conn h) with
        (bind (writePumpSend client conn) (λ turn,
           match turn.1 with
           | PumpRuns => writePump (S fuel) client turn.2
           | _ => ret turn
           end) h).
      unfold bind at 1. unfold writePumpSend, bind at 1, deref. rewrite Hc.
      unfold chan_recv. rewrite Hbuf, Hclosed. simpl.
      rewrite Conn_WriteMessage_ok by (eapply canWrite_le; [|exact Hcan]; simpl; lia).
      done.
    + change (writePump (S (S fuel)) client conn h) with
        (bind (writePumpSend client conn) (λ turn,
           match turn.1 with
           | PumpRuns => writePump (S fuel) client turn.2
           | _ => ret turn
           end) h).
      unfold bind at 1. unfold writePumpSend, bind at 1, deref. rewrite Hc.
      unfold chan_recv. rewrite Hbuf. unfold bind at 1. rewrite (setSend_eq _ _ c) by done.
      rewrite Conn_WriteMessage_ok by (eapply canWrite_le; [|exact Hcan]; simpl; lia).
      unfold bind at 1, deref. simpl heap. rewrite lookup_insert_eq. simpl Chan.buf.
      erewrite (writeQueued_writes client q []);
        [|simpl; apply lookup_insert_eq|simpl; by rewrite app_nil_r|].
      2: { apply canWrite_step. eapply canWrite_le; [|exact Hcan]. simpl. lia. }
      rewrite set_heap_twice. cbn [fst snd].
      rewrite Hlast.
      * f_equal. f_equal. rewrite afterWrites_cons. unfold afterWrites, Conn_Close. simpl.
        rewrite <- !app_assoc. simpl. f_equal.
        destruct (Conn.budget conn); [|done]. f_equal. rewrite length_app. simpl. lia.
      * simpl. rewrite lookup_insert_eq. by unfold withQueue.
      * rewrite afterWrites_cons. unfold canWrite, afterWrites in *. simpl in *.
        destruct (Conn.budget conn); [|done]. unfold textFrames. rewrite length_fmap. lia.
  - intros Hopen Hq. induction fuel as [|fuel IH]; [done|].
    simpl. unfold bind at 1. unfold writePumpSend, bind at 1, deref. rewrite Hc.
    unfold chan_recv. rewrite Hq, Hopen. simpl. exact IH.
Qed.

(** ** The reader pump *)

Lemma keepsClients_refl h : keepsClients h h.
Proof. intros p c Hc. by exists c. Qed.

Lemma keepsClients_heap h0 h h' : heap h' = heap h → keepsClients h0 h → keepsClients h0 h'.
Proof. intros Heq Hk p c Hc. rewrite Heq. by apply Hk. Qed.

Lemma keepsClients_insert h0 h h' p c c' :
  heap h !! p = Some c → Client.Username c' = Client.Username c →
  heap h' = <[p := c']> (heap h) → keepsClients h0 h → keepsClients h0 h'.
Proof.
  intros Hc Hname Heq Hk q c0 Hq. destruct (Hk q c0 Hq) as (c1 & Hc1 & Hn1). rewrite Heq.
  destruct (decide (q = p)) as [->|Hne].
  - rewrite lookup_insert_eq. exists c'. split; [done|]. congruence.
  - rewrite lookup_insert_ne by done. by exists c1.
Qed.

Lemma sendToClient_keeps h0 client msgType payload h h' :
  keepsClients h0 h → sendToClient client msgType payload h = Ok () h' → keepsClients h0 h'.
Proof.
  intros Hk Hrun.
  apply sendToClient_cases in Hrun as (c & Hc & Hopen & [[Hroom ->]|[Hfull ->]]).
  - by apply (keepsClients_insert h0 h _ client c (enqueue (WSMessage.mk msgType payload) c)).
  - by apply (keepsClients_insert h0 h _ client c (closeQueue c)).
Qed.

Lemma broadcastStatus_keeps h0 username online order h h' :
  keepsClients h0 h → broadcastStatus username online order h = Ok () h' → keepsClients h0 h'.
Proof. apply broadcastStatus_preserves. intros. by eapply sendToClient_keeps. Qed.

Lemma unregisterClient_keeps h0 client now order h h' :
  keepsClients h0 h → unregisterClient client now order h = Ok () h' → keepsClients h0 h'.
Proof.
  intros Hk Hrun.
  apply unregisterClient_cases in Hrun as (c & Hc & [[_ ->]|[Hreg Hrun]]); [done|].
  eapply broadcastStatus_keeps; [|exact Hrun].
  apply (keepsClients_insert h0 h _ client c (afterSelect c));
    [done|apply afterSelect_Username|apply unregisterPrefix_heap|done].
Qed.

Lemma handleInboundMessageWithSender_keeps h0 from msg id now h h' :
  keepsClients h0 h → handleInboundMessageWithSender from msg id now h = Ok () h' →
  keepsClients h0 h'.
Proof.
  intros Hk. rewrite handleInboundMessageWithSender_unfold.
  match goal with |- _ ?g = _ → _ => assert (Hk0 : keepsClients h0 g) by done end.
  unfold routeSends.
  destruct (Clients h !! from) as [sc|], (Clients h !! InboundMessage.To msg) as [rc|];
    intros Hrun; bind_inv Hrun.
  - apply (sendToClient_keeps h0) in Hrun0; [|done].
    bind_inv Hrun. apply (sendToClient_keeps h0) in Hrun1; [|done].
    bind_inv Hrun. apply markDelivered_heap in Hrun2.
    eapply sendToClient_keeps; [|exact Hrun]. by eapply keepsClients_heap.
  - apply (sendToClient_keeps h0) in Hrun0; [|done].
    unfold ret in Hrun. by injection Hrun as <-.
  - unfold ret in Hrun0. injection Hrun0 as <-.
    bind_inv Hrun. apply (sendToClient_keeps h0) in Hrun0; [|done].
    bind_inv Hrun. apply markDelivered_heap in Hrun1.
    unfold ret in Hrun. injection Hrun as <-. by eapply keepsClients_heap.
  - unfold ret in Hrun0, Hrun. injection Hrun0 as <-. by injection Hrun as <-.
Qed.

Lemma handleTypingEvent_keeps h0 event h h' :
  keepsClients h0 h → handleTypingEvent event h = Ok () h' → keepsClients h0 h'.
Proof.
  intros Hk Hrun.
  apply handleTypingEvent_cases in Hrun as [[_ ->]|(rc & _ & Hrun)]; [done|].
  by eapply sendToClient_keeps.
Qed.

(** The turns of the reader are steps of the server. *)
Lemma readPumpTurns_steps `{UnicodeTrim} client username reads : ∀ h h' sessions0 c,
  heap h !! client = Some c → Client.Username c = username →
  forEach reads (readPumpTurn username) h = Ok () h' →
  rtc serverStep (mkServer h sessions0) (mkServer h' sessions0) ∧ keepsClients h h'.
Proof.
  induction reads as [|rd reads IH]; intros h h' sessions0 c Hc Hu; simpl.
  - unfold ret. intros [= <-]. split; [done|]. apply keepsClients_refl.
  - unfold bind. destruct (readPumpTurn _ rd h) as [[] h1|] eqn:Hturn; [|done]. intros Hrest.
    assert (Hstep : rtc serverStep (mkServer h sessions0) (mkServer h1 sessions0) ∧
                    keepsClients h h1).
    { unfold readPumpTurn in Hturn. subst username.
      destruct (Read.frame rd) as [|[inboundMsg|]|[typingEvent|]|ty];
        try (unfold ret in Hturn; injection Hturn as <-; split;
             [done | apply keepsClients_refl]).
      - split.
        + apply rtc_once. by eapply (server_message _ _ client c).
        + eapply handleInboundMessageWithSender_keeps; [apply keepsClients_refl|exact Hturn].
      - split.
        + apply rtc_once. by eapply (server_typing _ _ client c).
        + eapply handleTypingEvent_keeps; [apply keepsClients_refl|exact Hturn]. }
    destruct Hstep as [Hsteps Hkeep].
    destruct (Hkeep client c Hc) as (c1 & Hc1 & Hname).
    destruct (IH h1 h' sessions0 c1 Hc1) as [Hsteps' Hkeep']; [congruence|done|].
    split; [by etrans|].
    intros p c0 Hp. destruct (Hkeep p c0 Hp) as (c2 & Hc2 & Hn2).
    destruct (Hkeep' p c2 Hc2) as (c3 & Hc3 & Hn3). exists c3. split; [done|]. congruence.
Qed.

Lemma logsGrowBy_same P h h' : Conversations h' = Conversations h → logsGrowBy P h h'.
Proof. intros Heq k. exists []. rewrite Heq. by rewrite app_nil_r. Qed.

Lemma logsGrowBy_trans P h1 h2 h3 : logsGrowBy P h1 h2 → logsGrowBy P h2 h3 → logsGrowBy P h1 h3.
Proof.
  intros H12 H23 k. destruct (H12 k) as (l1 & E1 & F1), (H23 k) as (l2 & E2 & F2).
  exists (l1 ++ l2). split; [by rewrite E2, E1, app_assoc | by apply Forall_app].
Qed.

Lemma readPumpTurns_logs username reads : ∀ h h',
  forEach reads (readPumpTurn username) h = Ok () h' →
  logsGrowBy (λ m, Message.From m = username) h h'.
Proof.
  induction reads as [|rd reads IH]; intros h h'; simpl.
  - unfold ret. intros [= <-]. by apply logsGrowBy_same.
  - unfold bind. destruct (readPumpTurn _ rd h) as [[] h1|] eqn:Hturn; [|done]. intros Hrest.
    eapply logsGrowBy_trans; [|by apply IH]. unfold readPumpTurn in Hturn.
    destruct (Read.frame rd) as [|[inboundMsg|]|[typingEvent|]|ty];
      try (unfold ret in Hturn; injection Hturn as <-; by apply logsGrowBy_same).
    + apply handleInboundMessageWithSender_Conversations in Hturn. intros k. rewrite Hturn.
      destruct (decide (k = ConvKey username (InboundMessage.To inboundMsg))) as [->|Hne].
      * rewrite lookup_insert_eq. simpl. eexists. split; [reflexivity|].
        by apply Forall_singleton.
      * rewrite lookup_insert_ne by done. exists []. by rewrite app_nil_r.
    + apply logsGrowBy_same. by apply handleTypingEvent_tables in Hturn as (_ & ? & _).
Qed.

(** X20.  The reader pump of a connection, in any state the server can be
    in, when nothing else happens meanwhile: whatever frames it reads, the
    messages it stores are stored at the ends of the logs, all under the
    name of its own connection as sender, whatever the payloads say; at its
    return the connection is registered for no identity; and every state it
    goes through is a state of the server. *)
Theorem readPump_effect `{UnicodeTrim} (sv : Server) (client : ptr) (c : Client.t)
    (reads : list Read.t) (nowU : Time) (order : list string) (h' : Hub) :
  serverReachable sv → heap (theHub sv) !! client = Some c →
  readPump client reads nowU order (theHub sv) = Ok () h' →
  serverReachable (mkServer h' (sessions sv)) ∧
  (∀ u, Clients h' !! u ≠ Some client) ∧
  logsGrowBy (λ m, Message.From m = Client.Username c) (theHub sv) h'.
Proof.
  intros Hreach Hc. unfold readPump, bind at 1, deref. rewrite Hc. unfold bind.
  destruct (forEach reads _ (theHub sv)) as [[] h1|] eqn:Hturns; [|done]. intros Hun.
  destruct (readPumpTurns_steps client _ reads _ _ (sessions sv) c Hc eq_refl Hturns)
    as [Hsteps Hkeep].
  rewrite Server_eta in Hsteps.
  assert (Hreach1 : serverReachable (mkServer h1 (sessions sv))).
  { unfold serverReachable in *. by etrans. }
  pose proof (reachable_wf _ (serverReachable_hub _ Hreach1)) as Hwf1. simpl in Hwf1.
  destruct (Hkeep client c Hc) as (c1 & Hc1 & Hname).
  split_and!.
  - eapply rtc_r; [exact Hreach1|]. by eapply (server_unregister _ _ client nowU order h').
  - intros u Hu.
    destruct (unregisterClient_tables _ _ _ _ _ Hun) as (c1' & Hc1' & Hshrink & _).
    pose proof (Hshrink u client Hu) as Hu1.
    destruct (registered_lookup h1 u client Hwf1 Hu1) as (c2 & Hc2 & Hn2 & _).
    assert (c2 = c1) as -> by congruence. subst u.
    destruct (decide (Clients h1 !! Client.Username c1 = Some client)) as [Hreg|Hne]; [|done].
    destruct (unregisterClient_removed _ _ _ _ _ _ Hwf1 Hc1 Hreg Hun) as (_ & Hnone & _).
    congruence.
  - eapply logsGrowBy_trans; [by eapply readPumpTurns_logs|].
    apply logsGrowBy_same. by eapply unregisterClient_Conversations.
Qed.

(** * Properties of the presence records *)

Lemma presenceSnapshot_keeps h0 client username orderU h h' :
  keepsClients h0 h → presenceSnapshot client username orderU h = Ok () h' →
  keepsClients h0 h'.
Proof.
  unfold presenceSnapshot. apply rangeMap_preserves.
  intros k v h1 h2 Hk. case_decide; [by apply sendToClient_keeps|].
  unfold ret. by intros [= <-].
Qed.

Lemma writerReceive_keeps h0 client h h' :
  keepsClients h0 h → writerReceive client h = Ok () h' → keepsClients h0 h'.
Proof.
  intros Hk Hrun.
  apply writerReceive_cases in Hrun as (c & Hc & [[_ ->]|[Hne ->]]); [done|].
  by apply (keepsClients_insert h0 h _ client c (dequeue c)).
Qed.

Lemma registerPrefix_keeps h client c now : keepsClients h (registerPrefix h client c now).
Proof.
  unfold registerPrefix.
  destruct (Clients h !! Client.Username c) as [old|];
    [|by apply (keepsClients_heap h h); [|apply keepsClients_refl]].
  destruct (heap h !! old) as [co|] eqn:Hco;
    [|by apply (keepsClients_heap h h); [|apply keepsClients_refl]].
  by apply (keepsClients_insert h h _ old co (closeQueue co)); [..|apply keepsClients_refl].
Qed.

(** A connection keeps the client objects there are and adds the new one. *)
Lemma connect_keeps client username now orderC orderU h b h' :
  hub_wf h → connect client username now orderC orderU h = Ok b h' →
  keepsClients
    (set_heap (<[client := Client.mk username (Chan.make sendQueueSize)]>) h) h'.
Proof.
  intros Hwf Hrun.
  destruct (connect_unfold _ _ _ _ _ _ _ _ Hwf Hrun) as (Hfresh & h1 & Hrun0 & Hrun1).
  eapply presenceSnapshot_keeps; [|exact Hrun1].
  eapply broadcastStatus_keeps; [|exact Hrun0].
  apply registerPrefix_keeps.
Qed.

Lemma step_keeps h h' : hub_wf h → step h h' → keepsClients h h'.
Proof.
  intros Hwf [client username now oC oU b Hfresh Hrun | client now order Hrun
              | from msg id now Hrun | event Hrun | client Hrun].
  - intros p c Hp. apply (connect_keeps _ _ _ _ _ _ _ _ Hwf Hrun). simpl.
    rewrite lookup_insert_ne; [done|]. intros <-. congruence.
  - eapply unregisterClient_keeps; [apply keepsClients_refl | exact Hrun].
  - eapply handleInboundMessageWithSender_keeps; [apply keepsClients_refl | exact Hrun].
  - eapply handleTypingEvent_keeps; [apply keepsClients_refl | exact Hrun].
  - eapply writerReceive_keeps; [apply keepsClients_refl | exact Hrun].
Qed.

Lemma presence_sound_keeps h h' :
  keepsClients h h' → Users h' = Users h → presence_sound h → presence_sound h'.
Proof.
  intros Hk HU Hs u user Hu. rewrite HU in Hu. destruct (Hs u user Hu) as [Hon Hconn].
  split; [done|]. intros p Hp. destruct (Hconn p Hp) as (c & Hc & Hname).
  destruct (Hk p c Hc) as (c' & Hc' & Hname'). exists c'. split; [done|]. congruence.
Qed.

Lemma step_presence_sound h h' :
  hub_wf h → presence_sound h → step h h' → presence_sound h'.
Proof.
  intros Hwf Hs Hstep. pose proof (step_keeps h h' Hwf Hstep) as Hk.
  destruct Hstep as [client username now oC oU b Hfresh Hrun | client now order Hrun
                     | from msg id now Hrun | event Hrun | client Hrun].
  - destruct (connect_tables _ _ _ _ _ _ _ _ Hwf Hrun) as [_ HU].
    pose proof (connect_keeps _ _ _ _ _ _ _ _ Hwf Hrun) as Hnew.
    intros u user Hu. rewrite HU in Hu.
    destruct (decide (u = username)) as [->|Hne].
    + rewrite lookup_insert_eq in Hu. injection Hu as <-. simpl. split; [done|].
      intros p [= <-].
      destruct (Hnew client (Client.mk username (Chan.make sendQueueSize)))
        as (c' & Hc' & Hname'); [simpl; apply lookup_insert_eq|].
      by exists c'.
    + rewrite lookup_insert_ne in Hu by done. destruct (Hs u user Hu) as [Hon Hconn].
      split; [done|]. intros p Hp. destruct (Hconn p Hp) as (c & Hc & Hname).
      destruct (Hk p c Hc) as (c' & Hc' & Hname'). exists c'. split; [done|]. congruence.
  - pose proof Hrun as Hcases.
    apply unregisterClient_cases in Hcases as (c & Hc & [[_ ->]|[Hreg _]]); [done|].
    pose proof (unregisterClient_Users h client c now order h' Hwf Hc Hreg Hrun) as HU.
    intros u user Hu. rewrite HU in Hu.
    destruct (decide (u = Client.Username c)) as [->|Hne].
    + rewrite lookup_insert_eq in Hu. injection Hu as <-. simpl. split; [|done].
      split; [done|]. by intros [].
    + rewrite lookup_insert_ne in Hu by done. destruct (Hs u user Hu) as [Hon Hconn].
      split; [done|]. intros p Hp. destruct (Hconn p Hp) as (c0 & Hc0 & Hname).
      destruct (Hk p c0 Hc0) as (c' & Hc' & Hname'). exists c'. split; [done|]. congruence.
  - apply (presence_sound_keeps h); [done| |done].
    by apply handleInboundMessageWithSender_tables in Hrun as [-> _].
  - apply (presence_sound_keeps h); [done| |done].
    by apply handleTypingEvent_tables in Hrun as [-> _].
  - apply (presence_sound_keeps h); [done| |done].
    by apply writerReceive_tables in Hrun as [-> _].
Qed.

Lemma steps_presence_sound h h' :
  hub_wf h → presence_sound h → rtc step h h' → presence_sound h'.
Proof.
  intros Hwf Hs Hsteps. induction Hsteps as [|h1 h2 h3 Hstep _ IH]; [done|].
  apply IH; [by eapply step_wf | by eapply step_presence_sound].
Qed.

(** X21.  In every state the hub can be in, a presence record is online
    exactly when it holds a connection; the connection it holds is a client
    object of the identity of the record; and an identity whose record is
    offline has no registered connection.  So a user shown offline has no
    connection; one shown online may have lost it by an overflow. *)
Theorem presence_record_invariant (h : Hub) (u : string) (user : User.t) :
  reachable h → Users h !! u = Some user →
  (User.Online user = true ↔ User.CurrentConn user ≠ None) ∧
  (∀ p, User.CurrentConn user = Some p →
     ∃ c, heap h !! p = Some c ∧ Client.Username c = u) ∧
  (User.Online user = false → Clients h !! u = None).
Proof.
  intros Hreach Hu.
  assert (Hs : presence_sound h).
  { apply (steps_presence_sound NewHub); [apply NewHub_wf | apply map_Forall_empty | done]. }
  destruct (Hs u user Hu) as [Hon Hconn]. split; [done|]. split; [done|].
  intros Hoff. destruct (Clients h !! u) as [p|] eqn:Hreg; [|done].
  pose proof (wf_presence h (reachable_wf h Hreach) u p Hreg) as Hpr.
  unfold presence_ok in Hpr. rewrite Hu in Hpr. destruct Hpr as [Htrue _]. congruence.
Qed.

(** * A registration beyond the capacity of the queue *)

Lemma crowdLetter_inj a b : (a < 26)%nat → (b < 26)%nat → crowdLetter a = crowdLetter b → a = b.
Proof.
  intros Ha Hb Heq. apply (f_equal Ascii.nat_of_ascii) in Heq. unfold crowdLetter in Heq.
  rewrite !Ascii.nat_ascii_embedding in Heq by lia. lia.
Qed.

Lemma crowd_digits i :
  (i < 416)%nat → (i / 16 < 26 ∧ i mod 16 < 26 ∧ i = 16 * (i / 16) + i mod 16)%nat.
Proof.
  intros Hi. pose proof (Nat.div_mod_eq i 16). pose proof (Nat.mod_upper_bound i 16). lia.
Qed.

Lemma crowdName_inj i j : (i < 416)%nat → (j < 416)%nat → crowdName i = crowdName j → i = j.
Proof.
  intros Hi Hj Heq. unfold crowdName in Heq.
  assert (H1 : crowdLetter (i / 16) = crowdLetter (j / 16)) by congruence.
  assert (H2 : crowdLetter (i mod 16) = crowdLetter (j mod 16)) by congruence.
  destruct (crowd_digits i Hi) as (Hi1 & Hi2 & Hi3).
  destruct (crowd_digits j Hj) as (Hj1 & Hj2 & Hj3).
  apply crowdLetter_inj in H1; [|done..]. apply crowdLetter_inj in H2; [|done..]. lia.
Qed.

Lemma filter_all {A} (P : A → Prop) `{∀ x, Decision (P x)} (l : list A) :
  Forall P l → filter P l = l.
Proof.
  induction 1 as [|x l Hx _ IH]; [done|]. rewrite filter_cons, decide_True by done.
  by rewrite IH.
Qed.

(** When every known identity is online and none is [u], the presence
    snapshot for [u] has a frame for each. *)
Lemma onlineOthers_all h u :
  (∀ k user, Users h !! k = Some user → k ≠ u ∧ User.Online user = true) →
  onlineOthers h u = size (Users h).
Proof.
  intros Hall. unfold onlineOthers. rewrite filter_all.
  - by rewrite length_fmap, length_map_to_list.
  - apply Forall_forall. intros k [[k' user] [-> Hk]]%list_elem_of_fmap. simpl.
    apply elem_of_map_to_list in Hk. destruct (Hall _ _ Hk) as [Hne Hon].
    split; [done|]. rewrite Hk. simpl. by rewrite Hon.
Qed.

Lemma connect_fresh client username now orderC orderU h :
  heap h !! client = None →
  connect client username now orderC orderU h =
  registerClient client now orderC orderU
    (set_heap (<[client := Client.mk username (Chan.make sendQueueSize)]>) h).
Proof. intros Hfresh. unfold connect, bind at 1, get. rewrite Hfresh. reflexivity. Qed.

(** A registration whose presence snapshot fits in the queue of the new
    connection returns. *)
Lemma registerClient_fits h client c now orderC orderU :
  hub_wf h → heap h !! client = Some c → isOpen c →
  Clients h !! Client.Username c ≠ Some client →
  (length (Chan.buf (Client.Send c)) + onlineOthers h (Client.Username c)
     ≤ Chan.cap (Client.Send c))%nat →
  ∃ h', registerClient client now orderC orderU h = Ok true h'.
Proof.
  intros Hwf Hc Hopen Hfresh Hroom. set (u := Client.Username c) in *.
  rewrite (registerClient_unfold h client c) by done. fold u.
  pose proof (registerPrefix_wf h client c now Hwf Hc Hopen Hfresh) as Hwf0.
  set (h0 := registerPrefix h client c now) in *.
  assert (Hnew0 : Clients h0 !! u = Some client).
  { unfold h0. rewrite registerPrefix_Clients. by rewrite decide_True. }
  assert (Hc0 : heap h0 !! client = Some c).
  { unfold h0. rewrite registerPrefix_heap_other; [done|]. by intros old Hold ->. }
  destruct (broadcastStatus_spec h0 u true orderC Hwf0) as (h1 & Hrun1 & Hinv).
  destruct (bc_pending _ _ _ _ _ Hinv u client Hnew0) as [Hnew1 Hc1]; [by right|].
  rewrite Hc0 in Hc1.
  unfold bind. rewrite Hrun1.
  assert (Hroom1 : (length (Chan.buf (Client.Send c)) + onlineOthers h1 u
                    ≤ Chan.cap (Client.Send c))%nat).
  { replace (onlineOthers h1 u) with (onlineOthers h u); [done|].
    symmetry. apply onlineOthers_agree. intros k Hk.
    rewrite (bc_users _ _ _ _ _ Hinv). unfold h0.
    rewrite registerPrefix_Users. by rewrite lookup_insert_ne. }
  rewrite (presenceSnapshot_spec h1 client c u orderU Hc1 Hopen Hroom1).
  unfold ret. by eexists.
Qed.

(** No call of a connection makes a client object but the new one. *)
Lemma sendToClient_cells client msgType payload h h' p :
  heap h !! p = None → sendToClient client msgType payload h = Ok () h' →
  heap h' !! p = None.
Proof.
  intros Hp Hrun.
  apply sendToClient_cases in Hrun as (c & Hc & _ & [[_ ->]|[_ ->]]); simpl;
    (rewrite lookup_insert_ne; [done|]); intros ->; congruence.
Qed.

Lemma connect_cells client username now orderC orderU h b h' p :
  hub_wf h → connect client username now orderC orderU h = Ok b h' →
  p ≠ client → heap h !! p = None → heap h' !! p = None.
Proof.
  intros Hwf Hrun Hne Hp.
  destruct (connect_unfold _ _ _ _ _ _ _ _ Hwf Hrun) as (_ & h1 & Hrun0 & Hrun1).
  revert Hrun1. unfold presenceSnapshot.
  apply (rangeMap_preserves (λ g, heap g !! p = None)).
  { intros k v g1 g2 Hg. case_decide; [by apply sendToClient_cells|].
    unfold ret. by intros [= <-]. }
  revert Hrun0. apply (broadcastStatus_preserves (λ g, heap g !! p = None)).
  { intros cl ty pl g1 g2 Hg. by apply sendToClient_cells. }
  set (h0 := set_heap _ h).
  assert (Hp0 : heap h0 !! p = None) by (unfold h0; simpl; by rewrite lookup_insert_ne).
  clearbody h0. unfold registerPrefix.
  destruct (Clients h0 !! _) as [old|]; [|done].
  destruct (heap h0 !! old) as [co|] eqn:Hco; [|done]. simpl.
  rewrite lookup_insert_ne; [done|]. intros ->. congruence.
Qed.

(** The next identity of the crowd connects: the call returns true, even
    when the snapshot is one frame longer than the queue of the new
    connection; then the connection is closed and not registered. *)
Lemma crowd_connect n h :
  crowdInv n h → (n ≤ 257)%nat →
  ∃ h', connect (S n) (crowdName (S n)) 0 [] [] h = Ok true h' ∧
        crowdInv (S n) h' ∧
        (n = 257%nat → Clients h' !! crowdName (S n) = None ∧ queueClosed h' (S n)).
Proof.
  intros [Hreach Hsize Husers Hheap] Hn.
  pose proof (reachable_wf h Hreach) as Hwf.
  assert (Hfresh : heap h !! S n = None) by (apply Hheap; lia).
  assert (Hnew : Users h !! crowdName (S n) = None).
  { destruct (Users h !! crowdName (S n)) as [user|] eqn:Hu; [|done].
    destruct (Husers _ _ Hu) as [_ (i & Hi & Heq)].
    apply crowdName_inj in Heq; lia. }
  assert (Hothers : onlineOthers h (crowdName (S n)) = n).
  { rewrite onlineOthers_all; [done|]. intros k user Hk.
    destruct (Husers _ _ Hk) as [Hon _]. split; [|done]. intros ->. congruence. }
  set (c := Client.mk (crowdName (S n)) (Chan.make sendQueueSize)).
  set (h0 := set_heap (<[S n := c]>) h).
  assert (Hwf0 : hub_wf h0).
  { apply hub_wf_set_unregistered; [done|].
    intros u Hu. destruct (registered_lookup h u (S n) Hwf Hu) as (c' & Hc' & _). congruence. }
  assert (Hc0 : heap h0 !! S n = Some c) by apply lookup_insert_eq.
  assert (Hunreg : Clients h0 !! Client.Username c ≠ Some (S n)).
  { intros Hu. destruct (registered_lookup h _ (S n) Hwf Hu) as (c' & Hc' & _). congruence. }
  assert (Hothers0 : onlineOthers h0 (Client.Username c) = n) by exact Hothers.
  assert (Hrun : ∃ h', connect (S n) (crowdName (S n)) 0 [] [] h = Ok true h' ∧
            (n = 257%nat → Clients h' !! crowdName (S n) = None ∧ queueClosed h' (S n))).
  { rewrite connect_fresh by done. fold c h0.
    destruct (decide (n = 257%nat)) as [->|Hlt].
    - destruct (registerClient_snapshot_overflow h0 258 c 0 [] [] Hwf0 Hc0 eq_refl Hunreg)
        as [Hone _]; [simpl; lia|].
      destruct Hone as (h' & Hrun & Hgone & Hclosed).
      { rewrite Hothers0. reflexivity. }
      exists h'. by split.
    - destruct (registerClient_fits h0 (S n) c 0 [] [] Hwf0 Hc0 eq_refl Hunreg) as [h' Hrun].
      { rewrite Hothers0. simpl. unfold sendQueueSize. lia. }
      exists h'. split; [done | lia]. }
  destruct Hrun as (h' & Hrun & Hlast). exists h'. split; [done|]. split; [|done].
  destruct (connect_tables _ _ _ _ _ _ _ _ Hwf Hrun) as [_ HU]. rewrite Hnew in HU.
  split.
  - eapply rtc_r; [exact Hreach|]. by eapply step_connect.
  - rewrite HU, map_size_insert_None by done. by rewrite Hsize.
  - intros k user. rewrite HU. destruct (decide (k = crowdName (S n))) as [->|Hne].
    + rewrite lookup_insert_eq. intros [= <-]. split; [done|]. exists (S n). split; [lia|done].
    + rewrite lookup_insert_ne by done. intros Hk.
      destruct (Husers _ _ Hk) as [Hon (i & Hi & ->)]. split; [done|]. exists i. split; [lia|done].
  - intros p Hp.
    apply (connect_cells _ _ _ _ _ h _ h' p Hwf Hrun); [lia | apply Hheap; lia].
Qed.

Lemma performAll_app calls1 calls2 h :
  performAll (calls1 ++ calls2) h = performAll calls1 h ≫= performAll calls2.
Proof.
  revert h. induction calls1 as [|call calls1 IH]; intros h; simpl; [done|].
  by destruct (perform call h).
Qed.

Lemma crowdCalls_S n :
  crowdCalls (S n) = crowdCalls n ++ [CallConnect (S n) (crowdName (S n)) 0 [] []].
Proof. unfold crowdCalls. by rewrite seq_S, fmap_app. Qed.

(** The calls of the crowd return, up to the 258th. *)
Lemma crowd_run n :
  (n ≤ 258)%nat → ∃ h, performAll (crowdCalls n) NewHub = Some h ∧ crowdInv n h.
Proof.
  induction n as [|n IH]; intros Hn.
  - exists NewHub. split; [done|]. split.
    + apply rtc_refl.
    + apply map_size_empty.
    + intros k user Hk. simpl in Hk. by rewrite lookup_empty in Hk.
    + intros p _. apply lookup_empty.
  - destruct IH as (h & Hrun & Hinv); [lia|].
    destruct (crowd_connect n h Hinv) as (h' & Hconn & Hinv' & _); [lia|].
    exists h'. split; [|done].
    rewrite crowdCalls_S, performAll_app, Hrun. simpl. by rewrite Hconn.
Qed.

(** C1 as stated fails.  257 identities are connected, none registered for
    the name of the next.  The registration of a connection for that name
    returns true, and yet the connection is not installed: no connection is
    registered for the name, and the queue of the new connection is closed.
    The presence snapshot has 257 frames, one more than the queue takes.
    With one more identity online, the registration that follows does not
    return: the frame after the overflow is sent on the closed queue. *)
Lemma registerClient_crowd_counterexample :
  reachable hubCrowd ∧
  size (Users hubCrowd) = 257%nat ∧
  heap hubCrowd !! 258%nat = None ∧
  Clients hubCrowd !! crowdName 258 = None ∧
  ∃ h', connect 258 (crowdName 258) 0 [] [] hubCrowd = Ok true h' ∧
        Clients h' !! crowdName 258 = None ∧
        queueClosed h' 258 ∧
        heap h' !! 259%nat = None ∧
        connect 259 (crowdName 259) 0 [] [] h' = Panic.
Proof.
  destruct (crowd_run 257) as (h & Hrun & Hinv); [lia|].
  assert (Hh : hubCrowd = h) by (unfold hubCrowd; by rewrite Hrun).
  rewrite Hh. clear Hh Hrun.
  destruct (crowd_connect 257 h Hinv) as (h' & Hconn & Hinv' & Hlast); [lia|].
  destruct (Hlast eq_refl) as [Hgone Hclosed].
  destruct Hinv as [Hreach Hsize Husers Hheap].
  pose proof (reachable_wf h Hreach) as Hwf.
  split; [done|]. split; [done|]. split; [apply Hheap; lia|].
  split.
  { destruct (Clients h !! crowdName 258) as [p|] eqn:Hreg; [|done].
    pose proof (wf_presence h Hwf _ _ Hreg) as Hpr. unfold presence_ok in Hpr.
    destruct (Users h !! crowdName 258) as [user|] eqn:Hu; [|done].
    destruct (Husers _ _ Hu) as [_ (i & Hi & Heq)]. apply crowdName_inj in Heq; lia. }
  exists h'. split; [done|]. split; [done|]. split; [done|].
  destruct Hinv' as [Hreach' Hsize' Husers' Hheap'].
  pose proof (reachable_wf h' Hreach') as Hwf'.
  assert (Hfresh : heap h' !! 259%nat = None) by (apply Hheap'; lia).
  split; [done|].
  rewrite connect_fresh by done.
  set (c := Client.mk (crowdName 259) (Chan.make sendQueueSize)).
  set (h0 := set_heap (<[259%nat := c]>) h').
  assert (Hwf0 : hub_wf h0).
  { apply hub_wf_set_unregistered; [done|].
    intros u Hu. destruct (registered_lookup h' u 259 Hwf' Hu) as (c' & Hc' & _). congruence. }
  assert (Hunreg : Clients h0 !! Client.Username c ≠ Some 259%nat).
  { intros Hu. destruct (registered_lookup h' _ 259 Hwf' Hu) as (c' & Hc' & _). congruence. }
  destruct (registerClient_snapshot_overflow h0 259 c 0 [] [] Hwf0 (lookup_insert_eq _ _ _)
              eq_refl Hunreg) as [_ Hmore]; [simpl; lia|].
  apply Hmore.
  assert (Hothers : onlineOthers h0 (Client.Username c) = 258%nat).
  { change (onlineOthers h' (crowdName 259) = 258%nat).
    rewrite onlineOthers_all; [done|]. intros k user Hk.
    destruct (Husers' _ _ Hk) as [Hon (i & Hi & ->)]. split; [|done].
    intros Heq. apply crowdName_inj in Heq; lia. }
  rewrite Hothers. simpl. unfold sendQueueSize. lia.
Qed.

(** * The properties at work *)

(** ** Concrete states *)

Lemma hubOneChat_reachable : reachable hubOneChat.
Proof.
  apply (performAll_reachable (aliceBobCalls ++ [CallMessage "alice" hiBob "m1" 30])).
  by vm_compute.
Qed.

Lemma hubTwoChats_reachable : reachable hubTwoChats.
Proof.
  apply (performAll_reachable
           (aliceBobCalls ++
            [CallMessage "alice" hiBob "m1" 30; CallMessage "alice" yoCarol "m2" 40])).
  by vm_compute.
Qed.

Lemma svAliceLoggedIn_reachable : @serverReachable asciiOnly svAliceLoggedIn.
Proof.
  apply rtc_once.
  apply (@server_login asciiOnly _ _ (loginRequest " alice ") 1000 1 5
           (@HandleLogin asciiOnly (loginRequest " alice ") 1000 1 5 NewServer).1).
  apply surjective_pairing.
Qed.

Lemma svAliceConnected_reachable : @serverReachable asciiOnly svAliceConnected.
Proof.
  eapply rtc_r; [exact svAliceLoggedIn_reachable|].
  apply (@server_websocket asciiOnly _ _ (requestWith "GET" "/ws" "1000-1") 6 Upgraded true
           1%nat 10 [] [] (Response.mk 101 None BodyEmpty)).
  - by vm_compute.
  - by vm_compute.
Qed.

Lemma svBobLoggedIn_reachable : @serverReachable asciiOnly svBobLoggedIn.
Proof.
  eapply rtc_r; [exact svAliceConnected_reachable|].
  apply (@server_login asciiOnly _ _ (loginRequest "bob") 2000 2 15
           (@HandleLogin asciiOnly (loginRequest "bob") 2000 2 15 svAliceConnected).1).
  apply surjective_pairing.
Qed.

Lemma svBothConnected_reachable : @serverReachable asciiOnly svBothConnected.
Proof.
  eapply rtc_r; [exact svBobLoggedIn_reachable|].
  apply (@server_websocket asciiOnly _ _ (requestWith "GET" "/ws" "2000-2") 16 Upgraded true
           2%nat 20 [] [] (Response.mk 101 None BodyEmpty)).
  - by vm_compute.
  - by vm_compute.
Qed.

Lemma svChat_reachable : @serverReachable asciiOnly svChat.
Proof.
  eapply rtc_r; [exact svBothConnected_reachable|].
  apply (@server_message asciiOnly _ _ 1%nat aliceClient hiBob "m1" 30 hubOneChat).
  - by vm_compute.
  - by vm_compute.
  - reflexivity.
Qed.

(** ** The hub at work *)

(** X1 at work: the queue of bob, which alice filled, holds 256 frames. *)
Lemma queue_never_exceeds_capacity_witness :
  Chan.cap (Client.Send bobFullClient) = sendQueueSize ∧
  (length (queueOf hubBobFull 2) ≤ sendQueueSize)%nat ∧
  length (queueOf hubBobFull 2) = sendQueueSize.
Proof.
  destruct (queue_never_exceeds_capacity hubBobFull 2 bobFullClient) as [Hcap Hlen].
  - exact hubBobFull_reachable.
  - vm_compute. reflexivity.
  - split; [exact Hcap|]. split; [exact Hlen|]. vm_compute. reflexivity.
Defined.

(** X2 at work: the log of alice and bob, before and after alice writes to
    carol. *)
Lemma logs_append_only_witness :
  ∃ later, Conversations hubTwoChats !! "alice|bob" =
           Some ([storedMessage "alice" hiBob "m1" 30 "delivered"] ++ later).
Proof.
  apply (logs_append_only hubOneChat hubTwoChats "alice|bob").
  - by_evaluation.
  - apply (performAll_rtc [CallMessage "alice" yoCarol "m2" 40]). vm_compute. reflexivity.
  - vm_compute. reflexivity.
Defined.

(** X3 at work: the message of alice to carol, who never connected, is
    stored under the key of the two, as sent. *)
Lemma stored_messages_invariant_witness :
  let m := storedMessage "alice" yoCarol "m2" 40 "sent" in
  Conversations hubTwoChats !! "alice|carol" = Some [m] ∧
  ConvKey (Message.From m) (Message.To m) = "alice|carol" ∧
  (Message.Status m = "sent" ∨ Message.Status m = "delivered").
Proof.
  intros m.
  assert (Hlog : Conversations hubTwoChats !! "alice|carol" = Some [m])
    by (vm_compute; reflexivity).
  split; [exact Hlog|].
  apply (stored_messages_invariant hubTwoChats "alice|carol" [m]).
  - exact hubTwoChats_reachable.
  - exact Hlog.
  - apply list_elem_of_singleton. reflexivity.
Defined.

(** X4 at work: alice writes to bob, whose queue is full. *)
Lemma route_recipient_overflow_witness :
  ∃ h', handleInboundMessageWithSender "alice" hiBob "m1" 30 hubBobFull = Ok () h' ∧
    Conversations h' !! "alice|bob" = Some [storedMessage "alice" hiBob "m1" 30 "delivered"] ∧
    queueOf h' 1 = [statusFrame "bob" true;
                    messageFrame (storedMessage "alice" hiBob "m1" 30 "sent") "sent";
                    ackFrame "m1"] ∧
    queueOf h' 2 = queueOf hubBobFull 2 ∧
    queueClosed h' 2 ∧
    Clients h' !! "bob" = None ∧
    Clients h' !! "alice" = Some 1%nat.
Proof.
  apply (route_recipient_overflow hubBobFull "alice" hiBob "m1" 30 1 2 aliceClient
           bobFullClient).
  - by_evaluation.
  - vm_compute. reflexivity.
  - vm_compute. reflexivity.
  - split; [reflexivity | vm_compute; lia].
  - vm_compute. reflexivity.
  - vm_compute. reflexivity.
  - unfold isFull. vm_compute. lia.
  - discriminate.
Defined.

(** X5 at work: alice disconnects, and the unregister call comes a second
    time. *)
Lemma unregisterClient_twice_witness :
  unregisterClient 1 30 [] hubAliceBob = Ok () hubAliceLeft ∧
  unregisterClient 1 40 [] hubAliceLeft = Ok () hubAliceLeft.
Proof.
  assert (Hfirst : unregisterClient 1 30 [] hubAliceBob = Ok () hubAliceLeft)
    by (vm_compute; reflexivity).
  split; [exact Hfirst|].
  apply (unregisterClient_twice hubAliceBob hubAliceLeft 1 30 40 [] []).
  - by_evaluation.
  - exact Hfirst.
Defined.

(** X6 at work: the message of alice to carol is not read out with the
    conversation of alice and bob. *)
Lemma GetConversationMessages_isolation_witness :
  storedMessage "alice" yoCarol "m2" 40 "sent" ∉ GetConversationMessages hubTwoChats "alice" "bob".
Proof.
  intros Hin.
  apply (GetConversationMessages_isolation hubTwoChats "alice" "bob") in Hin.
  - destruct Hin as [_ [[_ Hto] | [Hfrom _]]]; discriminate.
  - exact hubTwoChats_reachable.
  - reflexivity.
  - reflexivity.
Defined.

(** X7 at work: the connection of alice. *)
Lemma registered_connection_invariant_witness :
  ∃ c user, heap hubAliceBob !! 1%nat = Some c ∧ Client.Username c = "alice" ∧
    Chan.closed (Client.Send c) = false ∧
    Users hubAliceBob !! "alice" = Some user ∧ User.Username user = "alice" ∧
    User.Online user = true ∧ User.CurrentConn user = Some 1%nat.
Proof.
  apply (registered_connection_invariant hubAliceBob "alice" 1).
  - exact hubAliceBob_reachable.
  - vm_compute. reflexivity.
Defined.

(** ** The server at work *)

(** X11 at work: the session of alice has expired, and her cookie gets
    nothing out of the handlers. *)
Lemma authentication_required_witness :
  let r := requestWith "GET" "/api/me" "1000-1" in
  let now := (5 + 24 * Hour + 1)%Z in
  (∃ resp sv', HandleMe r now svChat = (resp, sv') ∧
     refusedWith [401; 405]%nat resp ∧ theHub sv' = hubOneChat) ∧
  (∃ resp sv', @HandleGetConversation asciiOnly r now svChat = (resp, sv') ∧
     refusedWith [401; 405]%nat resp ∧ theHub sv' = hubOneChat).
Proof.
  intros r now.
  destruct (@authentication_required insertionSorter asciiOnly kelvinLower r now svChat)
    as (_ & Hme & _ & _ & Hconv & _).
  - intros session (id & Hcookie & _ & Hlook & Hlive).
    injection Hcookie as <-. vm_compute in Hlook. injection Hlook as <-.
    vm_compute in Hlive. by apply Hlive.
  - split; [exact Hme | exact Hconv].
Defined.

(** X13 at work: the names in the state after alice and bob logged in and
    alice wrote to bob. *)
Lemma server_names_valid_witness :
  (∀ id session, sessions svChat !! id = Some session →
     validUsername (Session.Username session) = true) ∧
  (∀ p c, heap (theHub svChat) !! p = Some c → validUsername (Client.Username c) = true) ∧
  (∀ u user, Users (theHub svChat) !! u = Some user → validUsername u = true) ∧
  (∀ k log m, Conversations (theHub svChat) !! k = Some log → m ∈ log →
     validUsername (Message.From m) = true).
Proof. apply (@server_names_valid asciiOnly svChat). exact svChat_reachable. Defined.

(** X14 at work: alice is connected; a second login and a second WebSocket
    request under her name are refused. *)
Lemma second_connection_refused_witness :
  (∃ resp, @HandleLogin asciiOnly (loginRequest "alice") 3000 3 25 svAliceConnected
           = (resp, svAliceConnected) ∧
           refusedWith [400; 405; 409]%nat resp) ∧
  HandleWebSocket (requestWith "GET" "/ws" "1000-1") 26 Upgraded true 3 30 [] []
    svAliceConnected =
  Some (http_Error "User already has an active connection" 409, svAliceConnected).
Proof.
  destruct (@second_connection_refused asciiOnly svAliceConnected "alice" 1)
    as [Hlogin Hws].
  - exact svAliceConnected_reachable.
  - vm_compute. reflexivity.
  - split.
    + apply (Hlogin (loginRequest "alice") 3000%Z 3%Z 25%Z "alice"); reflexivity.
    + apply (Hws (requestWith "GET" "/ws" "1000-1") 26%Z Upgraded true 3%nat 30%Z [] []
               (Session.mk "alice" (5 + 24 * Hour))); [|reflexivity].
      exists "1000-1". split; [reflexivity|]. split; [discriminate|].
      split; [vm_compute; reflexivity | vm_compute; discriminate].
Defined.

(** X16 at work: alice reads her conversation with bob. *)
Lemma HandleGetConversation_own_messages_witness :
  ∃ messages,
    @HandleGetConversation asciiOnly (requestWith "GET" "/api/conversations/bob" "1000-1") 50
      svChat = (jsonResponse (BodyMessages messages), svChat) ∧
    ∀ m, m ∈ messages ↔
      (∃ k log, Conversations hubOneChat !! k = Some log ∧ m ∈ log) ∧
      ((Message.From m = "alice" ∧ Message.To m = "bob") ∨
       (Message.From m = "bob" ∧ Message.To m = "alice")).
Proof.
  apply (@HandleGetConversation_own_messages asciiOnly svChat
           (requestWith "GET" "/api/conversations/bob" "1000-1") 50
           (Session.mk "alice" (5 + 24 * Hour))).
  - exact svChat_reachable.
  - reflexivity.
  - exists "1000-1". split; [reflexivity|]. split; [discriminate|].
    split; [vm_compute; reflexivity | vm_compute; discriminate].
  - vm_compute. discriminate.
  - vm_compute. reflexivity.
Defined.

(** X17 at work: alice logs out while she is connected. *)
Lemma HandleLogout_effect_witness :
  ∃ sv',
    HandleLogout (requestWith "POST" "/api/logout" "1000-1") 50 60 [] svChat =
    Some (Response.mk 200 (Some (Cookie.mk "session_id" "" "/" true false SameSiteUnset (-1)))
            BodyEmpty, sv') ∧
    sessions sv' = delete "1000-1" (sessions svChat) ∧
    Clients (theHub sv') !! "alice" = None ∧
    Users (theHub sv') !! "alice" = Some (User.mk "alice" false None 60).
Proof.
  destruct (@HandleLogout_effect asciiOnly svChat (requestWith "POST" "/api/logout" "1000-1")
              50 60 [] (Session.mk "alice" (5 + 24 * Hour)))
    as (sv' & Hrun & Hsessions & _ & Hgone & Huser & _).
  - exact svChat_reachable.
  - reflexivity.
  - exists "1000-1". split; [reflexivity|]. split; [discriminate|].
    split; [vm_compute; reflexivity | vm_compute; discriminate].
  - exists sv'. split; [exact Hrun|]. split; [exact Hsessions|]. split; [exact Hgone|].
    apply (Huser 1%nat). vm_compute. reflexivity.
Defined.

(** ** The pumps at work *)

(** X18 at work: the writer of alice sends the frame in her queue. *)
Lemma writePumpSend_drains_witness :
  writePumpSend 1 healthyConn hubAliceBob =
  Ok (PumpRuns, Conn.mk [TextMessage (Some (statusFrame "bob" true))] None false)
     (set_heap (<[1%nat := withQueue [] aliceClient]>) hubAliceBob).
Proof.
  destruct (writePumpSend_drains hubAliceBob 1 aliceClient healthyConn) as [Hok _].
  - vm_compute. reflexivity.
  - discriminate.
  - apply Hok. exact I.
Defined.

(** X19 at work: the queue of alice overflowed and was closed; her writer
    still sends the 256 frames of the queue, and then the close frame. *)
Lemma writePump_closed_queue_witness :
  let q := Chan.buf (Client.Send aliceEvictedClient) in
  length q = 256%nat ∧
  writePump 2 1 healthyConn hubAliceEvicted =
  Ok (PumpReturned, Conn.mk (textFrames q ++ [CloseMessage]) None true)
     (set_heap (<[1%nat := withQueue [] aliceEvictedClient]>) hubAliceEvicted).
Proof.
  intros q. split; [vm_compute; reflexivity|].
  destruct (writePump_closed_queue hubAliceEvicted 1 aliceEvictedClient healthyConn 0)
    as [Hclosed _].
  - vm_compute. reflexivity.
  - apply Hclosed; [vm_compute; reflexivity | exact I].
Defined.

(** X20 at work: the reader of alice reads one message for bob and then
    fails. *)
Lemma readPump_effect_witness :
  readPump 1 aliceReads 40 [] (theHub svBothConnected) = Ok () hubAfterReads ∧
  @serverReachable asciiOnly (mkServer hubAfterReads (sessions svBothConnected)) ∧
  (∀ u, Clients hubAfterReads !! u ≠ Some 1%nat) ∧
  logsGrowBy (λ m, Message.From m = "alice") (theHub svBothConnected) hubAfterReads.
Proof.
  assert (Hrun : readPump 1 aliceReads 40 [] (theHub svBothConnected) = Ok () hubAfterReads)
    by (vm_compute; reflexivity).
  split; [exact Hrun|].
  apply (@readPump_effect asciiOnly svBothConnected 1 aliceClient aliceReads 40 []).
  - exact svBothConnected_reachable.
  - vm_compute. reflexivity.
  - exact Hrun.
Defined.

(** X21 at work: the queue of alice overflowed; her presence record is
    online and holds her connection, which is registered no more. *)
Lemma presence_record_invariant_witness :
  ∃ user, Users hubAliceEvicted !! "alice" = Some user ∧
    User.Online user = true ∧ User.CurrentConn user = Some 1%nat ∧
    (∃ c, heap hubAliceEvicted !! 1%nat = Some c ∧ Client.Username c = "alice") ∧
    Clients hubAliceEvicted !! "alice" = None.
Proof.
  exists (User.mk "alice" true (Some 1%nat) 10).
  assert (Hu : Users hubAliceEvicted !! "alice" = Some (User.mk "alice" true (Some 1%nat) 10))
    by (vm_compute; reflexivity).
  destruct (presence_record_invariant hubAliceEvicted "alice" _ hubAliceEvicted_reachable Hu)
    as (_ & Hconn & _).
  split; [exact Hu|]. split; [reflexivity|]. split; [reflexivity|].
  split; [by apply Hconn | vm_compute; reflexivity].
Defined.
